(** * Analytics group editor: the forest core of [src/App.tsx]

    A shallow embedding of the tree-editing core of the application
    (forest store, visibility projection, layout, search matcher, drag
    controller, deletion handlers and change ledger), followed by the
    properties stated about it.

    Conventions of the embedding.
    - A JavaScript string is the list of its UTF-16 code units ([N]).
      The empty string is the only falsy string.
    - A JavaScript [number] on which the code does arithmetic is an
      IEEE-754 binary64 value ([spec_float] of the Standard Library with 53
      bits of precision, every operation rounded to nearest, ties to even).
      Levels and lengths, which only count, are natural numbers; pointer
      coordinates, which are only stored, are rationals.
    - [cloneDeep] (a JSON round trip) is the identity on values; what it
      buys the code is a private copy that may be mutated in place.  An
      object of such a copy is named by the index path leading to it
      ([ref]), and an in-place assignment is a functional update there.
    - A React handler is a function from the state it closes over to the
      state after all its setters have run.  [Date.now()] and [uid()] are
      inputs of the handler. *)

From Stdlib Require Import QArith SpecFloat.
From stdpp Require Import gmap list fin_maps strings pretty.

Set Default Proof Using "Type".

(* ===================================================================== *)
(** ** Strings *)
(* ===================================================================== *)

Abbreviation jsstring := (list N).

(** [!s] for a string [s]. *)
Definition falsy (s : jsstring) : bool :=
  match s with [] => true | _ => false end.

(** [!x] for [x : string | null]. *)
Definition falsyOpt (x : option jsstring) : bool :=
  match x with None => true | Some s => falsy s end.

(** Literals of the source that are plain ASCII. *)
Definition js (s : String.string) : jsstring :=
  Ascii.N_of_ascii <$> String.list_ascii_of_string s.
Arguments js s%_string.

(** WhiteSpace and LineTerminator code units, the ones [String.prototype.trim]
    strips: TAB LF VT FF CR SP NBSP, U+1680, U+2000..U+200A, LS, PS,
    U+202F, U+205F, U+3000 and U+FEFF. *)
Definition isTrimmable (c : N) : bool :=
  (bool_decide
     (c ∈ [9; 10; 11; 12; 13; 32; 160; 5760; 8232; 8233; 8239; 8287; 12288; 65279])
   || ((8192 <=? c) && (c <=? 8202)))%N.

Fixpoint trimStart (s : jsstring) : jsstring :=
  match s with
  | c :: s' => if isTrimmable c then trimStart s' else s
  | [] => []
  end.

Definition trimEnd (s : jsstring) : jsstring := rev (trimStart (rev s)).

Definition trim (s : jsstring) : jsstring := trimEnd (trimStart s).

(* ===================================================================== *)
(** ** Data model *)
(* ===================================================================== *)

(** [type TreeNode = { id: string; name: string; children: TreeNode[] }] *)
Unset Elimination Schemes.
Inductive TreeNode : Type :=
  mkNode { id : jsstring; name : jsstring; children : list TreeNode }.
Set Elimination Schemes.

Abbreviation Forest := (list TreeNode).

#[global] Instance TreeNode_eq_dec : EqDecision TreeNode.
Proof.
  refine (fix eq_dec (a b : TreeNode) : Decision (a = b) :=
            let _ : EqDecision TreeNode := eq_dec in
            match a, b with
            | mkNode i1 n1 cs1, mkNode i2 n2 cs2 =>
                cast_if_and3 (decide (i1 = i2)) (decide (n1 = n2)) (decide (cs1 = cs2))
            end); abstract congruence.
Defined.

(** *** Numbers

    The binary64 values of JavaScript with their addition and division, and
    the conversion of a count to a number. *)
Definition number : Type := spec_float.

Definition numAdd : number → number → number := SFadd 53 1024.
Definition numDiv : number → number → number := SFdiv 53 1024.

Definition numOfNat (n : nat) : number :=
  binary_normalize 53 1024 (Z.of_nat n) 0 false.

(** [type Pos = { level: number; y: number }] *)
Record Pos : Type := mkPos { level : nat; y : number }.

Definition setChildren (n : TreeNode) (cs : list TreeNode) : TreeNode :=
  mkNode (id n) (name n) cs.

Definition setName (n : TreeNode) (s : jsstring) : TreeNode :=
  mkNode (id n) s (children n).

(** *** References into a forest *)

Definition ref := list nat.

Fixpoint deref (nodes : list TreeNode) (r : ref) : option TreeNode :=
  match r with
  | [] => None
  | i :: r' =>
      match nodes !! i with
      | None => None
      | Some n => match r' with [] => Some n | _ => deref (children n) r' end
      end
  end.

(** [updateAt f r forest]: the object at [r] becomes [f] of itself. *)
Fixpoint updateAt (f : TreeNode → TreeNode) (r : ref) (nodes : list TreeNode)
  : list TreeNode :=
  match r with
  | [] => nodes
  | i :: r' =>
      match nodes !! i with
      | None => nodes
      | Some n =>
          <[i := match r' with
                 | [] => f n
                 | _ => setChildren n (updateAt f r' (children n))
                 end]> nodes
      end
  end.

(** The reference one step further along the enclosing array. *)
Definition nextSibling (r : ref) : ref :=
  match r with i :: r' => S i :: r' | [] => [] end.

(** The enclosing object of a reference, [None] for a root. *)
Definition parentRef (r : ref) : option ref :=
  match r with
  | [] | [_] => None
  | _ => Some (removelast r)
  end.

(* ===================================================================== *)
(** ** Forest traversals *)
(* ===================================================================== *)

(** *** [findNodeAndParent] *)

Section FindLoop.
Variable target : jsstring.
(** [dfs(n.children, n)] of the source, as a reference below [n]. *)
Variable inChildren : TreeNode → option ref.

Fixpoint findLoop (nodes : list TreeNode) : option ref :=
  match nodes with
  | [] => None
  | n :: rest =>
      if decide (id n = target) then Some [0]
      else match inChildren n with
           | Some r => Some (0 :: r)
           | None => nextSibling <$> findLoop rest
           end
  end.
End FindLoop.

Fixpoint findInChildren (target : jsstring) (n : TreeNode) : option ref :=
  findLoop target (findInChildren target) (children n).

Definition findRef (forest : Forest) (target : jsstring) : option ref :=
  findLoop target (findInChildren target) forest.

Record NodeAndParent : Type := mkFound { parent : option ref; node : option ref }.

Definition findNodeAndParent (forest : Forest) (target : jsstring) : NodeAndParent :=
  match findRef forest target with
  | Some r => {| parent := parentRef r; node := Some r |}
  | None => {| parent := None; node := None |}
  end.

(** [findNodeAndParent(forest, x).node] as a value. *)
Definition findNode (forest : Forest) (target : jsstring) : option TreeNode :=
  node (findNodeAndParent forest target) ≫= deref forest.

(** [findNodeAndParent(forest, x).node?.name || ''] *)
Definition nameOf (forest : Forest) (target : jsstring) : jsstring :=
  match findNode forest target with Some n => name n | None => [] end.

(** *** [buildVisibleForest] *)

Fixpoint mapNode (collapsedIds : gset jsstring) (n : TreeNode) : TreeNode :=
  if decide (id n ∈ collapsedIds) then setChildren n []
  else setChildren n (mapNode collapsedIds <$> children n).

Definition buildVisibleForest (forest : Forest) (collapsedIds : gset jsstring) : Forest :=
  mapNode collapsedIds <$> forest.

(** *** [flattenForest] *)

Fixpoint flattenNode (n : TreeNode) : list TreeNode :=
  n :: (children n ≫= flattenNode).

Definition flattenForest (forest : Forest) : list TreeNode :=
  forest ≫= flattenNode.

(** *** [layoutForest] *)

(** The two variables the walk assigns to: the counter [leafY], a number
    that [leafY += 1] advances by an addition of numbers, and the map
    [positions]. *)
Record LayoutState : Type :=
  mkLayout { leafY : number; positions : gmap jsstring Pos }.

Section WalkAll.
(** [node.children.map((c) => walk(c, level + 1))], threading the state. *)
Variable walkOne : TreeNode → LayoutState → number * LayoutState.

Fixpoint walkAll (nodes : list TreeNode) (st : LayoutState)
  : list number * LayoutState :=
  match nodes with
  | [] => ([], st)
  | c :: rest =>
      let '(yc, st1) := walkOne c st in
      let '(ys, st2) := walkAll rest st1 in
      (yc :: ys, st2)
  end.
End WalkAll.

(** [childYs.reduce((a, b) => a + b, 0) / Math.max(childYs.length, 1)] *)
Definition meanY (childYs : list number) : number :=
  numDiv (fold_left numAdd childYs (numOfNat 0))
    (numOfNat (Nat.max (length childYs) 1)).

Fixpoint walk (n : TreeNode) (lvl : nat) (st : LayoutState) : number * LayoutState :=
  match children n with
  | [] =>
      let y0 := leafY st in
      (y0, mkLayout (numAdd (leafY st) (numOfNat 1))
             (<[id n := mkPos lvl y0]> (positions st)))
  | _ :: _ =>
      let '(childYs, st1) := walkAll (fun c => walk c (S lvl)) (children n) st in
      let y1 := meanY childYs in
      (y1, mkLayout (leafY st1) (<[id n := mkPos lvl y1]> (positions st1)))
  end.

Definition layoutForest (forest : Forest) : gmap jsstring Pos :=
  positions (walkAll (fun n => walk n 0) forest (mkLayout (numOfNat 0) ∅)).2.

(** *** [isDescendant] *)

(** The inner [dfs] of [isDescendant]: does some node of the subtrees carry
    the id. *)
Fixpoint carriesId (target : jsstring) (n : TreeNode) : bool :=
  if decide (id n = target) then true
  else existsb (carriesId target) (children n).

Definition isDescendant (forest : Forest) (ancestorId maybeDescendantId : jsstring) : bool :=
  match findNode forest ancestorId with
  | None => false
  | Some anc => existsb (carriesId maybeDescendantId) (children anc)
  end.

(** *** [detachNode] *)

Section DetachLoop.
Variable nodeId : jsstring.
(** [dfs(n.children)]: the children after the splice and the detached node. *)
Variable inChildren : TreeNode → option (list TreeNode * TreeNode).

Fixpoint detachLoop (nodes : list TreeNode) : option (list TreeNode * TreeNode) :=
  match nodes with
  | [] => None
  | n :: rest =>
      if decide (id n = nodeId) then Some (rest, n)
      else match inChildren n with
           | Some (cs, d) => Some (setChildren n cs :: rest, d)
           | None =>
               match detachLoop rest with
               | Some (rest', d) => Some (n :: rest', d)
               | None => None
               end
           end
  end.
End DetachLoop.

Fixpoint detachInChildren (nodeId : jsstring) (n : TreeNode)
  : option (list TreeNode * TreeNode) :=
  detachLoop nodeId (detachInChildren nodeId) (children n).

Definition detachNode (forest : Forest) (nodeId : jsstring) : Forest * option TreeNode :=
  match detachLoop nodeId (detachInChildren nodeId) forest with
  | Some (updated, d) => (updated, Some d)
  | None => (forest, None)
  end.

(** *** [moveNodeAsChild] *)

(** [n.children.push(...cs)] *)
Definition pushChildren (cs : list TreeNode) (n : TreeNode) : TreeNode :=
  setChildren n (children n ++ cs).

Definition moveNodeAsChild (forest : Forest) (draggingId targetId : jsstring)
  : Forest * bool :=
  if decide (draggingId = targetId) then (forest, false)
  else if isDescendant forest draggingId targetId then (forest, false)
  else
    let '(without, detached) := detachNode forest draggingId in
    match detached with
    | None => (forest, false)
    | Some d =>
        match node (findNodeAndParent without targetId) with
        | None => (forest, false)
        | Some target => (updateAt (pushChildren [d]) target without, true)
        end
    end.

(* ===================================================================== *)
(** ** Search matcher *)
(* ===================================================================== *)

(** The class [[.*+?^${}()|[\]\\]] of [escapeRegExp], which is also the set
    of SyntaxCharacters of the pattern grammar. *)
Definition isSyntaxChar (c : N) : bool :=
  bool_decide (c ∈ [46; 42; 43; 63; 94; 36; 123; 125; 40; 41; 124; 91; 93; 92]%N).

Definition backslash : N := 92.

(** [value.replace(/[.*+?^${}()|[\]\\]/g, '\\$&')] *)
Definition escapeRegExp (value : jsstring) : jsstring :=
  value ≫= (fun c => if isSyntaxChar c then [backslash; c] else [c]).

(** The built-in [RegExp], for the patterns the application compiles: a
    sequence of pattern characters and identity escapes (a backslash and a
    syntax character).  [compilePattern] is the pattern parser on that
    fragment; a pattern with a bare syntax character lies outside it and
    yields [None], which [queryRe] below never meets. *)
Fixpoint compilePattern (pattern : jsstring) : option (list N) :=
  match pattern with
  | [] => Some []
  | c :: rest =>
      if bool_decide (c = backslash) then
        match rest with
        | e :: rest' =>
            if isSyntaxChar e then (e ::.) <$> compilePattern rest' else None
        | [] => None
        end
      else if isSyntaxChar c then None
      else (c ::.) <$> compilePattern rest
  end.

Record RegExp : Type := mkRegExp { literal : list N; ignoreCase : bool }.

(** [new RegExp(pattern, flags)], [None] when the constructor throws. *)
Definition newRegExp (pattern : jsstring) (i : bool) : option RegExp :=
  (fun l => mkRegExp l i) <$> compilePattern pattern.

Section Matching.
(** Canonicalize of the regular-expression semantics (the per code unit
    upper-casing used under the [i] flag).  It is a table of the
    JavaScript engine and a parameter here. *)
Variable canonicalize : N → N.

Definition sameChar (i : bool) (p c : N) : bool :=
  if i then bool_decide (canonicalize p = canonicalize c)
  else bool_decide (p = c).

(** The literal matches at the start of [s]. *)
Fixpoint matchesHere (i : bool) (lit s : list N) : bool :=
  match lit, s with
  | [], _ => true
  | p :: lit', c :: s' => sameChar i p c && matchesHere i lit' s'
  | _ :: _, [] => false
  end.

(** The literal matches at some index of [s], tried from the left. *)
Fixpoint matchesSomewhere (i : bool) (lit s : list N) : bool :=
  matchesHere i lit s ||
  match s with
  | [] => false
  | _ :: s' => matchesSomewhere i lit s'
  end.

(** [re.test(s)] *)
Definition test (re : RegExp) (s : jsstring) : bool :=
  matchesSomewhere (ignoreCase re) (literal re) s.

(** The memoised [queryRe]. *)
Definition queryRe (query : jsstring) : option RegExp :=
  let q := trim query in
  if falsy q then None
  else newRegExp (escapeRegExp q) true.

(** [isMatch], with the query it closes over made explicit. *)
Definition isMatch (query name0 : jsstring) : bool :=
  match queryRe query with
  | Some re => test re name0
  | None => false
  end.

(** [text] occurs in [s], letter case apart. *)
Definition occursIgnoringCase (text s : jsstring) : Prop :=
  ∃ before mid after,
    s = before ++ mid ++ after ∧
    canonicalize <$> mid = canonicalize <$> text.
End Matching.

(* ===================================================================== *)
(** ** Application state *)
(* ===================================================================== *)

(** [type ChangeLogItem = { id: string; at: number; summary: string }] *)
Record ChangeLogItem : Type :=
  mkItem { item_id : jsstring; item_at : Z; summary : jsstring }.

(** [type DragState = { draggingId: string; x: number; y: number }] *)
Record DragState : Type :=
  mkDrag { draggingId : jsstring; drag_x : Q; drag_y : Q }.

Record Rect : Type :=
  mkRect { rect_left : Q; rect_top : Q; rect_width : Q; rect_height : Q }.

(** [type OverlayState = { nodeId: string; rect: ... }] *)
Record OverlayState : Type :=
  mkOverlay { overlay_nodeId : jsstring; overlay_rect : Rect }.

(** The state of the delete dialog, [{ open: boolean; nodeId: string | null }]. *)
Record DeleteDialog : Type :=
  mkDialog { dialog_open : bool; dialog_nodeId : option jsstring }.

(** The [useState] cells of [App] that the handlers below read or write
    (the three fold flags of the side panel are left out). *)
Record AppState : Type := mkApp {
  committedAt : Z;
  committedGroupName : jsstring;
  activeTab : jsstring;
  groupName : jsstring;
  dims : list jsstring;
  forest : Forest;
  selectedId : option jsstring;
  panelOpen : bool;
  collapsed : gset jsstring;
  query : jsstring;
  editingGroup : bool;
  groupDraft : jsstring;
  editingDimIndex : option nat;
  dimDraft : jsstring;
  editingNodeId : option jsstring;
  nodeDraft : jsstring;
  changeLog : list ChangeLogItem;
  justApplied : bool;
  deleteDialog : DeleteDialog;
  reassignTargetId : option jsstring;
  drag : option DragState;
  dropTargetId : option jsstring;
  overlay : option OverlayState
}.

(** The [useState] setters. *)
Definition setCommittedAt (v : Z) (st : AppState) : AppState :=
  {| committedAt := v; committedGroupName := committedGroupName st; activeTab
  := activeTab st; groupName := groupName st; dims := dims st; forest :=
  forest st; selectedId := selectedId st; panelOpen := panelOpen st; collapsed
  := collapsed st; query := query st; editingGroup := editingGroup st;
  groupDraft := groupDraft st; editingDimIndex := editingDimIndex st; dimDraft
  := dimDraft st; editingNodeId := editingNodeId st; nodeDraft := nodeDraft
  st; changeLog := changeLog st; justApplied := justApplied st; deleteDialog
  := deleteDialog st; reassignTargetId := reassignTargetId st; drag := drag
  st; dropTargetId := dropTargetId st; overlay := overlay st |}.
Definition setCommittedGroupName (v : jsstring) (st : AppState) : AppState :=
  {| committedAt := committedAt st; committedGroupName := v; activeTab :=
  activeTab st; groupName := groupName st; dims := dims st; forest := forest
  st; selectedId := selectedId st; panelOpen := panelOpen st; collapsed :=
  collapsed st; query := query st; editingGroup := editingGroup st; groupDraft
  := groupDraft st; editingDimIndex := editingDimIndex st; dimDraft :=
  dimDraft st; editingNodeId := editingNodeId st; nodeDraft := nodeDraft st;
  changeLog := changeLog st; justApplied := justApplied st; deleteDialog :=
  deleteDialog st; reassignTargetId := reassignTargetId st; drag := drag st;
  dropTargetId := dropTargetId st; overlay := overlay st |}.
Definition setGroupName (v : jsstring) (st : AppState) : AppState :=
  {| committedAt := committedAt st; committedGroupName := committedGroupName
  st; activeTab := activeTab st; groupName := v; dims := dims st; forest :=
  forest st; selectedId := selectedId st; panelOpen := panelOpen st; collapsed
  := collapsed st; query := query st; editingGroup := editingGroup st;
  groupDraft := groupDraft st; editingDimIndex := editingDimIndex st; dimDraft
  := dimDraft st; editingNodeId := editingNodeId st; nodeDraft := nodeDraft
  st; changeLog := changeLog st; justApplied := justApplied st; deleteDialog
  := deleteDialog st; reassignTargetId := reassignTargetId st; drag := drag
  st; dropTargetId := dropTargetId st; overlay := overlay st |}.
Definition setDims (v : list jsstring) (st : AppState) : AppState :=
  {| committedAt := committedAt st; committedGroupName := committedGroupName
  st; activeTab := activeTab st; groupName := groupName st; dims := v; forest
  := forest st; selectedId := selectedId st; panelOpen := panelOpen st;
  collapsed := collapsed st; query := query st; editingGroup := editingGroup
  st; groupDraft := groupDraft st; editingDimIndex := editingDimIndex st;
  dimDraft := dimDraft st; editingNodeId := editingNodeId st; nodeDraft :=
  nodeDraft st; changeLog := changeLog st; justApplied := justApplied st;
  deleteDialog := deleteDialog st; reassignTargetId := reassignTargetId st;
  drag := drag st; dropTargetId := dropTargetId st; overlay := overlay st |}.
Definition setForest (v : Forest) (st : AppState) : AppState :=
  {| committedAt := committedAt st; committedGroupName := committedGroupName
  st; activeTab := activeTab st; groupName := groupName st; dims := dims st;
  forest := v; selectedId := selectedId st; panelOpen := panelOpen st;
  collapsed := collapsed st; query := query st; editingGroup := editingGroup
  st; groupDraft := groupDraft st; editingDimIndex := editingDimIndex st;
  dimDraft := dimDraft st; editingNodeId := editingNodeId st; nodeDraft :=
  nodeDraft st; changeLog := changeLog st; justApplied := justApplied st;
  deleteDialog := deleteDialog st; reassignTargetId := reassignTargetId st;
  drag := drag st; dropTargetId := dropTargetId st; overlay := overlay st |}.
Definition setSelectedId (v : option jsstring) (st : AppState) : AppState :=
  {| committedAt := committedAt st; committedGroupName := committedGroupName
  st; activeTab := activeTab st; groupName := groupName st; dims := dims st;
  forest := forest st; selectedId := v; panelOpen := panelOpen st; collapsed
  := collapsed st; query := query st; editingGroup := editingGroup st;
  groupDraft := groupDraft st; editingDimIndex := editingDimIndex st; dimDraft
  := dimDraft st; editingNodeId := editingNodeId st; nodeDraft := nodeDraft
  st; changeLog := changeLog st; justApplied := justApplied st; deleteDialog
  := deleteDialog st; reassignTargetId := reassignTargetId st; drag := drag
  st; dropTargetId := dropTargetId st; overlay := overlay st |}.
Definition setPanelOpen (v : bool) (st : AppState) : AppState :=
  {| committedAt := committedAt st; committedGroupName := committedGroupName
  st; activeTab := activeTab st; groupName := groupName st; dims := dims st;
  forest := forest st; selectedId := selectedId st; panelOpen := v; collapsed
  := collapsed st; query := query st; editingGroup := editingGroup st;
  groupDraft := groupDraft st; editingDimIndex := editingDimIndex st; dimDraft
  := dimDraft st; editingNodeId := editingNodeId st; nodeDraft := nodeDraft
  st; changeLog := changeLog st; justApplied := justApplied st; deleteDialog
  := deleteDialog st; reassignTargetId := reassignTargetId st; drag := drag
  st; dropTargetId := dropTargetId st; overlay := overlay st |}.
Definition setCollapsed (v : gset jsstring) (st : AppState) : AppState :=
  {| committedAt := committedAt st; committedGroupName := committedGroupName
  st; activeTab := activeTab st; groupName := groupName st; dims := dims st;
  forest := forest st; selectedId := selectedId st; panelOpen := panelOpen st;
  collapsed := v; query := query st; editingGroup := editingGroup st;
  groupDraft := groupDraft st; editingDimIndex := editingDimIndex st; dimDraft
  := dimDraft st; editingNodeId := editingNodeId st; nodeDraft := nodeDraft
  st; changeLog := changeLog st; justApplied := justApplied st; deleteDialog
  := deleteDialog st; reassignTargetId := reassignTargetId st; drag := drag
  st; dropTargetId := dropTargetId st; overlay := overlay st |}.
Definition setEditingGroup (v : bool) (st : AppState) : AppState :=
  {| committedAt := committedAt st; committedGroupName := committedGroupName
  st; activeTab := activeTab st; groupName := groupName st; dims := dims st;
  forest := forest st; selectedId := selectedId st; panelOpen := panelOpen st;
  collapsed := collapsed st; query := query st; editingGroup := v; groupDraft
  := groupDraft st; editingDimIndex := editingDimIndex st; dimDraft :=
  dimDraft st; editingNodeId := editingNodeId st; nodeDraft := nodeDraft st;
  changeLog := changeLog st; justApplied := justApplied st; deleteDialog :=
  deleteDialog st; reassignTargetId := reassignTargetId st; drag := drag st;
  dropTargetId := dropTargetId st; overlay := overlay st |}.
Definition setGroupDraft (v : jsstring) (st : AppState) : AppState :=
  {| committedAt := committedAt st; committedGroupName := committedGroupName
  st; activeTab := activeTab st; groupName := groupName st; dims := dims st;
  forest := forest st; selectedId := selectedId st; panelOpen := panelOpen st;
  collapsed := collapsed st; query := query st; editingGroup := editingGroup
  st; groupDraft := v; editingDimIndex := editingDimIndex st; dimDraft :=
  dimDraft st; editingNodeId := editingNodeId st; nodeDraft := nodeDraft st;
  changeLog := changeLog st; justApplied := justApplied st; deleteDialog :=
  deleteDialog st; reassignTargetId := reassignTargetId st; drag := drag st;
  dropTargetId := dropTargetId st; overlay := overlay st |}.
Definition setEditingDimIndex (v : option nat) (st : AppState) : AppState :=
  {| committedAt := committedAt st; committedGroupName := committedGroupName
  st; activeTab := activeTab st; groupName := groupName st; dims := dims st;
  forest := forest st; selectedId := selectedId st; panelOpen := panelOpen st;
  collapsed := collapsed st; query := query st; editingGroup := editingGroup
  st; groupDraft := groupDraft st; editingDimIndex := v; dimDraft := dimDraft
  st; editingNodeId := editingNodeId st; nodeDraft := nodeDraft st; changeLog
  := changeLog st; justApplied := justApplied st; deleteDialog := deleteDialog
  st; reassignTargetId := reassignTargetId st; drag := drag st; dropTargetId
  := dropTargetId st; overlay := overlay st |}.
Definition setDimDraft (v : jsstring) (st : AppState) : AppState :=
  {| committedAt := committedAt st; committedGroupName := committedGroupName
  st; activeTab := activeTab st; groupName := groupName st; dims := dims st;
  forest := forest st; selectedId := selectedId st; panelOpen := panelOpen st;
  collapsed := collapsed st; query := query st; editingGroup := editingGroup
  st; groupDraft := groupDraft st; editingDimIndex := editingDimIndex st;
  dimDraft := v; editingNodeId := editingNodeId st; nodeDraft := nodeDraft st;
  changeLog := changeLog st; justApplied := justApplied st; deleteDialog :=
  deleteDialog st; reassignTargetId := reassignTargetId st; drag := drag st;
  dropTargetId := dropTargetId st; overlay := overlay st |}.
Definition setEditingNodeId (v : option jsstring) (st : AppState) : AppState :=
  {| committedAt := committedAt st; committedGroupName := committedGroupName
  st; activeTab := activeTab st; groupName := groupName st; dims := dims st;
  forest := forest st; selectedId := selectedId st; panelOpen := panelOpen st;
  collapsed := collapsed st; query := query st; editingGroup := editingGroup
  st; groupDraft := groupDraft st; editingDimIndex := editingDimIndex st;
  dimDraft := dimDraft st; editingNodeId := v; nodeDraft := nodeDraft st;
  changeLog := changeLog st; justApplied := justApplied st; deleteDialog :=
  deleteDialog st; reassignTargetId := reassignTargetId st; drag := drag st;
  dropTargetId := dropTargetId st; overlay := overlay st |}.
Definition setNodeDraft (v : jsstring) (st : AppState) : AppState :=
  {| committedAt := committedAt st; committedGroupName := committedGroupName
  st; activeTab := activeTab st; groupName := groupName st; dims := dims st;
  forest := forest st; selectedId := selectedId st; panelOpen := panelOpen st;
  collapsed := collapsed st; query := query st; editingGroup := editingGroup
  st; groupDraft := groupDraft st; editingDimIndex := editingDimIndex st;
  dimDraft := dimDraft st; editingNodeId := editingNodeId st; nodeDraft := v;
  changeLog := changeLog st; justApplied := justApplied st; deleteDialog :=
  deleteDialog st; reassignTargetId := reassignTargetId st; drag := drag st;
  dropTargetId := dropTargetId st; overlay := overlay st |}.
Definition setChangeLog (v : list ChangeLogItem) (st : AppState) : AppState :=
  {| committedAt := committedAt st; committedGroupName := committedGroupName
  st; activeTab := activeTab st; groupName := groupName st; dims := dims st;
  forest := forest st; selectedId := selectedId st; panelOpen := panelOpen st;
  collapsed := collapsed st; query := query st; editingGroup := editingGroup
  st; groupDraft := groupDraft st; editingDimIndex := editingDimIndex st;
  dimDraft := dimDraft st; editingNodeId := editingNodeId st; nodeDraft :=
  nodeDraft st; changeLog := v; justApplied := justApplied st; deleteDialog :=
  deleteDialog st; reassignTargetId := reassignTargetId st; drag := drag st;
  dropTargetId := dropTargetId st; overlay := overlay st |}.
Definition setJustApplied (v : bool) (st : AppState) : AppState :=
  {| committedAt := committedAt st; committedGroupName := committedGroupName
  st; activeTab := activeTab st; groupName := groupName st; dims := dims st;
  forest := forest st; selectedId := selectedId st; panelOpen := panelOpen st;
  collapsed := collapsed st; query := query st; editingGroup := editingGroup
  st; groupDraft := groupDraft st; editingDimIndex := editingDimIndex st;
  dimDraft := dimDraft st; editingNodeId := editingNodeId st; nodeDraft :=
  nodeDraft st; changeLog := changeLog st; justApplied := v; deleteDialog :=
  deleteDialog st; reassignTargetId := reassignTargetId st; drag := drag st;
  dropTargetId := dropTargetId st; overlay := overlay st |}.
Definition setDeleteDialog (v : DeleteDialog) (st : AppState) : AppState :=
  {| committedAt := committedAt st; committedGroupName := committedGroupName
  st; activeTab := activeTab st; groupName := groupName st; dims := dims st;
  forest := forest st; selectedId := selectedId st; panelOpen := panelOpen st;
  collapsed := collapsed st; query := query st; editingGroup := editingGroup
  st; groupDraft := groupDraft st; editingDimIndex := editingDimIndex st;
  dimDraft := dimDraft st; editingNodeId := editingNodeId st; nodeDraft :=
  nodeDraft st; changeLog := changeLog st; justApplied := justApplied st;
  deleteDialog := v; reassignTargetId := reassignTargetId st; drag := drag st;
  dropTargetId := dropTargetId st; overlay := overlay st |}.
Definition setReassignTargetId (v : option jsstring) (st : AppState) : AppState :=
  {| committedAt := committedAt st; committedGroupName := committedGroupName
  st; activeTab := activeTab st; groupName := groupName st; dims := dims st;
  forest := forest st; selectedId := selectedId st; panelOpen := panelOpen st;
  collapsed := collapsed st; query := query st; editingGroup := editingGroup
  st; groupDraft := groupDraft st; editingDimIndex := editingDimIndex st;
  dimDraft := dimDraft st; editingNodeId := editingNodeId st; nodeDraft :=
  nodeDraft st; changeLog := changeLog st; justApplied := justApplied st;
  deleteDialog := deleteDialog st; reassignTargetId := v; drag := drag st;
  dropTargetId := dropTargetId st; overlay := overlay st |}.
Definition setDrag (v : option DragState) (st : AppState) : AppState :=
  {| committedAt := committedAt st; committedGroupName := committedGroupName
  st; activeTab := activeTab st; groupName := groupName st; dims := dims st;
  forest := forest st; selectedId := selectedId st; panelOpen := panelOpen st;
  collapsed := collapsed st; query := query st; editingGroup := editingGroup
  st; groupDraft := groupDraft st; editingDimIndex := editingDimIndex st;
  dimDraft := dimDraft st; editingNodeId := editingNodeId st; nodeDraft :=
  nodeDraft st; changeLog := changeLog st; justApplied := justApplied st;
  deleteDialog := deleteDialog st; reassignTargetId := reassignTargetId st;
  drag := v; dropTargetId := dropTargetId st; overlay := overlay st |}.
Definition setDropTargetId (v : option jsstring) (st : AppState) : AppState :=
  {| committedAt := committedAt st; committedGroupName := committedGroupName
  st; activeTab := activeTab st; groupName := groupName st; dims := dims st;
  forest := forest st; selectedId := selectedId st; panelOpen := panelOpen st;
  collapsed := collapsed st; query := query st; editingGroup := editingGroup
  st; groupDraft := groupDraft st; editingDimIndex := editingDimIndex st;
  dimDraft := dimDraft st; editingNodeId := editingNodeId st; nodeDraft :=
  nodeDraft st; changeLog := changeLog st; justApplied := justApplied st;
  deleteDialog := deleteDialog st; reassignTargetId := reassignTargetId st;
  drag := drag st; dropTargetId := v; overlay := overlay st |}.
Definition setOverlay (v : option OverlayState) (st : AppState) : AppState :=
  {| committedAt := committedAt st; committedGroupName := committedGroupName
  st; activeTab := activeTab st; groupName := groupName st; dims := dims st;
  forest := forest st; selectedId := selectedId st; panelOpen := panelOpen st;
  collapsed := collapsed st; query := query st; editingGroup := editingGroup
  st; groupDraft := groupDraft st; editingDimIndex := editingDimIndex st;
  dimDraft := dimDraft st; editingNodeId := editingNodeId st; nodeDraft :=
  nodeDraft st; changeLog := changeLog st; justApplied := justApplied st;
  deleteDialog := deleteDialog st; reassignTargetId := reassignTargetId st;
  drag := drag st; dropTargetId := dropTargetId st; overlay := v |}.

(* ===================================================================== *)
(** ** Change ledger *)
(* ===================================================================== *)

(** [list.slice(-k)]: the last [k] elements, the whole list when shorter. *)
Definition sliceLast {A} (k : nat) (l : list A) : list A :=
  drop (length l - k) l.

(** [addChange]; [newId] is the value of [uid()], [now] of [Date.now()]. *)
Definition addChange (newId : jsstring) (now : Z) (text : jsstring) (st : AppState)
  : AppState :=
  setChangeLog (sliceLast 80 (changeLog st ++ [mkItem newId now text])) st.

Definition hasPendingChanges (st : AppState) : bool :=
  bool_decide (0 < length (changeLog st)).

(** [applyChanges]; the timer that later resets [justApplied] is not part of
    the handler's own step. *)
Definition applyChanges (now : Z) (st : AppState) : AppState :=
  setJustApplied true
    (setChangeLog []
       (setCommittedGroupName (groupName st)
          (setCommittedAt now st))).

(* ===================================================================== *)
(** ** Renaming *)
(* ===================================================================== *)

Definition startRenameGroup (st : AppState) : AppState :=
  setGroupDraft (groupName st) (setEditingGroup true st).

Definition startRenameDim (index : nat) (st : AppState) : AppState :=
  setDimDraft (default [] (dims st !! index)) (setEditingDimIndex (Some index) st).

(** [`Переименован элемент: "${prevName}" → "${next}"`] *)
Definition renamedSummary (prevName next : jsstring) : jsstring :=
  [1055; 1077; 1088; 1077; 1080; 1084; 1077; 1085; 1086; 1074; 1072; 1085; 32;
   1101; 1083; 1077; 1084; 1077; 1085; 1090; 58; 32; 34]%N
  ++ prevName ++ [34; 32; 8594; 32; 34]%N ++ next ++ [34]%N.

Definition commitRenameNode (newId : jsstring) (now : Z) (st : AppState) : AppState :=
  let next := trim (nodeDraft st) in
  if falsy next || falsyOpt (editingNodeId st) then st
  else
    let eid := default [] (editingNodeId st) in
    let prevName := nameOf (forest st) eid in
    let updated := forest st in
    match node (findNodeAndParent updated eid) with
    | None => st
    | Some r =>
        addChange newId now (renamedSummary prevName next)
          (setNodeDraft []
             (setEditingNodeId None
                (setForest (updateAt (fun n => setName n next) r updated) st)))
    end.

Definition cancelRenameNode (st : AppState) : AppState :=
  setNodeDraft [] (setEditingNodeId None st).

(* ===================================================================== *)
(** ** Deletion *)
(* ===================================================================== *)

Definition requestDeleteNode (nodeId : jsstring) (st : AppState) : AppState :=
  setReassignTargetId None (setDeleteDialog (mkDialog true (Some nodeId)) st).

Definition closeDeleteDialog (st : AppState) : AppState :=
  setReassignTargetId None (setDeleteDialog (mkDialog false None) st).

(** The tail shared by both deletion handlers: with [parent] the enclosing
    object of the node found in [updated], either splice the node out of the
    root array or filter it out of [parent.children]. *)
Definition removeFrom (updated : Forest) (nodeId : jsstring) : Forest :=
  match parent (findNodeAndParent updated nodeId) with
  | None =>
      match list_find (fun n => id n = nodeId) updated with
      | Some (idx, _) => delete idx updated
      | None => updated
      end
  | Some p =>
      updateAt
        (fun par => setChildren par (filter (fun c => id c ≠ nodeId) (children par)))
        p updated
  end.

(** [`Удалён элемент "${nodeName}" (вместе с дочерними)`] *)
Definition cascadeSummary (nodeName : jsstring) : jsstring :=
  [1059; 1076; 1072; 1083; 1105; 1085; 32; 1101; 1083; 1077; 1084; 1077; 1085;
   1090; 32; 34]%N
  ++ nodeName
  ++ [34; 32; 40; 1074; 1084; 1077; 1089; 1090; 1077; 32; 1089; 32; 1076; 1086;
      1095; 1077; 1088; 1085; 1080; 1084; 1080; 41]%N.

Definition deleteNodeAndChildren (newId : jsstring) (now : Z) (nodeId : jsstring)
    (st : AppState) : AppState :=
  let nodeName := nameOf (forest st) nodeId in
  let updated := removeFrom (forest st) nodeId in
  let st1 := setForest updated st in
  let st2 := setCollapsed (collapsed st1 ∖ {[nodeId]}) st1 in
  let st3 :=
    if decide (selectedId st = Some nodeId)
    then setPanelOpen false (setSelectedId None st2) else st2 in
  let st4 :=
    if decide (editingNodeId st = Some nodeId)
    then setNodeDraft [] (setEditingNodeId None st3) else st3 in
  let st5 :=
    if decide (overlay_nodeId <$> overlay st = Some nodeId)
    then setOverlay None st4 else st4 in
  addChange newId now (cascadeSummary nodeName) st5.

Definition confirmDeleteWithChildren (newId : jsstring) (now : Z) (st : AppState)
  : AppState :=
  if falsyOpt (dialog_nodeId (deleteDialog st)) then st
  else
    closeDeleteDialog
      (deleteNodeAndChildren newId now (default [] (dialog_nodeId (deleteDialog st))) st).

(** [`Удалён элемент "${nodeName}" с перевесом детей на "${targetName}"`] *)
Definition reassignSummary (nodeName targetName : jsstring) : jsstring :=
  [1059; 1076; 1072; 1083; 1105; 1085; 32; 1101; 1083; 1077; 1084; 1077; 1085;
   1090; 32; 34]%N
  ++ nodeName
  ++ [34; 32; 1089; 32; 1087; 1077; 1088; 1077; 1074; 1077; 1089; 1086; 1084; 32;
      1076; 1077; 1090; 1077; 1081; 32; 1085; 1072; 32; 34]%N
  ++ targetName ++ [34]%N.

(** [confirmReassignChildren].  The children pushed onto the target stay
    shared with the node being deleted until that node is dropped from the
    forest; the node found again after the push is the one found before
    whenever its id occurs once, so the sharing is never observed on a
    forest with unique ids. *)
Definition confirmReassignChildren (newId : jsstring) (now : Z) (st : AppState)
  : AppState :=
  if falsyOpt (dialog_nodeId (deleteDialog st)) || falsyOpt (reassignTargetId st)
  then st
  else
    let nodeId := default [] (dialog_nodeId (deleteDialog st)) in
    let targetId := default [] (reassignTargetId st) in
    if bool_decide (targetId = nodeId) || isDescendant (forest st) nodeId targetId
    then st
    else
      let nodeName := nameOf (forest st) nodeId in
      let targetName := nameOf (forest st) targetId in
      let updated := forest st in
      match node (findNodeAndParent updated nodeId) ≫= deref updated,
            node (findNodeAndParent updated targetId) with
      | Some n, Some target =>
          let pushed := updateAt (pushChildren (children n)) target updated in
          let removed := removeFrom pushed nodeId in
          addChange newId now (reassignSummary nodeName targetName)
            (closeDeleteDialog (setForest removed st))
      | _, _ => st
      end.

(* ===================================================================== *)
(** ** Drag controller *)
(* ===================================================================== *)

Definition expandNode (nodeId : jsstring) (st : AppState) : AppState :=
  if decide (nodeId ∈ collapsed st) then setCollapsed (collapsed st ∖ {[nodeId]}) st
  else st.

(** [startDrag(nodeId, e)] with [e.clientX], [e.clientY]. *)
Definition startDrag (nodeId : jsstring) (clientX clientY : Q) (st : AppState)
  : AppState :=
  if negb (falsyOpt (editingNodeId st)) || dialog_open (deleteDialog st) then st
  else
    setDropTargetId None
      (setDrag (Some (mkDrag nodeId clientX clientY))
         (setPanelOpen false (setOverlay None st))).

(** [`Перемещён элемент "${fromName}" → в дочерние к "${toName}"`] *)
Definition movedSummary (fromName toName : jsstring) : jsstring :=
  [1055; 1077; 1088; 1077; 1084; 1077; 1097; 1105; 1085; 32; 1101; 1083; 1077;
   1084; 1077; 1085; 1090; 32; 34]%N
  ++ fromName
  ++ [34; 32; 8594; 32; 1074; 32; 1076; 1086; 1095; 1077; 1088; 1085; 1080; 1077;
      32; 1082; 32; 34]%N
  ++ toName ++ [34]%N.

Definition finishDrag (newId : jsstring) (now : Z)
    (finalDropTargetId : option jsstring) (dragging : jsstring) (st : AppState)
  : AppState :=
  if falsyOpt finalDropTargetId then setDropTargetId None (setDrag None st)
  else
    let targetId := default [] finalDropTargetId in
    let fromName := nameOf (forest st) dragging in
    let toName := nameOf (forest st) targetId in
    let res := moveNodeAsChild (forest st) dragging targetId in
    let st1 :=
      if res.2 then
        addChange newId now (movedSummary fromName toName)
          (setSelectedId (Some dragging)
             (expandNode targetId (setForest res.1 st)))
      else st in
    setDropTargetId None (setDrag None st1).

(** The two states of the reparent controller. *)
Definition isIdle (st : AppState) : Prop := drag st = None.
Definition isDragging (st : AppState) : Prop := is_Some (drag st).

(* ===================================================================== *)
(** ** Vocabulary of the statements *)
(* ===================================================================== *)

(** *** Ids, descendants, depth, leaves *)

(** The ids of a forest in traversal order, and as a set. *)
Definition forestIds (forest : Forest) : list jsstring := id <$> flattenForest forest.
Definition nodeIds (n : TreeNode) : list jsstring := id <$> flattenNode n.
Definition idSet (forest : Forest) : gset jsstring := list_to_set (forestIds forest).

(** The data model's invariant on ids: they are pairwise distinct. *)
Definition uniqueIds (forest : Forest) : Prop := NoDup (forestIds forest).

#[global] Instance uniqueIds_dec (F : Forest) : Decision (uniqueIds F).
Proof. unfold uniqueIds. apply _. Defined.

(** How many nodes of a forest carry an id. *)
Definition occurrences (x : jsstring) (forest : Forest) : nat :=
  length (filter (fun z => z = x) (forestIds forest)).

(** Ids and names in traversal order. *)
Definition labels (forest : Forest) : list (jsstring * jsstring) :=
  (fun k => (id k, name k)) <$> flattenForest forest.

(** The strict descendants of a node. *)
Definition descendants (n : TreeNode) : list TreeNode := flattenForest (children n).

(** Nodes paired with their depth below a forest whose roots sit at [d]. *)
Fixpoint withDepthNode (d : nat) (n : TreeNode) : list (nat * TreeNode) :=
  (d, n) :: (children n ≫= withDepthNode (S d)).

Definition withDepth (d : nat) (forest : Forest) : list (nat * TreeNode) :=
  forest ≫= withDepthNode d.

Definition isLeaf (n : TreeNode) : bool :=
  match children n with [] => true | _ => false end.

(** The leaves of a forest in traversal order. *)
Definition leaves (forest : Forest) : list TreeNode :=
  filter (fun n => isLeaf n = true) (flattenForest forest).

Definition leafCount (forest : Forest) : nat := length (leaves forest).

(** The arithmetic mean of a non-empty list of rationals. *)
Definition arithmeticMean (ys : list Q) : Q :=
  (foldr Qplus 0 ys / inject_Z (Z.of_nat (length ys)))%Q.

(** The rational that a finite number holds, in lowest terms. *)
Definition valueOf (x : number) : option Q :=
  match x with
  | S754_zero _ => Some 0%Q
  | S754_finite s m e =>
      let mz := if s then Zneg m else Zpos m in
      Some (Qred match e with
                 | Z0 => inject_Z mz
                 | Zpos k => inject_Z (mz * 2 ^ Zpos k)
                 | Zneg k => Qmake mz (2 ^ k)%positive
                 end)
  | _ => None
  end.

(** The mean as the code computes it on numbers: the sum from the left,
    starting from 0, divided by the count, every operation rounded. *)
Definition roundedMean (ys : list number) : number :=
  numDiv (foldl numAdd (numOfNat 0) ys) (numOfNat (length ys)).

(** [q] with [k] binary zeros appended. *)
Definition shiftn (q : positive) (k : nat) : positive := Nat.iter k xO q.

(** The number that holds a positive integer below 2^53. *)
Definition normalOf (p : positive) : number :=
  S754_finite false (shiftn p (Z.to_nat (53 - Zpos (digits2_pos p))))
    (Zpos (digits2_pos p) - 53).

(** *** The two deletions, said directly on trees *)

(** Removing every node that carries [nodeId], subtree included. *)
Section PruneLoop.
Variable nodeId : jsstring.
Variable below : TreeNode → TreeNode.

Fixpoint pruneLoop (nodes : list TreeNode) : list TreeNode :=
  match nodes with
  | [] => []
  | c :: rest =>
      if decide (id c = nodeId) then pruneLoop rest
      else below c :: pruneLoop rest
  end.
End PruneLoop.

Fixpoint pruneNode (nodeId : jsstring) (n : TreeNode) : TreeNode :=
  setChildren n (pruneLoop nodeId (pruneNode nodeId) (children n)).

Definition prune (nodeId : jsstring) (forest : Forest) : Forest :=
  pruneLoop nodeId (pruneNode nodeId) forest.

(** Appending [cs] to the children of every node that carries [targetId]. *)
Fixpoint graftNode (targetId : jsstring) (cs : list TreeNode) (n : TreeNode) : TreeNode :=
  setChildren n
    ((graftNode targetId cs <$> children n)
     ++ (if decide (id n = targetId) then cs else [])).

Definition graft (targetId : jsstring) (cs : list TreeNode) (forest : Forest) : Forest :=
  graftNode targetId cs <$> forest.

(** What [removeFrom] does at reference [r] agrees with [prune]. *)
Definition removalAgrees (x : jsstring) (F : Forest) (r : ref) : Prop :=
  match r with
  | [] => False
  | [i] =>
      (∃ m, list_find (λ n, id n = x) F = Some (i, m)) ∧
      delete i F = prune x F ∧
      filter (λ c, id c ≠ x) F = prune x F
  | _ =>
      updateAt (λ par, setChildren par (filter (λ c, id c ≠ x) (children par)))
        (removelast r) F = prune x F
  end.

(** *** What a layout of a forest is

    [laidOutAll pos lvl c nodes ys]: in [pos] the trees [nodes], whose roots
    are at level [lvl], are placed with the leaf counter starting at [c], and
    [ys] are the ordinates of their roots. *)

Inductive laidOut (pos : gmap jsstring Pos) : nat → nat → TreeNode → number → Prop :=
  | laidOut_leaf lvl c n :
      children n = [] →
      pos !! id n = Some (mkPos lvl (numOfNat c)) →
      laidOut pos lvl c n (numOfNat c)
  | laidOut_inner lvl c n ys :
      children n ≠ [] →
      laidOutAll pos (S lvl) c (children n) ys →
      pos !! id n = Some (mkPos lvl (meanY ys)) →
      laidOut pos lvl c n (meanY ys)
with laidOutAll (pos : gmap jsstring Pos)
  : nat → nat → list TreeNode → list number → Prop :=
  | laidOutAll_nil lvl c : laidOutAll pos lvl c [] []
  | laidOutAll_cons lvl c n rest y0 ys :
      laidOut pos lvl c n y0 →
      laidOutAll pos lvl (c + leafCount [n]) rest ys →
      laidOutAll pos lvl c (n :: rest) (y0 :: ys).

(** *** States of the controller and of the ledger *)

(** A rename is in progress: of a node, of a dimension label or of the group. *)
Definition renameInProgress (st : AppState) : Prop :=
  is_Some (editingNodeId st) ∨ is_Some (editingDimIndex st) ∨ editingGroup st = true.

(** The delete dialog is the application's one modal. *)
Definition modalOpen (st : AppState) : Prop := dialog_open (deleteDialog st) = true.

(** The handlers modelled above, as the steps of a run. *)
Inductive handlerStep : AppState → AppState → Prop :=
  | step_addChange newId now text st :
      handlerStep st (addChange newId now text st)
  | step_applyChanges now st :
      handlerStep st (applyChanges now st)
  | step_startRenameGroup st :
      handlerStep st (startRenameGroup st)
  | step_startRenameDim index st :
      handlerStep st (startRenameDim index st)
  | step_commitRenameNode newId now st :
      handlerStep st (commitRenameNode newId now st)
  | step_cancelRenameNode st :
      handlerStep st (cancelRenameNode st)
  | step_requestDeleteNode nodeId st :
      handlerStep st (requestDeleteNode nodeId st)
  | step_closeDeleteDialog st :
      handlerStep st (closeDeleteDialog st)
  | step_confirmDeleteWithChildren newId now st :
      handlerStep st (confirmDeleteWithChildren newId now st)
  | step_confirmReassignChildren newId now st :
      handlerStep st (confirmReassignChildren newId now st)
  | step_startDrag nodeId clientX clientY st :
      handlerStep st (startDrag nodeId clientX clientY st)
  | step_finishDrag newId now target dragging st :
      handlerStep st (finishDrag newId now target dragging st).

(* ===================================================================== *)
(** ** Sample data *)
(* ===================================================================== *)

Definition leaf (i : String.string) : TreeNode := mkNode (js i) (js i) [].
Definition inner (i : String.string) (cs : list TreeNode) : TreeNode :=
  mkNode (js i) (js i) cs.
Arguments leaf i%_string.
Arguments inner i%_string cs.

(** The forest [A[B, C]], [D] of the scenarios. *)
Definition sampleForest : Forest :=
  [inner "A" [leaf "B"; leaf "C"]; leaf "D"].

Definition sampleState : AppState :=
  {| committedAt := 0; committedGroupName := js "Region"; activeTab := js "Region";
     groupName := js "Region"; dims := [js "Region"; js "City"];
     forest := sampleForest; selectedId := None; panelOpen := false;
     collapsed := ∅; query := []; editingGroup := false; groupDraft := js "Region";
     editingDimIndex := None; dimDraft := []; editingNodeId := None; nodeDraft := [];
     changeLog := []; justApplied := false; deleteDialog := mkDialog false None;
     reassignTargetId := None; drag := None; dropTargetId := None; overlay := None |}.

(** The delete dialog open on [A]. *)
Definition dialogOnA : AppState :=
  setDeleteDialog (mkDialog true (Some (js "A"))) sampleState.

(** The delete dialog open on [A] with its child [B] picked as the new parent. *)
Definition reassignOntoChild : AppState :=
  setReassignTargetId (Some (js "B")) dialogOnA.

(** The delete dialog open on [A] with the root [D] picked as the new parent. *)
Definition reassignOntoD : AppState :=
  setReassignTargetId (Some (js "D")) (requestDeleteNode (js "A") sampleState).

(** [A] selected and hovered (its action overlay is shown), the delete dialog
    opened on it from the overlay, and [D] picked as the new parent. *)
Definition deletingSelectedA : AppState :=
  setReassignTargetId (Some (js "D"))
    (requestDeleteNode (js "A")
       (setOverlay (Some (mkOverlay (js "A") (mkRect 12 44 190 36)))
          (setPanelOpen true (setSelectedId (Some (js "A")) sampleState)))).

(** [B] selected and being renamed, the delete dialog opened on its parent [A]. *)
Definition deletingParentOfSelected : AppState :=
  requestDeleteNode (js "A")
    (setNodeDraft (js "B2")
       (setEditingNodeId (Some (js "B"))
          (setPanelOpen true (setSelectedId (Some (js "B")) sampleState)))).

(** The node [B] being renamed, with nothing but blanks typed so far. *)
Definition blankDraft : AppState :=
  setNodeDraft (js "  ") (setEditingNodeId (Some (js "B")) sampleState).

(** A ledger at the cap: eighty entries stamped 0 to 79. *)
Definition fullLedger : list ChangeLogItem :=
  (fun k => mkItem (js "e") (Z.of_nat k) (js "s")) <$> seq 0 80.

(** Canonicalize restricted to ASCII, for the examples. *)
Definition asciiUpper (c : N) : N :=
  if ((97 <=? c) && (c <=? 122))%N then (c - 32)%N else c.

(** Closed goals over sample data are settled by evaluation. *)
Ltac by_evaluation :=
  lazymatch goal with
  | |- ?P => refine (@bool_decide_unpack P _ _); vm_compute; exact I
  end.

(* ===================================================================== *)
(** ** Further functions of the source *)
(* ===================================================================== *)

Definition setActiveTab (v : jsstring) (st : AppState) : AppState :=
  {| committedAt := committedAt st; committedGroupName := committedGroupName st;
     activeTab := v; groupName := groupName st; dims := dims st;
     forest := forest st; selectedId := selectedId st; panelOpen := panelOpen st;
     collapsed := collapsed st; query := query st; editingGroup := editingGroup st;
     groupDraft := groupDraft st; editingDimIndex := editingDimIndex st;
     dimDraft := dimDraft st; editingNodeId := editingNodeId st;
     nodeDraft := nodeDraft st; changeLog := changeLog st;
     justApplied := justApplied st; deleteDialog := deleteDialog st;
     reassignTargetId := reassignTargetId st; drag := drag st;
     dropTargetId := dropTargetId st; overlay := overlay st |}.

(** *** [uniqueName] *)

(** [`${base} ${i}`], the number in decimal. *)
Definition numbered (base : jsstring) (i : nat) : jsstring :=
  base ++ js " " ++ js (pretty i).

(** The [while] loop of [uniqueName], run for at most [fuel] tests. *)
Fixpoint uniqueNameLoop (fuel : nat) (base : jsstring) (taken : gset jsstring) (i : nat)
  : option jsstring :=
  match fuel with
  | 0 => None
  | S fuel' =>
      if decide (numbered base i ∈ taken) then uniqueNameLoop fuel' base taken (S i)
      else Some (numbered base i)
  end.

(** [uniqueName].  The loop is given one test more than [taken] has elements,
    which is enough for it to end (see [uniqueNameLoop_ends]); the [None]
    branch is never taken. *)
Definition uniqueName (base : jsstring) (taken : gset jsstring) : jsstring :=
  if decide (base ∈ taken) then
    match uniqueNameLoop (S (size taken)) base taken 2 with
    | Some fresh => fresh
    | None => base
    end
  else base.

(** *** The traversal [nodes.forEach((n) => { ...; if (n.children?.length) dfs(n.children) })]

    [visit] is what the body does to the value being built before it goes
    down into the children. *)
Section VisitLoop.
Context {A : Type}.
Variable visit : TreeNode → A → A.
Variable inChildren : TreeNode → A → A.

Fixpoint visitLoop (nodes : list TreeNode) (acc : A) : A :=
  match nodes with
  | [] => acc
  | n :: rest => visitLoop rest (inChildren n (visit n acc))
  end.
End VisitLoop.

Fixpoint visitBelow {A : Type} (visit : TreeNode → A → A) (n : TreeNode) (acc : A) : A :=
  visitLoop visit (visitBelow visit) (children n) acc.

Definition visitForest {A : Type} (visit : TreeNode → A → A) (forest : Forest) (acc : A) : A :=
  visitLoop visit (visitBelow visit) forest acc.

(** *** [maxLevel] *)

Section MaxLevelLoop.
(** What [n.children?.length && dfs(n.children, level + 1)] does to [m]. *)
Variable inChildren : TreeNode → nat → nat.

Fixpoint maxLevelLoop (nodes : list TreeNode) (m : nat) : nat :=
  match nodes with
  | [] => m
  | n :: rest => maxLevelLoop rest (inChildren n m)
  end.
End MaxLevelLoop.

Fixpoint maxLevelBelow (lvl : nat) (n : TreeNode) (m : nat) : nat :=
  match children n with
  | [] => m
  | _ :: _ => maxLevelLoop (maxLevelBelow (S lvl)) (children n) (Nat.max m (S lvl))
  end.

Definition maxLevel (forest : Forest) : nat :=
  maxLevelLoop (maxLevelBelow 0) forest (Nat.max 0 0).

(** *** [getPathToNode] *)

Section PathLoop.
Variable target : jsstring.
(** [n.children?.length && dfs(n.children)] with the stack it leaves. *)
Variable inChildren : TreeNode → list TreeNode → bool * list TreeNode.

Fixpoint pathLoop (nodes : list TreeNode) (path : list TreeNode)
  : bool * list TreeNode :=
  match nodes with
  | [] => (false, path)
  | n :: rest =>
      let pushed := path ++ [n] in
      if decide (id n = target) then (true, pushed)
      else
        let '(found, path1) := inChildren n pushed in
        if found then (true, path1)
        else pathLoop rest (removelast path1)
  end.
End PathLoop.

Fixpoint pathBelow (target : jsstring) (n : TreeNode) (path : list TreeNode)
  : bool * list TreeNode :=
  pathLoop target (pathBelow target) (children n) path.

Definition getPathToNode (forest : Forest) (target : jsstring) : list TreeNode :=
  (pathLoop target (pathBelow target) forest []).2.

(** *** [listNodeOptions] and the memoised [reassignOptions] *)

(** [type NodeOption = { id: string; label: string }] *)
Record NodeOption : Type := mkOption { option_id : jsstring; option_label : jsstring }.

(** [parts.join(sep)] *)
Fixpoint joinWith (sep : jsstring) (parts : list jsstring) : jsstring :=
  match parts with
  | [] => []
  | [p] => p
  | p :: rest => p ++ sep ++ joinWith sep rest
  end.

(** The option pushed for node [n]; [dims[level]] out of range is [undefined],
    which the template treats like the empty string. *)
Definition nodeOption (forest : Forest) (dimLabels : list jsstring)
    (pos : gmap jsstring Pos) (n : TreeNode) : NodeOption :=
  let dim :=
    match pos !! id n with
    | Some p => default [] (dimLabels !! level p)
    | None => []
    end in
  let path := joinWith [32; 8594; 32]%N (name <$> getPathToNode forest (id n)) in
  mkOption (id n)
    ((if falsy dim then [] else dim ++ js ": ") ++ name n ++ [32; 8212; 32]%N ++ path).

Definition listNodeOptions (forest : Forest) (dimLabels : list jsstring)
    (pos : gmap jsstring Pos) (excludeId : jsstring) : list NodeOption :=
  visitForest
    (fun n out =>
       if decide (id n ≠ excludeId) then out ++ [nodeOption forest dimLabels pos n]
       else out)
    forest [].

(** [posFull] *)
Definition posFull (st : AppState) : gmap jsstring Pos := layoutForest (forest st).

Definition reassignOptions (st : AppState) : list NodeOption :=
  if falsyOpt (dialog_nodeId (deleteDialog st)) then []
  else
    let nodeId := default [] (dialog_nodeId (deleteDialog st)) in
    filter (fun o => isDescendant (forest st) nodeId (option_id o) = false)
      (listNodeOptions (forest st) (dims st) (posFull st) nodeId).

(** *** The derived view *)

Definition visibleForest (st : AppState) : Forest :=
  buildVisibleForest (forest st) (collapsed st).

(** [depth] *)
Definition visibleDepth (st : AppState) : nat := maxLevel (visibleForest st).

(** The memoised [edges]. *)
Definition edgesOf (forest : Forest) : list (jsstring * jsstring) :=
  visitForest (fun n out => out ++ ((fun c => (id n, id c)) <$> children n)) forest [].

Definition edges (st : AppState) : list (jsstring * jsstring) :=
  edgesOf (visibleForest st).

(** *** Collapsing *)

Definition toggleCollapsed (nodeId : jsstring) (st : AppState) : AppState :=
  setCollapsed
    (if decide (nodeId ∈ collapsed st) then collapsed st ∖ {[nodeId]}
     else collapsed st ∪ {[nodeId]})
    st.

(** [posFull.get(n.id)?.level ?? 0] *)
Definition fullLevel (st : AppState) (n : TreeNode) : nat :=
  match posFull st !! id n with Some p => level p | None => 0 end.

Definition collapseToLevel (levelIndex : nat) (st : AppState) : AppState :=
  setCollapsed
    (visitForest
       (fun n ids => if decide (levelIndex ≤ fullLevel st n) then ids ∪ {[id n]} else ids)
       (forest st) ∅)
    st.

Definition expandFromLevel (levelIndex : nat) (st : AppState) : AppState :=
  setCollapsed
    (visitForest
       (fun n next => if decide (levelIndex ≤ fullLevel st n) then next ∖ {[id n]} else next)
       (forest st) (collapsed st))
    st.

(** *** Adding nodes *)

(** [`Добавлен дочерний элемент "${childName}" к "${parentName}"`] *)
Definition childAddedSummary (childName parentName : jsstring) : jsstring :=
  [1044; 1086; 1073; 1072; 1074; 1083; 1077; 1085; 32; 1076; 1086; 1095; 1077;
   1088; 1085; 1080; 1081; 32; 1101; 1083; 1077; 1084; 1077; 1085; 1090; 32; 34]%N
  ++ childName ++ [34; 32; 1082; 32; 34]%N ++ parentName ++ [34]%N.

(** ['Новый элемент'] *)
Definition newElementName : jsstring :=
  [1053; 1086; 1074; 1099; 1081; 32; 1101; 1083; 1077; 1084; 1077; 1085; 1090]%N.

(** [addChildRight]; [childId] and [entryId] are the two values of [uid()]. *)
Definition addChildRight (childId entryId : jsstring) (now : Z) (parentId : jsstring)
    (st : AppState) : AppState :=
  let updated := forest st in
  match node (findNodeAndParent updated parentId),
        node (findNodeAndParent updated parentId) ≫= deref updated with
  | Some r, Some par =>
      let childName := uniqueName newElementName (list_to_set (name <$> children par)) in
      let child := mkNode childId childName [] in
      let parentName := nameOf (forest st) parentId in
      addChange entryId now (childAddedSummary childName parentName)
        (setNodeDraft childName
           (setEditingNodeId (Some childId)
              (setPanelOpen true
                 (setSelectedId (Some childId)
                    (expandNode parentId
                       (setForest (updateAt (pushChildren [child]) r updated) st))))))
  | _, _ => st
  end.

(** [`Добавлен регион: "${name}"`] *)
Definition regionAddedSummary (name0 : jsstring) : jsstring :=
  [1044; 1086; 1073; 1072; 1074; 1083; 1077; 1085; 32; 1088; 1077; 1075; 1080;
   1086; 1085; 58; 32; 34]%N ++ name0 ++ [34]%N.

(** ['Новый регион'] *)
Definition newRegionName : jsstring :=
  [1053; 1086; 1074; 1099; 1081; 32; 1088; 1077; 1075; 1080; 1086; 1085]%N.

Definition addRegion (rootId entryId : jsstring) (now : Z) (st : AppState) : AppState :=
  let updated := forest st in
  let name0 := uniqueName newRegionName (list_to_set (name <$> updated)) in
  let root := mkNode rootId name0 [] in
  addChange entryId now (regionAddedSummary name0)
    (setNodeDraft name0
       (setEditingNodeId (Some rootId)
          (setPanelOpen true
             (setSelectedId (Some rootId)
                (setForest (updated ++ [root]) st))))).

(** *** Group and dimension labels *)

(** [`Переименована группа аналитик: "${prev}" → "${next}"`] *)
Definition groupRenamedSummary (prev next : jsstring) : jsstring :=
  [1055; 1077; 1088; 1077; 1080; 1084; 1077; 1085; 1086; 1074; 1072; 1085; 1072;
   32; 1075; 1088; 1091; 1087; 1087; 1072; 32; 1072; 1085; 1072; 1083; 1080; 1090;
   1080; 1082; 58; 32; 34]%N
  ++ prev ++ [34; 32; 8594; 32; 34]%N ++ next ++ [34]%N.

Definition commitRenameGroup (entryId : jsstring) (now : Z) (st : AppState) : AppState :=
  let next := trim (groupDraft st) in
  if falsy next then st
  else
    let prev := groupName st in
    let st1 := setGroupName next st in
    let st2 := if decide (activeTab st = groupName st) then setActiveTab next st1 else st1 in
    addChange entryId now (groupRenamedSummary prev next) (setEditingGroup false st2).

Definition cancelRenameGroup (st : AppState) : AppState :=
  setEditingGroup false (setGroupDraft (groupName st) st).

Definition cancelRenameDim (st : AppState) : AppState :=
  setDimDraft [] (setEditingDimIndex None st).

(** ['Новый уровень'] *)
Definition newLevelName : jsstring :=
  [1053; 1086; 1074; 1099; 1081; 32; 1091; 1088; 1086; 1074; 1077; 1085; 1100]%N.

(** [`${dims[index]}`]: a missing element prints as [undefined]. *)
Definition dimText (dimLabels : list jsstring) (index : nat) : jsstring :=
  default (js "undefined") (dimLabels !! index).

(** [updated.splice(at, 0, name)]: past the end the element is appended. *)
Definition spliceIn (at_ : nat) (name0 : jsstring) (l : list jsstring) : list jsstring :=
  take at_ l ++ name0 :: drop at_ l.

(** [`Добавлен уровень слева от "${dims[index]}": "${name}"`] *)
Definition levelAddedLeftSummary (beside name0 : jsstring) : jsstring :=
  [1044; 1086; 1073; 1072; 1074; 1083; 1077; 1085; 32; 1091; 1088; 1086; 1074;
   1077; 1085; 1100; 32; 1089; 1083; 1077; 1074; 1072; 32; 1086; 1090; 32; 34]%N
  ++ beside ++ [34; 58; 32; 34]%N ++ name0 ++ [34]%N.

(** [`Добавлен уровень справа от "${dims[index]}": "${name}"`] *)
Definition levelAddedRightSummary (beside name0 : jsstring) : jsstring :=
  [1044; 1086; 1073; 1072; 1074; 1083; 1077; 1085; 32; 1091; 1088; 1086; 1074;
   1077; 1085; 1100; 32; 1089; 1087; 1088; 1072; 1074; 1072; 32; 1086; 1090; 32; 34]%N
  ++ beside ++ [34; 58; 32; 34]%N ++ name0 ++ [34]%N.

Definition addDimLeft (entryId : jsstring) (now : Z) (index : nat) (st : AppState)
  : AppState :=
  let name0 := uniqueName newLevelName (list_to_set (dims st)) in
  addChange entryId now (levelAddedLeftSummary (dimText (dims st) index) name0)
    (setDimDraft name0
       (setEditingDimIndex (Some index)
          (setDims (spliceIn index name0 (dims st)) st))).

Definition addDimRight (entryId : jsstring) (now : Z) (index : nat) (st : AppState)
  : AppState :=
  let name0 := uniqueName newLevelName (list_to_set (dims st)) in
  addChange entryId now (levelAddedRightSummary (dimText (dims st) index) name0)
    (setDimDraft name0
       (setEditingDimIndex (Some (S index))
          (setDims (spliceIn (S index) name0 (dims st)) st))).

(** *** [runSanityTests]

    [true] when no test throws.  [idR], [idC] and [idR2] are the ids [uid()]
    gives to the nodes [R], [C] and [R2]. *)
Definition runSanityTests (canonicalize : N → N) (idR idC idR2 : jsstring) : bool :=
  let q := js "a+b" in
  let q2 := js "(a)[b]\c?^$" in
  let f := [mkNode idR (js "R") [mkNode idC (js "C") []]; mkNode idR2 (js "R2") []] in
  match newRegExp (escapeRegExp q) true, newRegExp (escapeRegExp q2) false with
  | Some re, Some re2 =>
      test canonicalize re (js "A+B") && test canonicalize re2 q2
      && (moveNodeAsChild f idR2 idR).2
  | _, _ => false
  end.

(** *** Vocabulary of the further statements *)

(** [findNodeAndParent(forest, x).parent] as a value. *)
Definition findParentNode (forest : Forest) (target : jsstring) : option TreeNode :=
  parent (findNodeAndParent forest target) ≫= deref forest.

(** The first element of a list that satisfies [P]. *)
Definition firstWith {A} (P : A → Prop) `{∀ x, Decision (P x)} (l : list A) : option A :=
  snd <$> list_find P l.

(** A chain of nodes from a root of the forest downwards, each the child of
    the one before. *)
Inductive chainFrom : Forest → list TreeNode → Prop :=
  | chainFrom_end n F : n ∈ F → chainFrom F [n]
  | chainFrom_step n F rest :
      n ∈ F → chainFrom (children n) rest → chainFrom F (n :: rest).

(** A node of the forest none of whose ancestors carries an id of [C]. *)
Inductive shown (C : gset jsstring) : Forest → TreeNode → Prop :=
  | shown_root n F : n ∈ F → shown C F n
  | shown_child p F n : p ∈ F → id p ∉ C → shown C (children p) n → shown C F n.

(** The forest cut off below depth [k]: the nodes at depth [k] lose their
    children. *)
Fixpoint cutBelow (k : nat) (F : Forest) : Forest :=
  match k with
  | 0 => (fun n => setChildren n []) <$> F
  | S k' => (fun n => setChildren n (cutBelow k' (children n))) <$> F
  end.

(** The outline of a forest: depth, id and name of every node, in traversal
    order, the roots being at depth [lvl]. *)
Definition outline (lvl : nat) (F : Forest) : list (nat * jsstring * jsstring) :=
  (fun p => (p.1, id p.2, name p.2)) <$> withDepth lvl F.

(** An outline entry with the name [nm] in place of its own when its id is
    [x]. *)
Definition relabel (x nm : jsstring) (t : nat * jsstring * jsstring)
  : nat * jsstring * jsstring :=
  if decide (t.1.2 = x) then (t.1.1, x, nm) else t.

(* ===================================================================== *)
(** * Properties *)
(* ===================================================================== *)

(** ** Induction on forests *)

Section ForestInduction.
Variable P : list TreeNode → Prop.
Hypothesis Hnil : P [].
Hypothesis Hcons : ∀ c rest, P (children c) → P rest → P (c :: rest).

Fixpoint children_ind (n : TreeNode) : P (children n) :=
  match n with
  | mkNode _ _ cs =>
      (fix go (l : list TreeNode) : P l :=
         match l with
         | [] => Hnil
         | c :: rest => Hcons c rest (children_ind c) (go rest)
         end) cs
  end.

Lemma forest_ind (F : list TreeNode) : P F.
Proof using Hnil Hcons.
  induction F as [|c rest IH]; [exact Hnil|].
  apply Hcons; [apply children_ind | exact IH].
Qed.
End ForestInduction.

(** ** Unfolding equations *)

Lemma flattenForest_cons c rest :
  flattenForest (c :: rest) = c :: flattenForest (children c) ++ flattenForest rest.
Proof. destruct c; reflexivity. Qed.

Lemma forestIds_cons c rest :
  forestIds (c :: rest) = id c :: forestIds (children c) ++ forestIds rest.
Proof.
  unfold forestIds. rewrite flattenForest_cons, fmap_cons, fmap_app. reflexivity.
Qed.

Lemma nodeIds_eq n : nodeIds n = id n :: forestIds (children n).
Proof. destruct n; reflexivity. Qed.

Lemma flattenNode_eq n : flattenNode n = n :: descendants n.
Proof. destruct n; reflexivity. Qed.

Lemma findRef_cons c rest t :
  findRef (c :: rest) t =
  if decide (id c = t) then Some [0]
  else match findRef (children c) t with
       | Some r => Some (0 :: r)
       | None => nextSibling <$> findRef rest t
       end.
Proof. destruct c; reflexivity. Qed.

Lemma prune_cons x c rest :
  prune x (c :: rest) =
  if decide (id c = x) then prune x rest
  else setChildren c (prune x (children c)) :: prune x rest.
Proof. destruct c; reflexivity. Qed.

Lemma graft_cons t cs c rest :
  graft t cs (c :: rest) =
  setChildren c (graft t cs (children c) ++ (if decide (id c = t) then cs else []))
  :: graft t cs rest.
Proof. destruct c; reflexivity. Qed.

Lemma withDepth_cons d c rest :
  withDepth d (c :: rest) = (d, c) :: withDepth (S d) (children c) ++ withDepth d rest.
Proof. destruct c; reflexivity. Qed.

Lemma carries_cons t c rest :
  existsb (carriesId t) (c :: rest) =
  (if decide (id c = t) then true else existsb (carriesId t) (children c))
  || existsb (carriesId t) rest.
Proof. destruct c; reflexivity. Qed.

Lemma buildVisible_cons (c : TreeNode) (rest : Forest) (ids1 : gset jsstring) :
  buildVisibleForest (c :: rest) ids1 =
  (if decide (id c ∈ ids1) then setChildren c []
   else setChildren c (buildVisibleForest (children c) ids1))
  :: buildVisibleForest rest ids1.
Proof. destruct c; reflexivity. Qed.

(** ** Ids and membership *)

Lemma elem_of_flatten_cons m c rest :
  m ∈ flattenForest (c :: rest) ↔
  m = c ∨ m ∈ flattenForest (children c) ∨ m ∈ flattenForest rest.
Proof. rewrite flattenForest_cons, elem_of_cons, elem_of_app. reflexivity. Qed.

Lemma elem_of_forestIds_cons x c rest :
  x ∈ forestIds (c :: rest) ↔
  x = id c ∨ x ∈ forestIds (children c) ∨ x ∈ forestIds rest.
Proof. rewrite forestIds_cons, elem_of_cons, elem_of_app. reflexivity. Qed.

Lemma elem_of_forestIds x F :
  x ∈ forestIds F ↔ ∃ m, m ∈ flattenForest F ∧ id m = x.
Proof.
  unfold forestIds. rewrite list_elem_of_fmap. split; intros (m & ? & ?); eauto.
Qed.

Lemma id_in_forestIds m F : m ∈ flattenForest F → id m ∈ forestIds F.
Proof. intros. apply elem_of_forestIds. eauto. Qed.

(** The subtree of a node of the forest lies inside the forest. *)
Lemma descendants_in_forest F :
  ∀ m k, m ∈ flattenForest F → k ∈ descendants m → k ∈ flattenForest F.
Proof.
  induction F as [|c rest IHc IHr] using forest_ind; intros m k Hm Hk.
  - inversion Hm.
  - apply elem_of_flatten_cons in Hm. apply elem_of_flatten_cons.
    destruct Hm as [-> | [Hm | Hm]]; [right; left; exact Hk | |]; eauto.
Qed.

Lemma descendant_ids_in_forest F m :
  m ∈ flattenForest F → forestIds (children m) ⊆ forestIds F.
Proof.
  intros Hm x Hx. apply elem_of_forestIds in Hx as (k & Hk & <-).
  apply id_in_forestIds. eapply descendants_in_forest; eauto.
Qed.

Lemma NoDup_fmap_eq {A B} (f : A → B) (l : list A) x z :
  NoDup (f <$> l) → x ∈ l → z ∈ l → f x = f z → x = z.
Proof.
  induction l as [|a l IH]; intros Hnd Hx Hz Heq; [inversion Hx|].
  rewrite fmap_cons in Hnd. apply NoDup_cons in Hnd as [Hna Hnd].
  apply elem_of_cons in Hx as [->|Hx]; apply elem_of_cons in Hz as [->|Hz]; auto.
  - exfalso. apply Hna. rewrite Heq. apply list_elem_of_fmap. eauto.
  - exfalso. apply Hna. rewrite <- Heq. apply list_elem_of_fmap. eauto.
Qed.

Lemma uniqueIds_cons c rest :
  uniqueIds (c :: rest) ↔
  (id c ∉ forestIds (children c)) ∧ (id c ∉ forestIds rest) ∧
  uniqueIds (children c) ∧ uniqueIds rest ∧
  (∀ x, x ∈ forestIds (children c) → x ∉ forestIds rest).
Proof.
  unfold uniqueIds. rewrite forestIds_cons, NoDup_cons, NoDup_app, not_elem_of_app.
  tauto.
Qed.

(** ** [findNodeAndParent] finds the first node carrying the id *)

Lemma deref_nextSibling c rest r : deref (c :: rest) (nextSibling r) = deref rest r.
Proof. destruct r; reflexivity. Qed.

Lemma findRef_nonempty F t r : findRef F t = Some r → r ≠ [].
Proof.
  revert r. induction F as [|c rest IHc IHr] using forest_ind; intros r; [discriminate|].
  rewrite findRef_cons. destruct (decide (id c = t)); [congruence|].
  destruct (findRef (children c) t); [congruence|].
  destruct (findRef rest t) as [r'|]; [|discriminate].
  cbn. intros [= <-]. specialize (IHr r' eq_refl). destruct r'; cbn; congruence.
Qed.

Lemma findRef_None F t : t ∉ forestIds F → findRef F t = None.
Proof.
  induction F as [|c rest IHc IHr] using forest_ind; [reflexivity|].
  rewrite elem_of_forestIds_cons, findRef_cons. intros Hn.
  destruct (decide (id c = t)); [exfalso; apply Hn; auto|].
  rewrite IHc, IHr by tauto. reflexivity.
Qed.

Lemma findRef_Some F t :
  t ∈ forestIds F →
  ∃ r m, findRef F t = Some r ∧ deref F r = Some m ∧ id m = t ∧ m ∈ flattenForest F.
Proof.
  induction F as [|c rest IHc IHr] using forest_ind; [intros H; inversion H|].
  intros Hin. rewrite findRef_cons.
  destruct (decide (id c = t)) as [Heq|Hne].
  { exists [0], c. rewrite elem_of_flatten_cons. auto 6. }
  destruct (decide (t ∈ forestIds (children c))) as [Hc|Hc].
  - destruct (IHc Hc) as (r & m & Hr & Hd & Hid & Hm). rewrite Hr.
    exists (0 :: r), m. rewrite elem_of_flatten_cons. repeat split; auto.
    cbn [deref lookup list_lookup]. apply findRef_nonempty in Hr. destruct r; [done|exact Hd].
  - rewrite (findRef_None _ _ Hc).
    apply elem_of_forestIds_cons in Hin as [->|[?|Hin]]; [done..|].
    destruct (IHr Hin) as (r & m & Hr & Hd & Hid & Hm). rewrite Hr.
    exists (nextSibling r), m. rewrite deref_nextSibling, elem_of_flatten_cons. auto 6.
Qed.

(** On a forest with unique ids the node found is the node carrying the id. *)
Lemma findNode_unique F m :
  uniqueIds F → m ∈ flattenForest F → findNode F (id m) = Some m.
Proof.
  intros Hu Hm.
  destruct (findRef_Some F (id m) (id_in_forestIds _ _ Hm)) as (r & m' & Hr & Hd & Hid & Hm').
  unfold findNode, findNodeAndParent. rewrite Hr. cbn. rewrite Hd. f_equal.
  eapply NoDup_fmap_eq; eauto.
Qed.

Lemma findNode_absent F t : t ∉ forestIds F → findNode F t = None.
Proof.
  intros H. unfold findNode, findNodeAndParent. rewrite findRef_None by done. done.
Qed.

(** The inner search of [isDescendant] decides membership among the ids. *)
Lemma carries_spec t F : existsb (carriesId t) F = true ↔ t ∈ forestIds F.
Proof.
  induction F as [|c rest IHc IHr] using forest_ind.
  - cbn. split; [discriminate|intros H; inversion H].
  - rewrite carries_cons, elem_of_forestIds_cons, orb_true_iff, IHr.
    destruct (decide (id c = t)) as [<-|Hne]; [tauto|]. rewrite IHc.
    split; [tauto|]. intros [->|H]; [done|tauto].
Qed.

Lemma isDescendant_spec F m t :
  uniqueIds F → m ∈ flattenForest F →
  isDescendant F (id m) t = true ↔ t ∈ forestIds (children m).
Proof.
  intros Hu Hm. unfold isDescendant. rewrite findNode_unique by done.
  apply carries_spec.
Qed.

(** ** Rejected moves and reassignments *)

(** C1.  On a forest with unique ids, moving a node, or deleting it with
    reassignment of its children, onto itself or onto one of its descendants is
    refused before anything is changed: [moveNodeAsChild] returns the forest it
    was given together with [moved = false], the drop handler [finishDrag]
    leaves forest and ledger alone, and [confirmReassignChildren] leaves the
    whole state as it was. *)
Theorem cyclic_target_rejected (st : AppState) (m : TreeNode) (t newId : jsstring) (now : Z) :
  uniqueIds (forest st) →
  m ∈ flattenForest (forest st) →
  t = id m ∨ t ∈ forestIds (children m) →
  dialog_nodeId (deleteDialog st) = Some (id m) →
  reassignTargetId st = Some t →
  moveNodeAsChild (forest st) (id m) t = (forest st, false) ∧
  forest (finishDrag newId now (Some t) (id m) st) = forest st ∧
  changeLog (finishDrag newId now (Some t) (id m) st) = changeLog st ∧
  confirmReassignChildren newId now st = st.
Proof.
  intros Hu Hm Ht Hn Hr.
  assert (Hmove : moveNodeAsChild (forest st) (id m) t = (forest st, false)).
  { unfold moveNodeAsChild. destruct (decide (id m = t)); [reflexivity|].
    destruct Ht as [->|Ht]; [done|].
    apply (isDescendant_spec _ _ _ Hu Hm) in Ht. rewrite Ht. reflexivity. }
  split; [exact Hmove|]. split; [|split].
  - unfold finishDrag. destruct (falsyOpt (Some t)); [reflexivity|].
    cbn [from_option Datatypes.id]. rewrite Hmove. reflexivity.
  - unfold finishDrag. destruct (falsyOpt (Some t)); [reflexivity|].
    cbn [from_option Datatypes.id]. rewrite Hmove. reflexivity.
  - unfold confirmReassignChildren. rewrite Hn, Hr.
    destruct (falsyOpt _ || falsyOpt _); [reflexivity|]. cbn [from_option Datatypes.id].
    destruct Ht as [->|Ht].
    + rewrite bool_decide_eq_true_2 by done. reflexivity.
    + apply (isDescendant_spec _ _ _ Hu Hm) in Ht. rewrite Ht, orb_true_r. reflexivity.
Qed.

Lemma cyclic_target_rejected_witness :
  moveNodeAsChild (forest reassignOntoChild) (js "A") (js "B")
  = (forest reassignOntoChild, false) ∧
  forest (finishDrag (js "u1") 7 (Some (js "B")) (js "A") reassignOntoChild)
  = forest reassignOntoChild ∧
  changeLog (finishDrag (js "u1") 7 (Some (js "B")) (js "A") reassignOntoChild)
  = changeLog reassignOntoChild ∧
  confirmReassignChildren (js "u1") 7 reassignOntoChild = reassignOntoChild.
Proof.
  apply (cyclic_target_rejected reassignOntoChild
           (inner "A" [leaf "B"; leaf "C"]) (js "B") (js "u1") 7).
  - by_evaluation.
  - by_evaluation.
  - right. by_evaluation.
  - reflexivity.
  - reflexivity.
Defined.

(** ** Visibility projection *)

Lemma buildVisible_agree (F : Forest) (ids1 ids2 : gset jsstring) :
  (∀ x, x ∈ forestIds F → (x ∈ ids1 ↔ x ∈ ids2)) →
  buildVisibleForest F ids1 = buildVisibleForest F ids2.
Proof.
  induction F as [|c rest IHc IHr] using forest_ind; intros Hag; [reflexivity|].
  rewrite !buildVisible_cons.
  assert (Hc : id c ∈ ids1 ↔ id c ∈ ids2) by (apply Hag, elem_of_forestIds_cons; auto).
  rewrite IHr by (intros; apply Hag, elem_of_forestIds_cons; auto).
  rewrite IHc by (intros; apply Hag, elem_of_forestIds_cons; auto).
  destruct (decide (id c ∈ ids1)), (decide (id c ∈ ids2)); tauto || reflexivity.
Qed.

Lemma elem_of_idSet (x : jsstring) (F : Forest) : x ∈ idSet F ↔ x ∈ forestIds F.
Proof. unfold idSet. apply elem_of_list_to_set. Qed.

(** C10.  The projection only looks at collapsed ids that occur in the forest:
    it is the same for a set of collapsed ids and for that set cut down to the
    ids of the forest, and throwing any ids that do not occur in the forest
    (such as the id of a node deleted earlier) into the collapsed set does not
    change it. *)
Theorem projection_ignores_stale_ids (F : Forest) (collapsedIds stale : gset jsstring) :
  buildVisibleForest F collapsedIds = buildVisibleForest F (collapsedIds ∩ idSet F) ∧
  buildVisibleForest F (collapsedIds ∪ (stale ∖ idSet F))
  = buildVisibleForest F collapsedIds.
Proof.
  split; apply buildVisible_agree; intros x Hx; apply elem_of_idSet in Hx.
  - rewrite elem_of_intersection. tauto.
  - rewrite elem_of_union, elem_of_difference. tauto.
Qed.

(** ** Change ledger *)

Lemma sliceLast_length {A} k (l : list A) : length (sliceLast k l) ≤ k.
Proof. unfold sliceLast. rewrite length_drop. lia. Qed.

Lemma changeLog_addChange newId now text st :
  changeLog (addChange newId now text st)
  = sliceLast 80 (changeLog st ++ [mkItem newId now text]).
Proof. reflexivity. Qed.

(** C5.  After [addChange] the ledger holds at most 80 entries, whatever it
    held before; when it held exactly 80, the oldest entry is the one dropped
    and the other 79 are followed by the new entry; and [applyChanges] empties
    the ledger and records the time of the commit and the group name. *)
Theorem ledger_capped_fifo (newId text : jsstring) (now : Z) (st : AppState) :
  length (changeLog (addChange newId now text st)) ≤ 80 ∧
  (length (changeLog st) = 80 →
   changeLog (addChange newId now text st)
   = drop 1 (changeLog st) ++ [mkItem newId now text]) ∧
  changeLog (applyChanges now st) = [] ∧
  committedAt (applyChanges now st) = now ∧
  committedGroupName (applyChanges now st) = groupName st.
Proof.
  rewrite changeLog_addChange. split; [apply sliceLast_length|].
  split; [|done].
  intros Hlen. unfold sliceLast. rewrite length_app, Hlen. cbn [length].
  replace (80 + 1 - 80) with 1 by lia.
  rewrite drop_app_le by lia. reflexivity.
Qed.

Lemma ledger_capped_fifo_witness :
  changeLog (addChange (js "new") 80 (js "s") (setChangeLog fullLedger sampleState))
  = drop 1 fullLedger ++ [mkItem (js "new") 80 (js "s")].
Proof.
  apply (ledger_capped_fifo (js "new") (js "s") 80 (setChangeLog fullLedger sampleState)).
  reflexivity.
Defined.

(** None of the handlers modelled takes the ledger past the cap, so no run of
    them does. *)
Lemma handler_keeps_cap st st' :
  handlerStep st st' → length (changeLog st) ≤ 80 → length (changeLog st') ≤ 80.
Proof.
  intros Hstep Hcap.
  destruct Hstep;
    unfold commitRenameNode, confirmDeleteWithChildren, deleteNodeAndChildren,
      confirmReassignChildren, startDrag, finishDrag, expandNode;
    repeat match goal with
           | |- context [if ?b then _ else _] => destruct b
           | |- context [match ?o with Some _ => _ | None => _ end] => destruct o
           end;
    first [exact Hcap | apply sliceLast_length | cbn; lia].
Qed.

Lemma ledger_never_exceeds_cap st st' :
  rtc handlerStep st st' → length (changeLog st) ≤ 80 → length (changeLog st') ≤ 80.
Proof.
  induction 1 as [|st st1 st2 Hstep _ IH]; [done|].
  intros Hcap. apply IH. exact (handler_keeps_cap _ _ Hstep Hcap).
Qed.

(** ** Renaming a node *)

(** C9.  Committing a node rename whose draft trims to the empty string
    changes nothing at all: forest, names, the node being edited, the draft
    text and the ledger are those of the state before. *)
Theorem blank_rename_is_noop (newId : jsstring) (now : Z) (st : AppState) :
  trim (nodeDraft st) = [] →
  commitRenameNode newId now st = st.
Proof.
  intros Hblank. unfold commitRenameNode. rewrite Hblank. reflexivity.
Qed.

Lemma blank_rename_is_noop_witness :
  commitRenameNode (js "u1") 7 blankDraft = blankDraft.
Proof.
  apply (blank_rename_is_noop (js "u1") 7 blankDraft).
  reflexivity.
Defined.

(** ** Starting a drag *)

(** C7 as stated fails: while the group name is being renamed, and no node is
    being renamed and no dialog is open, a pointer-down on a drag handle takes
    the controller from Idle to Dragging. *)
Lemma drag_starts_during_group_rename :
  renameInProgress (startRenameGroup sampleState) ∧
  isIdle (startRenameGroup sampleState) ∧
  isDragging (startDrag (js "B") 10 20 (startRenameGroup sampleState)).
Proof.
  split; [right; right; reflexivity|].
  split; [reflexivity|]. eexists. reflexivity.
Qed.

(** While the label of a dimension is being renamed, and no node is being
    renamed and no dialog is open, a pointer-down on a drag handle starts the
    drag just the same. *)
Example drag_starts_during_dimension_rename :
  renameInProgress (startRenameDim 0 sampleState) ∧
  isIdle (startRenameDim 0 sampleState) ∧
  isDragging (startDrag (js "B") 10 20 (startRenameDim 0 sampleState)).
Proof.
  split; [right; left; eexists; reflexivity|].
  split; [reflexivity|]. eexists. reflexivity.
Qed.

(** C7, amended.  While a node is being renamed (its id, a non-empty string,
    is held as the id being edited) or the delete dialog is open, a
    pointer-down on a drag handle changes nothing: an Idle controller stays
    Idle.  In every other state the pointer-down starts the drag of that
    node, and it does so whether or not the label of a dimension or the name
    of the group is being renamed, renames which it leaves as they are. *)
Theorem drag_rejected_while_editing_node_or_dialog
    (nodeId : jsstring) (clientX clientY : Q) (st : AppState) :
  ((∃ i, editingNodeId st = Some i ∧ i ≠ []) ∨ modalOpen st →
   startDrag nodeId clientX clientY st = st ∧
   (isIdle st → isIdle (startDrag nodeId clientX clientY st))) ∧
  (¬ ((∃ i, editingNodeId st = Some i ∧ i ≠ []) ∨ modalOpen st) →
   drag (startDrag nodeId clientX clientY st) = Some (mkDrag nodeId clientX clientY) ∧
   isDragging (startDrag nodeId clientX clientY st) ∧
   editingDimIndex (startDrag nodeId clientX clientY st) = editingDimIndex st ∧
   editingGroup (startDrag nodeId clientX clientY st) = editingGroup st) ∧
  (is_Some (editingDimIndex st) ∨ editingGroup st = true →
   ¬ ((∃ i, editingNodeId st = Some i ∧ i ≠ []) ∨ modalOpen st) →
   renameInProgress st ∧ isDragging (startDrag nodeId clientX clientY st)).
Proof.
  assert (Hstart : ¬ ((∃ i, editingNodeId st = Some i ∧ i ≠ []) ∨ modalOpen st) →
    startDrag nodeId clientX clientY st
    = setDropTargetId None
        (setDrag (Some (mkDrag nodeId clientX clientY))
           (setPanelOpen false (setOverlay None st)))).
  { intros Hfree. unfold startDrag.
    assert (He : falsyOpt (editingNodeId st) = true).
    { destruct (editingNodeId st) as [[|c i]|]; [reflexivity| |reflexivity].
      exfalso. apply Hfree. left. eexists. split; [reflexivity|done]. }
    assert (Hd : dialog_open (deleteDialog st) = false).
    { destruct (dialog_open (deleteDialog st)) eqn:Hopen; [|reflexivity].
      exfalso. apply Hfree. right. exact Hopen. }
    rewrite He, Hd. reflexivity. }
  split; [|split].
  - intros Hguard.
    assert (Heq : startDrag nodeId clientX clientY st = st).
    { unfold startDrag. destruct Hguard as [(i & Hi & Hne)|Hopen].
      - rewrite Hi. destruct i; [done|]. reflexivity.
      - unfold modalOpen in Hopen. rewrite Hopen, orb_true_r. reflexivity. }
    rewrite Heq. auto.
  - intros Hfree. rewrite (Hstart Hfree).
    split; [reflexivity|]. split; [eexists; reflexivity|]. split; reflexivity.
  - intros Hother Hfree. rewrite (Hstart Hfree). split.
    + destruct Hother as [Hdim|Hgroup]; [right; left; exact Hdim|right; right; exact Hgroup].
    + eexists. reflexivity.
Qed.

Lemma drag_rejected_while_editing_node_or_dialog_witness :
  startDrag (js "B") 10 20 dialogOnA = dialogOnA ∧
  (isIdle dialogOnA → isIdle (startDrag (js "B") 10 20 dialogOnA)).
Proof.
  apply (drag_rejected_while_editing_node_or_dialog (js "B") 10 20 dialogOnA).
  right. reflexivity.
Defined.

(** ** Search matcher *)

Lemma isSyntaxChar_backslash : isSyntaxChar backslash = true.
Proof. reflexivity. Qed.

(** The escaped text compiles, and to the text itself taken literally. *)
Lemma compile_escape (q : jsstring) : compilePattern (escapeRegExp q) = Some q.
Proof.
  induction q as [|c q IH]; [reflexivity|].
  unfold escapeRegExp in *. cbn [mbind list_bind].
  destruct (isSyntaxChar c) eqn:Hc; cbn [app compilePattern].
  - rewrite bool_decide_eq_true_2 by reflexivity. rewrite Hc, IH. reflexivity.
  - rewrite bool_decide_eq_false_2.
    + rewrite Hc, IH. reflexivity.
    + intros ->. rewrite isSyntaxChar_backslash in Hc. discriminate.
Qed.

Section MatchingFacts.
Variable canonicalize : N → N.

Lemma matchesHere_spec (lit s : list N) :
  matchesHere canonicalize true lit s = true ↔
  ∃ mid after, s = mid ++ after ∧ canonicalize <$> mid = canonicalize <$> lit.
Proof.
  revert s. induction lit as [|p lit IH]; intros s; cbn [matchesHere].
  - split; [|done]. intros _. exists [], s. done.
  - destruct s as [|c s].
    + split; [discriminate|]. intros (mid & after & Hs & Hm).
      destruct mid; [discriminate|discriminate].
    + rewrite andb_true_iff, IH. unfold sameChar. rewrite bool_decide_eq_true. split.
      * intros (Hpc & mid & after & -> & Hm). exists (c :: mid), after.
        rewrite !fmap_cons. split; [done|]. congruence.
      * intros (mid & after & Hs & Hm). destruct mid as [|c' mid]; [discriminate|].
        rewrite !fmap_cons in Hm. injection Hs as <- ->. injection Hm as Hc Hm.
        split; [done|]. exists mid, after. done.
Qed.

Lemma matchesSomewhere_spec (lit s : list N) :
  matchesSomewhere canonicalize true lit s = true ↔
  occursIgnoringCase canonicalize lit s.
Proof.
  unfold occursIgnoringCase. induction s as [|c s IH]; cbn [matchesSomewhere];
    rewrite orb_true_iff, matchesHere_spec.
  - split.
    + intros [(mid & after & Hs & Hm)|?]; [|discriminate]. exists [], mid, after. done.
    + intros (before & mid & after & Hs & Hm). left.
      destruct before; [|discriminate]. exists mid, after. done.
  - rewrite IH. split.
    + intros [(mid & after & Hs & Hm)|(before & mid & after & Hs & Hm)].
      * exists [], mid, after. done.
      * exists (c :: before), mid, after. rewrite Hs. done.
    + intros (before & mid & after & Hs & Hm). destruct before as [|b before].
      * left. exists mid, after. done.
      * right. injection Hs as <- ->. exists before, mid, after. done.
Qed.

Lemma isMatch_spec (query name0 : jsstring) :
  isMatch canonicalize query name0 = true ↔
  trim query ≠ [] ∧ occursIgnoringCase canonicalize (trim query) name0.
Proof.
  unfold isMatch, queryRe, newRegExp. destruct (trim query) as [|c q] eqn:Hq.
  - cbn. split; [discriminate|]. intros [? _]. done.
  - cbn [falsy]. rewrite compile_escape. cbn [fmap option_fmap option_map].
    unfold test. cbn [literal ignoreCase].
    rewrite matchesSomewhere_spec. split; [|tauto]. intros H. split; [done|exact H].
Qed.
End MatchingFacts.

Lemma trimStart_blank (s : jsstring) :
  Forall (fun c => isTrimmable c = true) s → trimStart s = [].
Proof.
  induction 1 as [|c s Hc _ IH]; [reflexivity|]. cbn. rewrite Hc. exact IH.
Qed.

Lemma trim_blank (s : jsstring) :
  Forall (fun c => isTrimmable c = true) s → trim s = [].
Proof. intros H. unfold trim. rewrite trimStart_blank by done. reflexivity. Qed.

(** C8 as stated fails: the query [" a"] matches the name ["a"], in which the
    text [" a"] does not occur. *)
Lemma query_is_trimmed_before_matching :
  isMatch asciiUpper (js " a") (js "a") = true ∧
  ¬ occursIgnoringCase asciiUpper (js " a") (js "a").
Proof.
  split; [reflexivity|].
  intros (before & mid & after & Hs & Hm).
  apply (f_equal length) in Hs, Hm.
  rewrite !length_app in Hs. rewrite !length_fmap in Hm. cbn in Hs, Hm. lia.
Qed.

(** C8, amended.  Whatever characters the query holds, the predicate matches
    a name exactly when the query with its leading and trailing white space
    trimmed is not empty and occurs in the name, letter case apart; in
    particular the query [a+b(c)] matches the text [A+B(C)], and an empty or
    all-blank query matches no name. *)
Theorem search_matches_trimmed_literal
    (canonicalize : N → N) (query name0 : jsstring) :
  (isMatch canonicalize query name0 = true ↔
   trim query ≠ [] ∧ occursIgnoringCase canonicalize (trim query) name0) ∧
  isMatch asciiUpper (js "a+b(c)") (js "A+B(C)") = true ∧
  (Forall (fun c => isTrimmable c = true) query →
   isMatch canonicalize query name0 = false).
Proof.
  split; [apply isMatch_spec|]. split; [reflexivity|].
  intros Hblank. apply not_true_is_false. rewrite isMatch_spec, trim_blank by done.
  intros [? _]. done.
Qed.

Lemma search_matches_trimmed_literal_witness :
  isMatch asciiUpper (js "  ") (js "a b") = false.
Proof.
  apply (search_matches_trimmed_literal asciiUpper (js "  ") (js "a b")).
  by_evaluation.
Defined.

(** ** Counting occurrences of an id *)

Lemma occurrences_cons x c rest :
  occurrences x (c :: rest) =
  (if decide (id c = x) then 1 else 0) + occurrences x (children c) + occurrences x rest.
Proof.
  unfold occurrences. rewrite forestIds_cons, filter_cons, filter_app.
  destruct (decide (id c = x)); cbn [length]; rewrite length_app; lia.
Qed.

Lemma occurrences_zero x F : occurrences x F = 0 ↔ x ∉ forestIds F.
Proof.
  unfold occurrences. induction (forestIds F) as [|z l IH].
  { cbn. split; [intros _ H; inversion H|done]. }
  rewrite filter_cons, not_elem_of_cons. destruct (decide (z = x)); cbn.
  - split; [lia|]. intros [? _]. congruence.
  - rewrite IH. split; [split; [congruence|done]|tauto].
Qed.

Lemma occurrences_unique x F : uniqueIds F → x ∈ forestIds F → occurrences x F = 1.
Proof.
  unfold uniqueIds, occurrences. induction (forestIds F) as [|z l IH]; intros Hnd Hin.
  - inversion Hin.
  - apply NoDup_cons in Hnd as [Hz Hnd]. rewrite filter_cons.
    destruct (decide (z = x)) as [->|Hne]; cbn.
    + f_equal. fold (filter (λ z, z = x) l).
      change (length (filter (λ z, z = x) l) = 0).
      clear IH Hnd Hin. induction l as [|a l IHl]; [done|].
      apply not_elem_of_cons in Hz as [Ha Hz]. rewrite filter_cons_False by congruence. auto.
    + apply elem_of_cons in Hin as [->|Hin]; [done|]. auto.
Qed.

(** ** Small facts on the updates *)

Lemma setChildren_same c : setChildren c (children c) = c.
Proof. destruct c; reflexivity. Qed.

Lemma updateAt_nextSibling f r c rest :
  updateAt f (nextSibling r) (c :: rest) = c :: updateAt f r rest.
Proof.
  destruct r as [|i r]; [reflexivity|]. cbn [nextSibling updateAt lookup list_lookup].
  destruct (rest !! i); reflexivity.
Qed.

Lemma updateAt_head f c rest : updateAt f [0] (c :: rest) = f c :: rest.
Proof. reflexivity. Qed.

Lemma updateAt_below f r c rest :
  r ≠ [] →
  updateAt f (0 :: r) (c :: rest) = setChildren c (updateAt f r (children c)) :: rest.
Proof. intros Hr. destruct r; [done|reflexivity]. Qed.

Lemma prune_absent x F : x ∉ forestIds F → prune x F = F.
Proof.
  induction F as [|c rest IHc IHr] using forest_ind; [reflexivity|].
  rewrite elem_of_forestIds_cons, prune_cons. intros Hn.
  destruct (decide (id c = x)); [exfalso; apply Hn; auto|].
  rewrite IHc, IHr, setChildren_same by tauto. reflexivity.
Qed.

Lemma filter_roots_absent x (F : Forest) :
  x ∉ forestIds F → filter (λ c, id c ≠ x) F = F.
Proof.
  induction F as [|c rest IH]; [reflexivity|].
  rewrite elem_of_forestIds_cons. intros Hn.
  rewrite filter_cons_True by (intros Heq; apply Hn; auto).
  rewrite IH by tauto. reflexivity.
Qed.

Lemma prune_app x F G : prune x (F ++ G) = prune x F ++ prune x G.
Proof.
  induction F as [|c rest IH]; [reflexivity|].
  rewrite <- app_comm_cons, !prune_cons, IH. destruct (decide (id c = x)); reflexivity.
Qed.

Lemma prune_roots x F : id <$> prune x F = filter (λ z, z ≠ x) (id <$> F).
Proof.
  induction F as [|c rest IH]; [reflexivity|].
  rewrite prune_cons, fmap_cons, filter_cons.
  destruct (decide (id c = x)) as [Heq|Hne].
  - rewrite decide_False by (intros H; apply H, Heq). exact IH.
  - rewrite decide_True by done. rewrite fmap_cons, IH. reflexivity.
Qed.

Lemma prune_removes x F : x ∉ forestIds (prune x F).
Proof.
  induction F as [|c rest IHc IHr] using forest_ind; [intros H; inversion H|].
  rewrite prune_cons. destruct (decide (id c = x)); [exact IHr|].
  rewrite elem_of_forestIds_cons. cbn [id children setChildren]. intros [?|[?|?]]; auto.
Qed.

Lemma prune_ids_subseteq n F : forestIds (prune n F) ⊆ forestIds F.
Proof.
  induction F as [|c rest IHc IHr] using forest_ind; [done|].
  rewrite prune_cons. intros x Hx. apply elem_of_forestIds_cons.
  destruct (decide (id c = n)); [right; right; apply IHr, Hx|].
  apply elem_of_forestIds_cons in Hx. cbn [id children setChildren] in Hx.
  destruct Hx as [?|[?|?]]; auto.
Qed.

Lemma prune_keeps_uniqueIds n F : uniqueIds F → uniqueIds (prune n F).
Proof.
  induction F as [|c rest IHc IHr] using forest_ind; intros Hu; [exact Hu|].
  apply uniqueIds_cons in Hu as (Hc1 & Hc2 & Huc & Hur & Hdis).
  rewrite prune_cons. destruct (decide (id c = n)); [auto|].
  apply uniqueIds_cons. cbn [id children setChildren].
  split; [intros Hin; apply Hc1, (prune_ids_subseteq _ _ _ Hin)|].
  split; [intros Hin; apply Hc2, (prune_ids_subseteq _ _ _ Hin)|].
  split; [auto|]. split; [auto|].
  intros x Hx Hx'. exact (Hdis x (prune_ids_subseteq _ _ _ Hx) (prune_ids_subseteq _ _ _ Hx')).
Qed.

(** ** The deletion tail removes the one node that carries the id *)

Lemma removal_once x F :
  occurrences x F = 1 → ∃ r, findRef F x = Some r ∧ removalAgrees x F r.
Proof.
  induction F as [|c rest IHc IHr] using forest_ind; [discriminate|].
  rewrite occurrences_cons, findRef_cons. intros Hocc.
  destruct (decide (id c = x)) as [Heq|Hne].
  - assert (Hc : x ∉ forestIds (children c)) by (apply occurrences_zero; lia).
    assert (Hr : x ∉ forestIds rest) by (apply occurrences_zero; lia).
    exists [0]. split; [done|]. cbn [removalAgrees].
    rewrite prune_cons, decide_True, prune_absent by done. split; [|split].
    + exists c. cbn. rewrite decide_True by done. reflexivity.
    + reflexivity.
    + rewrite filter_cons_False by tauto. apply filter_roots_absent. done.
  - destruct (decide (occurrences x (children c) = 0)) as [Hz|Hnz].
    + assert (Hc : x ∉ forestIds (children c)) by (apply occurrences_zero; lia).
      rewrite (findRef_None _ _ Hc).
      destruct IHr as (r & Hr & Hag); [lia|]. rewrite Hr. exists (nextSibling r).
      split; [done|]. pose proof (findRef_nonempty _ _ _ Hr) as Hne'.
      destruct r as [|i [|j r]]; [done| |].
      * destruct Hag as ((m & Hfind) & Hdel & Hfil). cbn [nextSibling removalAgrees].
        rewrite prune_cons, decide_False, (prune_absent _ _ Hc), setChildren_same by done.
        split; [|split].
        -- exists m. cbn. rewrite decide_False by done. cbn in Hfind. rewrite Hfind. reflexivity.
        -- change (delete (S i) (c :: rest)) with (c :: delete i rest).
           rewrite Hdel. reflexivity.
        -- rewrite filter_cons_True by done. rewrite Hfil. reflexivity.
      * cbn [nextSibling removalAgrees] in *.
        rewrite prune_cons, decide_False, (prune_absent _ _ Hc), setChildren_same by done.
        change (removelast (S i :: j :: r)) with (nextSibling (removelast (i :: j :: r))).
        rewrite updateAt_nextSibling, Hag. reflexivity.
    + assert (Hr : x ∉ forestIds rest) by (apply occurrences_zero; lia).
      destruct IHc as (r & Hrc & Hag); [lia|]. rewrite Hrc. exists (0 :: r).
      split; [done|]. pose proof (findRef_nonempty _ _ _ Hrc) as Hne'.
      destruct r as [|i [|j r]]; [done| |].
      * destruct Hag as (_ & _ & Hfil). cbn [removalAgrees].
        rewrite prune_cons, decide_False, (prune_absent _ _ Hr) by done.
        change (removelast [0; i]) with [0]. rewrite updateAt_head, Hfil. reflexivity.
      * cbn [removalAgrees] in *.
        rewrite prune_cons, decide_False, (prune_absent _ _ Hr) by done.
        change (removelast (0 :: i :: j :: r)) with (0 :: removelast (i :: j :: r)).
        rewrite updateAt_below by (destruct r; done). rewrite Hag. reflexivity.
Qed.

Lemma removeFrom_once x F : occurrences x F = 1 → removeFrom F x = prune x F.
Proof.
  intros Hocc. destruct (removal_once x F Hocc) as (r & Hr & Hag).
  unfold removeFrom, findNodeAndParent. rewrite Hr. cbn [parent].
  destruct r as [|i [|j r]]; [done| |].
  - destruct Hag as ((m & Hfind) & Hdel & _). cbn [parentRef]. rewrite Hfind. exact Hdel.
  - cbn [parentRef]. exact Hag.
Qed.

(** ** Cascade deletion *)

Lemma labels_cons c rest :
  labels (c :: rest) = (id c, name c) :: labels (children c) ++ labels rest.
Proof. unfold labels. rewrite flattenForest_cons, fmap_cons, fmap_app. reflexivity. Qed.

Lemma labels_ids F : (labels F).*1 = forestIds F.
Proof. unfold labels, forestIds. rewrite <- list_fmap_compose. reflexivity. Qed.

Lemma filter_keep_all {A} (P : A → Prop) `{∀ x, Decision (P x)} (l : list A) :
  (∀ x, x ∈ l → P x) → filter P l = l.
Proof.
  induction l as [|a l IH]; intros Hall; [reflexivity|].
  rewrite filter_cons_True by (apply Hall; left). rewrite IH; [reflexivity|].
  intros x Hx. apply Hall. right. exact Hx.
Qed.

Lemma filter_drop_all {A} (P : A → Prop) `{∀ x, Decision (P x)} (l : list A) :
  (∀ x, x ∈ l → ¬ P x) → filter P l = [].
Proof.
  induction l as [|a l IH]; intros Hall; [reflexivity|].
  rewrite filter_cons_False by (apply Hall; left). apply IH.
  intros x Hx. apply Hall. right. exact Hx.
Qed.

Lemma elem_of_labels p F : p ∈ labels F → p.1 ∈ forestIds F.
Proof. intros Hp. rewrite <- labels_ids. apply list_elem_of_fmap. eauto. Qed.

Lemma nodeIds_in_forest F m : m ∈ flattenForest F → nodeIds m ⊆ forestIds F.
Proof.
  intros Hm x. rewrite nodeIds_eq, elem_of_cons. intros [->|Hx].
  - apply id_in_forestIds, Hm.
  - eapply descendant_ids_in_forest; eauto.
Qed.

Lemma id_in_nodeIds m : id m ∈ nodeIds m.
Proof. rewrite nodeIds_eq. left. Qed.

(** Labels of a part of the forest that shares no id with the subtree stay. *)
Lemma labels_apart m F :
  (∀ x, x ∈ forestIds F → x ∉ nodeIds m) →
  filter (λ p, p.1 ∉ nodeIds m) (labels F) = labels F.
Proof. intros Hap. apply filter_keep_all. intros p Hp. apply Hap, elem_of_labels, Hp. Qed.

Lemma prune_labels m F :
  uniqueIds F → m ∈ flattenForest F →
  labels (prune (id m) F) = filter (λ p, p.1 ∉ nodeIds m) (labels F).
Proof.
  induction F as [|c rest IHc IHr] using forest_ind; intros Hu Hm; [inversion Hm|].
  apply uniqueIds_cons in Hu as (Hc1 & Hc2 & Huc & Hur & Hdis).
  rewrite labels_cons, filter_cons, filter_app, prune_cons.
  apply elem_of_flatten_cons in Hm as [->|[Hm|Hm]].
  - rewrite decide_True by done.
    rewrite decide_False by (intros Hn; apply Hn, id_in_nodeIds).
    rewrite prune_absent by done.
    rewrite filter_drop_all.
    2:{ intros p Hp Hn. apply Hn. rewrite nodeIds_eq. right. apply elem_of_labels, Hp. }
    rewrite labels_apart; [reflexivity|].
    intros x Hx. rewrite nodeIds_eq, not_elem_of_cons. split; [congruence|].
    intros Hx'. exact (Hdis x Hx' Hx).
  - pose proof (nodeIds_in_forest _ _ Hm) as Hsub.
    assert (id c ≠ id m) by (intros Heq; apply Hc1; rewrite Heq; apply id_in_forestIds, Hm).
    rewrite decide_False by done.
    rewrite decide_True by (intros Hn; apply Hc1, Hsub, Hn).
    rewrite (prune_absent _ rest) by (apply Hdis, id_in_forestIds, Hm).
    rewrite labels_cons. cbn [id name children setChildren].
    rewrite IHc by done.
    rewrite (labels_apart m rest); [reflexivity|].
    intros x Hx Hx'. exact (Hdis x (Hsub x Hx') Hx).
  - pose proof (nodeIds_in_forest _ _ Hm) as Hsub.
    assert (id c ≠ id m) by (intros Heq; apply Hc2; rewrite Heq; apply id_in_forestIds, Hm).
    rewrite decide_False by done.
    rewrite decide_True by (intros Hn; apply Hc2, Hsub, Hn).
    rewrite (prune_absent _ (children c)).
    2:{ intros Hin. exact (Hdis _ Hin (id_in_forestIds _ _ Hm)). }
    rewrite setChildren_same, labels_cons, IHr by done.
    rewrite (labels_apart m (children c)); [reflexivity|].
    intros x Hx Hx'. exact (Hdis x Hx (Hsub x Hx')).
Qed.

(** Every node left by [prune] is a node of the forest with the same id and
    name, whose children are the former children minus the pruned id. *)
Lemma prune_nodes x F k' :
  k' ∈ flattenForest (prune x F) →
  ∃ k, k ∈ flattenForest F ∧ id k = id k' ∧ name k = name k' ∧
       id <$> children k' = filter (λ z, z ≠ x) (id <$> children k).
Proof.
  induction F as [|c rest IHc IHr] using forest_ind; [intros H; inversion H|].
  rewrite prune_cons. intros Hk.
  assert (Hrest : k' ∈ flattenForest (prune x rest) →
          ∃ k, k ∈ flattenForest (c :: rest) ∧ id k = id k' ∧ name k = name k' ∧
               id <$> children k' = filter (λ z, z ≠ x) (id <$> children k)).
  { intros H. destruct (IHr H) as (k & Hin & ?). exists k.
    rewrite elem_of_flatten_cons. auto. }
  destruct (decide (id c = x)); [auto|].
  apply elem_of_flatten_cons in Hk as [->|[Hk|Hk]]; [| |auto].
  - exists c. rewrite elem_of_flatten_cons. cbn [id name children setChildren].
    rewrite prune_roots. auto.
  - cbn [children setChildren] in Hk. destruct (IHc Hk) as (k & Hin & ?). exists k.
    rewrite elem_of_flatten_cons. auto.
Qed.

Lemma forest_deleteNodeAndChildren newId now x st :
  forest (deleteNodeAndChildren newId now x st) = removeFrom (forest st) x.
Proof.
  unfold deleteNodeAndChildren. cbn zeta.
  repeat match goal with |- context [decide ?P] => destruct (decide P) end; reflexivity.
Qed.

(** C3.  On a forest with unique ids, deleting a node with its children
    removes that node and its subtree and nothing else: the ids and names of
    the forest in traversal order are the former ones with those of the subtree
    struck out, the roots are the former roots in their order without the
    node, every remaining node is a former node with the same id and name
    whose children are its former children, in their order, without the node,
    and the ids are still unique. *)
Theorem cascade_delete_exact (newId : jsstring) (now : Z) (st : AppState) (m : TreeNode) :
  uniqueIds (forest st) →
  m ∈ flattenForest (forest st) →
  let after := forest (deleteNodeAndChildren newId now (id m) st) in
  labels after = filter (λ p, p.1 ∉ nodeIds m) (labels (forest st)) ∧
  id <$> after = filter (λ z, z ≠ id m) (id <$> forest st) ∧
  (∀ k', k' ∈ flattenForest after →
     ∃ k, k ∈ flattenForest (forest st) ∧ id k = id k' ∧ name k = name k' ∧
          id <$> children k' = filter (λ z, z ≠ id m) (id <$> children k)) ∧
  uniqueIds after.
Proof.
  intros Hu Hm after. subst after. rewrite forest_deleteNodeAndChildren.
  rewrite removeFrom_once by (apply occurrences_unique; [done|apply id_in_forestIds, Hm]).
  split; [apply prune_labels; done|]. split; [apply prune_roots|].
  split; [intros k'; apply prune_nodes|]. apply prune_keeps_uniqueIds, Hu.
Qed.

Lemma cascade_delete_exact_witness :
  labels (forest (deleteNodeAndChildren (js "u1") 7 (js "A") sampleState))
  = filter (λ p, p.1 ∉ nodeIds (inner "A" [leaf "B"; leaf "C"])) (labels sampleForest).
Proof.
  apply (cascade_delete_exact (js "u1") 7 sampleState (inner "A" [leaf "B"; leaf "C"])).
  - by_evaluation.
  - by_evaluation.
Defined.

(** ** Deletion with reassignment of the children *)

Lemma flattenForest_app F G : flattenForest (F ++ G) = flattenForest F ++ flattenForest G.
Proof. unfold flattenForest. apply bind_app. Qed.

Lemma forestIds_app F G : forestIds (F ++ G) = forestIds F ++ forestIds G.
Proof. unfold forestIds. rewrite flattenForest_app, fmap_app. reflexivity. Qed.

Lemma occurrences_app x F G : occurrences x (F ++ G) = occurrences x F + occurrences x G.
Proof. unfold occurrences. rewrite forestIds_app, filter_app, length_app. reflexivity. Qed.

Lemma graft_absent t cs F : t ∉ forestIds F → graft t cs F = F.
Proof.
  induction F as [|c rest IHc IHr] using forest_ind; [reflexivity|].
  rewrite elem_of_forestIds_cons, graft_cons. intros Hn.
  rewrite decide_False by (intros Heq; apply Hn; auto).
  rewrite IHc, IHr, app_nil_r, setChildren_same by tauto. reflexivity.
Qed.

Lemma graft_roots t cs F : id <$> graft t cs F = id <$> F.
Proof.
  induction F as [|c rest IH]; [reflexivity|].
  rewrite graft_cons, !fmap_cons, IH. reflexivity.
Qed.

(** The push onto the node found is a graft when the id occurs once. *)
Lemma graft_once t cs F :
  occurrences t F = 1 →
  ∃ r, findRef F t = Some r ∧ updateAt (pushChildren cs) r F = graft t cs F.
Proof.
  induction F as [|c rest IHc IHr] using forest_ind; [discriminate|].
  rewrite occurrences_cons, findRef_cons, graft_cons. intros Hocc.
  destruct (decide (id c = t)) as [Heq|Hne].
  - assert (Hc : t ∉ forestIds (children c)) by (apply occurrences_zero; lia).
    assert (Hr : t ∉ forestIds rest) by (apply occurrences_zero; lia).
    exists [0]. split; [done|].
    rewrite updateAt_head, !graft_absent by done. reflexivity.
  - rewrite app_nil_r. destruct (decide (occurrences t (children c) = 0)) as [Hz|Hnz].
    + assert (Hc : t ∉ forestIds (children c)) by (apply occurrences_zero; lia).
      rewrite (findRef_None _ _ Hc), (graft_absent _ _ _ Hc), setChildren_same.
      destruct IHr as (r & Hr & Hup); [lia|]. rewrite Hr. exists (nextSibling r).
      split; [done|]. rewrite updateAt_nextSibling, Hup. reflexivity.
    + assert (Hr : t ∉ forestIds rest) by (apply occurrences_zero; lia).
      destruct IHc as (r & Hrc & Hup); [lia|]. rewrite Hrc. exists (0 :: r).
      split; [done|]. rewrite updateAt_below by (eapply findRef_nonempty; eauto).
      rewrite Hup, (graft_absent _ _ _ Hr). reflexivity.
Qed.

Lemma occurrences_graft x t cs F :
  x ∉ forestIds cs → occurrences x (graft t cs F) = occurrences x F.
Proof.
  intros Hx. apply occurrences_zero in Hx.
  induction F as [|c rest IHc IHr] using forest_ind; [reflexivity|].
  rewrite graft_cons, !occurrences_cons. cbn [id children setChildren].
  rewrite occurrences_app, IHc, IHr.
  destruct (decide (id c = t)); [rewrite Hx|]; cbn; lia.
Qed.

Lemma elem_of_flatten_app k F G :
  k ∈ flattenForest (F ++ G) ↔ k ∈ flattenForest F ∨ k ∈ flattenForest G.
Proof. rewrite flattenForest_app, elem_of_app. reflexivity. Qed.

(** The node grafted onto survives the pruning, with the grafted children at
    the end of its own, as long as no node that carries the pruned id holds it. *)
Lemma grafted_target n cs F td :
  td ∈ flattenForest F →
  (∀ k, k ∈ flattenForest F → id k = n → id td ∉ nodeIds k) →
  n ∉ forestIds cs →
  ∃ td', td' ∈ flattenForest (prune n (graft (id td) cs F)) ∧
         id td' = id td ∧ name td' = name td ∧
         children td' = prune n (graft (id td) cs (children td)) ++ cs.
Proof.
  intros Htd Hhold Hcs. revert Htd Hhold.
  induction F as [|c rest IHc IHr] using forest_ind; intros Htd Hhold; [inversion Htd|].
  rewrite graft_cons, prune_cons. cbn [id children setChildren].
  assert (Hhc : ∀ k, k ∈ flattenForest (children c) → id k = n → id td ∉ nodeIds k).
  { intros k Hk. apply Hhold, elem_of_flatten_cons. auto. }
  assert (Hhr : ∀ k, k ∈ flattenForest rest → id k = n → id td ∉ nodeIds k).
  { intros k Hk. apply Hhold, elem_of_flatten_cons. auto. }
  apply elem_of_flatten_cons in Htd as [->|[Htd|Htd]].
  - assert (Hne : id c ≠ n).
    { intros Heq. apply (Hhold c); [apply elem_of_flatten_cons; auto|done|apply id_in_nodeIds]. }
    rewrite decide_False by done. rewrite decide_True by done.
    eexists. split; [apply elem_of_flatten_cons; left; reflexivity|].
    cbn [id name children setChildren]. rewrite prune_app, (prune_absent _ cs) by done. done.
  - assert (Hne : id c ≠ n).
    { intros Heq. apply (Hhold c); [apply elem_of_flatten_cons; auto|done|].
      rewrite nodeIds_eq. right. apply id_in_forestIds, Htd. }
    rewrite decide_False by done.
    destruct (IHc Htd Hhc) as (td' & Hin & Hrest). exists td'. split; [|exact Hrest].
    apply elem_of_flatten_cons. right; left. cbn [children setChildren].
    rewrite prune_app. apply elem_of_flatten_app. left. exact Hin.
  - destruct (IHr Htd Hhr) as (td' & Hin & Hrest). exists td'. split; [|exact Hrest].
    destruct (decide (id c = n)); [exact Hin|].
    apply elem_of_flatten_cons. right; right. exact Hin.
Qed.

Lemma graftNode_apart t cs c :
  t ∉ nodeIds c →
  setChildren c (graft t cs (children c) ++ (if decide (id c = t) then cs else [])) = c.
Proof.
  rewrite nodeIds_eq, not_elem_of_cons. intros [Hne Hc].
  rewrite decide_False by congruence.
  rewrite (graft_absent _ _ _ Hc), app_nil_r. apply setChildren_same.
Qed.

(** A subtree that holds neither id stays where it is, as long as no node that
    carries the pruned id is above it. *)
Lemma untouched_subtree n t cs F k :
  k ∈ flattenForest F →
  t ∉ nodeIds k → n ∉ nodeIds k →
  (∀ a, a ∈ flattenForest F → id a = n → k ∉ descendants a) →
  k ∈ flattenForest (prune n (graft t cs F)).
Proof.
  intros Hk Ht Hn. revert Hk.
  induction F as [|c rest IHc IHr] using forest_ind; intros Hk Hab; [inversion Hk|].
  rewrite graft_cons, prune_cons. cbn [id children setChildren].
  assert (Habc : ∀ a, a ∈ flattenForest (children c) → id a = n → k ∉ descendants a).
  { intros a Ha. apply Hab, elem_of_flatten_cons. auto. }
  assert (Habr : ∀ a, a ∈ flattenForest rest → id a = n → k ∉ descendants a).
  { intros a Ha. apply Hab, elem_of_flatten_cons. auto. }
  apply elem_of_flatten_cons in Hk as [->|[Hk|Hk]].
  - rewrite decide_False by (intros Heq; apply Hn; rewrite <- Heq; apply id_in_nodeIds).
    apply elem_of_flatten_cons. left.
    rewrite nodeIds_eq, not_elem_of_cons in Ht. destruct Ht as [Hne Hc].
    rewrite nodeIds_eq, not_elem_of_cons in Hn. destruct Hn as [_ Hnc].
    rewrite decide_False by congruence.
    rewrite (graft_absent _ _ _ Hc), app_nil_r, (prune_absent _ _ Hnc).
    destruct c; reflexivity.
  - assert (Hne : id c ≠ n).
    { intros Heq. apply (Hab c); [apply elem_of_flatten_cons; auto|done|exact Hk]. }
    rewrite decide_False by done.
    apply elem_of_flatten_cons. right; left. cbn [children setChildren].
    rewrite prune_app. apply elem_of_flatten_app. left. apply IHc; done.
  - destruct (decide (id c = n)); [apply IHr; done|].
    apply elem_of_flatten_cons. right; right. apply IHr; done.
Qed.

Lemma findRef_deref F t r : findRef F t = Some r → is_Some (deref F r).
Proof.
  intros Hr. destruct (decide (t ∈ forestIds F)) as [Hin|Hout].
  - destruct (findRef_Some _ _ Hin) as (r' & m & Hr' & Hd & _). 
    rewrite Hr in Hr'. injection Hr' as <-. eauto.
  - rewrite findRef_None in Hr by done. discriminate.
Qed.

Lemma subtree_size F k :
  k ∈ flattenForest F → length (flattenNode k) ≤ length (flattenForest F).
Proof.
  revert k. induction F as [|c rest IHc IHr] using forest_ind; intros k Hk; [inversion Hk|].
  rewrite flattenForest_cons. cbn [length]. rewrite length_app.
  apply elem_of_flatten_cons in Hk as [->|[Hk|Hk]].
  - rewrite flattenNode_eq. unfold descendants. cbn [length]. lia.
  - specialize (IHc _ Hk). lia.
  - specialize (IHr _ Hk). lia.
Qed.

(** A node is not among its own descendants. *)
Lemma not_own_descendant k : k ∉ descendants k.
Proof.
  intros Hk. apply subtree_size in Hk. rewrite flattenNode_eq in Hk.
  unfold descendants in Hk. cbn [length] in Hk. lia.
Qed.

(** The forest left by [confirmReassignChildren] when its guards pass. *)
Lemma forest_confirmReassignChildren newId now st m td :
  uniqueIds (forest st) →
  m ∈ flattenForest (forest st) → td ∈ flattenForest (forest st) →
  id m ≠ [] → id td ≠ [] → id td ∉ nodeIds m →
  dialog_nodeId (deleteDialog st) = Some (id m) →
  reassignTargetId st = Some (id td) →
  forest (confirmReassignChildren newId now st)
  = prune (id m) (graft (id td) (children m) (forest st)).
Proof.
  intros Hu Hm Htd Hmne Htne Hapart Hn Ht.
  pose proof Hapart as Hapart'.
  rewrite nodeIds_eq, not_elem_of_cons in Hapart'. destruct Hapart' as [Hne Hnd].
  unfold confirmReassignChildren. rewrite Hn, Ht. cbn [falsyOpt from_option Datatypes.id].
  destruct (id m) as [|a1 l1] eqn:Eidm; [done|]. destruct (id td) as [|a2 l2] eqn:Eidt; [done|].
  cbn [falsy orb]. rewrite <- Eidm, <- Eidt in *.
  rewrite bool_decide_eq_false_2 by done.
  assert (Hdesc : isDescendant (forest st) (id m) (id td) = false).
  { apply not_true_is_false. rewrite isDescendant_spec by done. exact Hnd. }
  rewrite Hdesc. cbn [orb].
  fold (findNode (forest st) (id m)). rewrite findNode_unique by done.
  destruct (graft_once (id td) (children m) (forest st)) as (r & Hr & Hup).
  { apply occurrences_unique; [done|apply id_in_forestIds, Htd]. }
  unfold findNodeAndParent at 1. rewrite Hr. cbn [node].
  rewrite Hup. cbn [forest setForest closeDeleteDialog addChange setChangeLog
                    setReassignTargetId setDeleteDialog].
  apply removeFrom_once. rewrite occurrences_graft.
  - apply occurrences_unique; [done|apply id_in_forestIds, Hm].
  - intros Hin. unfold uniqueIds in Hu.
    destruct (findRef_Some _ _ Hin) as (_ & k & _ & _ & Hid & Hk).
    assert (k = m).
    { eapply NoDup_fmap_eq; [exact Hu| |exact Hm|exact Hid].
      exact (descendants_in_forest _ _ _ Hm Hk). }
    subst k. exact (not_own_descendant _ Hk).
Qed.

Lemma graft_ids t cs F x :
  x ∈ forestIds (graft t cs F) → x ∈ forestIds F ∨ x ∈ forestIds cs.
Proof.
  induction F as [|c rest IHc IHr] using forest_ind; [intros H; inversion H|].
  rewrite graft_cons, !elem_of_forestIds_cons. cbn [id children setChildren].
  rewrite forestIds_app, elem_of_app.
  intros [?|[[?|Hx]|?]]; [tauto|tauto| |tauto].
  destruct (decide (id c = t)); [tauto|inversion Hx].
Qed.

Lemma graft_keeps_ids t cs F x : x ∈ forestIds F → x ∈ forestIds (graft t cs F).
Proof.
  induction F as [|c rest IHc IHr] using forest_ind; [done|].
  rewrite graft_cons, !elem_of_forestIds_cons. cbn [id children setChildren].
  rewrite forestIds_app, elem_of_app. tauto.
Qed.

Lemma graft_keeps_subtree t cs F k :
  k ∈ flattenForest F → t ∉ nodeIds k → k ∈ flattenForest (graft t cs F).
Proof.
  intros Hk Ht. revert Hk.
  induction F as [|c rest IHc IHr] using forest_ind; intros Hk; [inversion Hk|].
  rewrite graft_cons. apply elem_of_flatten_cons. cbn [children setChildren].
  apply elem_of_flatten_cons in Hk as [->|[Hk|Hk]]; [left|right; left|right; right; auto].
  - rewrite graftNode_apart by done. reflexivity.
  - apply elem_of_flatten_app. left. auto.
Qed.

(** An id either survives the pruning or sits in a subtree whose root
    carries the pruned id. *)
Lemma prune_ids_or_below n F x :
  x ∈ forestIds F →
  x ∈ forestIds (prune n F) ∨ ∃ a, a ∈ flattenForest F ∧ id a = n ∧ x ∈ nodeIds a.
Proof.
  induction F as [|c rest IHc IHr] using forest_ind; [intros H; inversion H|].
  rewrite prune_cons. intros Hx.
  assert (Hc : c ∈ flattenForest (c :: rest)) by (apply elem_of_flatten_cons; auto).
  apply elem_of_forestIds_cons in Hx as [->|[Hx|Hx]].
  - destruct (decide (id c = n)).
    + right. exists c. split; [done|]. split; [done|apply id_in_nodeIds].
    + left. apply elem_of_forestIds_cons. auto.
  - destruct (decide (id c = n)).
    + right. exists c. split; [done|]. split; [done|]. rewrite nodeIds_eq. right. exact Hx.
    + destruct (IHc Hx) as [Hl|(a & Ha & Hid & Hxa)].
      * left. apply elem_of_forestIds_cons. auto.
      * right. exists a. rewrite elem_of_flatten_cons. auto.
  - destruct (IHr Hx) as [Hl|(a & Ha & Hid & Hxa)].
    + left. destruct (decide (id c = n)); [done|]. apply elem_of_forestIds_cons. auto.
    + right. exists a. rewrite elem_of_flatten_cons. auto.
Qed.

(** Two nodes that carry an id occurring once are the same node. *)
Lemma occurs_once_same x F a b :
  occurrences x F = 1 →
  a ∈ flattenForest F → b ∈ flattenForest F → id a = x → id b = x → a = b.
Proof.
  revert a b. induction F as [|c rest IHc IHr] using forest_ind;
    intros a b Hocc Ha Hb Hida Hidb; [inversion Ha|].
  rewrite occurrences_cons in Hocc.
  assert (Hout : ∀ G k, occurrences x G = 0 → k ∈ flattenForest G → id k = x → False).
  { intros G k Hz Hk Hid. apply occurrences_zero in Hz. apply Hz.
    rewrite <- Hid. apply id_in_forestIds, Hk. }
  apply elem_of_flatten_cons in Ha, Hb.
  destruct (decide (id c = x)) as [Hc|Hc].
  - destruct Ha as [->|[Ha|Ha]]; [|exfalso; eapply Hout; [|exact Ha|exact Hida]; lia..].
    destruct Hb as [->|[Hb|Hb]]; [done|exfalso; eapply Hout; [|exact Hb|exact Hidb]; lia..].
  - destruct Ha as [->|Ha]; [done|]. destruct Hb as [->|Hb]; [done|].
    destruct (decide (occurrences x (children c) = 0)) as [Hz|Hnz].
    + destruct Ha as [Ha|Ha]; [exfalso; eapply Hout; [exact Hz|exact Ha|exact Hida]|].
      destruct Hb as [Hb|Hb]; [exfalso; eapply Hout; [exact Hz|exact Hb|exact Hidb]|].
      apply IHr; [lia|done..].
    + destruct Ha as [Ha|Ha]; [|exfalso; eapply Hout; [|exact Ha|exact Hida]; lia].
      destruct Hb as [Hb|Hb]; [|exfalso; eapply Hout; [|exact Hb|exact Hidb]; lia].
      apply IHc; [lia|done..].
Qed.

(** *** The ids stay unique *)

Lemma occurrences_le_one x F : uniqueIds F → occurrences x F ≤ 1.
Proof.
  intros Hu. destruct (decide (x ∈ forestIds F)) as [Hin|Hout].
  - rewrite occurrences_unique by done. lia.
  - apply occurrences_zero in Hout. lia.
Qed.

Lemma uniqueIds_of_occurrences F : (∀ x, occurrences x F ≤ 1) → uniqueIds F.
Proof.
  unfold uniqueIds, occurrences. induction (forestIds F) as [|z l IH]; intros Hocc.
  - constructor.
  - constructor.
    + intros Hin. specialize (Hocc z). rewrite filter_cons_True in Hocc by done.
      cbn [length] in Hocc.
      assert (Hpos : 0 < length (filter (λ y, y = z) l)); [|lia].
      apply list_elem_of_split in Hin as (l1 & l2 & ->).
      rewrite filter_app, filter_cons_True, length_app by done. cbn [length]. lia.
    + apply IH. intros x. specialize (Hocc x). rewrite filter_cons in Hocc.
      destruct (decide (z = x)); cbn [length] in Hocc; lia.
Qed.

Lemma occurrences_graft_once x t cs F :
  occurrences t F = 1 →
  occurrences x (graft t cs F) = occurrences x F + occurrences x cs.
Proof.
  induction F as [|c rest IHc IHr] using forest_ind; [discriminate|].
  rewrite graft_cons, !occurrences_cons. cbn [id children setChildren].
  rewrite occurrences_app. intros Hocc.
  assert (Hz : ∀ G, occurrences t G = 0 → occurrences x (graft t cs G) = occurrences x G).
  { intros G HG. rewrite graft_absent; [done|]. apply occurrences_zero, HG. }
  destruct (decide (id c = t)) as [Ht|Ht].
  - rewrite !Hz by lia. lia.
  - change (occurrences x []) with 0.
    destruct (decide (occurrences t (children c) = 0)) as [Hc|Hc].
    + rewrite (Hz _ Hc), IHr by lia. lia.
    + rewrite IHc, (Hz rest) by lia. lia.
Qed.

(** Pruning an id that occurs once takes away the subtree below it and
    nothing else. *)
Lemma occurrences_prune_once x n F a :
  occurrences n F = 1 → a ∈ flattenForest F → id a = n → x ≠ n →
  occurrences x F = occurrences x (prune n F) + occurrences x (children a).
Proof.
  revert a. induction F as [|c rest IHc IHr] using forest_ind;
    intros a Hocc Ha Hid Hx; [inversion Ha|].
  pose proof Hocc as Hocc'. rewrite occurrences_cons in Hocc'.
  rewrite prune_cons, occurrences_cons.
  assert (Hkeep : ∀ G, occurrences n G = 0 → prune n G = G).
  { intros G HG. apply prune_absent, occurrences_zero, HG. }
  assert (Hnot : ∀ G, occurrences n G = 0 → a ∉ flattenForest G).
  { intros G HG Hin. apply occurrences_zero in HG. apply HG.
    rewrite <- Hid. apply id_in_forestIds, Hin. }
  destruct (decide (id c = n)) as [Hc|Hc].
  - assert (a = c) as ->.
    { eapply (occurs_once_same n); [exact Hocc|exact Ha| |exact Hid|exact Hc].
      apply elem_of_flatten_cons. auto. }
    rewrite decide_False by congruence. rewrite Hkeep by lia. lia.
  - rewrite occurrences_cons. cbn [id children setChildren].
    apply elem_of_flatten_cons in Ha as [->|[Ha|Ha]]; [done| |].
    + assert (occurrences n rest = 0).
      { destruct (decide (occurrences n (children c) = 0)) as [Hz|Hz]; [|lia].
        exfalso. exact (Hnot _ Hz Ha). }
      rewrite (Hkeep rest) by done. rewrite (IHc a) by (done || lia). lia.
    + assert (occurrences n (children c) = 0).
      { destruct (decide (occurrences n rest = 0)) as [Hz|Hz]; [|lia].
        exfalso. exact (Hnot _ Hz Ha). }
      rewrite (Hkeep (children c)) by done. rewrite (IHr a) by (done || lia). lia.
Qed.

Lemma occurrences_prune_self n F : occurrences n (prune n F) = 0.
Proof. apply occurrences_zero, prune_removes. Qed.

(** Deleting a node and handing its children to a node outside its subtree
    keeps the ids of the forest pairwise distinct. *)
Lemma reassign_keeps_uniqueIds F m td :
  uniqueIds F → m ∈ flattenForest F → td ∈ flattenForest F →
  id td ∉ nodeIds m →
  uniqueIds (prune (id m) (graft (id td) (children m) F)).
Proof.
  intros Hu Hm Htd Hapart. apply uniqueIds_of_occurrences. intros x.
  destruct (decide (x = id m)) as [->|Hx]; [rewrite occurrences_prune_self; lia|].
  assert (Hcs : id m ∉ forestIds (children m)).
  { intros Hin. apply elem_of_forestIds in Hin as (k & Hk & Hid).
    assert (k = m) as ->; [|exact (not_own_descendant _ Hk)].
    eapply NoDup_fmap_eq; [exact Hu| |exact Hm|exact Hid].
    exact (descendants_in_forest _ _ _ Hm Hk). }
  pose proof (occurrences_prune_once x (id m) (graft (id td) (children m) F) m) as Hpr.
  rewrite occurrences_graft in Hpr by done.
  rewrite occurrences_graft_once in Hpr
    by (apply occurrences_unique; [done|apply id_in_forestIds, Htd]).
  specialize (Hpr (occurrences_unique _ _ Hu (id_in_forestIds _ _ Hm))
                  (graft_keeps_subtree _ _ _ _ Hm Hapart) eq_refl Hx).
  pose proof (occurrences_le_one x F Hu). lia.
Qed.

(** C2.  On a forest with unique ids, let the delete dialog hold node [m] and
    the picked target [td], both in the forest and with non-empty ids, [td]
    being neither [m] nor one of its descendants.  After
    [confirmReassignChildren] the target is still in the forest under its id
    and name, and its children are its former children (without [m], should
    [m] have been one of them) followed by the children of [m], subtrees
    included, in their order; the ids of the forest are the former ids
    without that of [m]; every subtree of the forest that holds neither id is
    still in the forest as it was; and the roots are the former roots in
    their order without [m]; and the ids are still unique. *)
Theorem reassign_delete_moves_children
    (newId : jsstring) (now : Z) (st : AppState) (m td : TreeNode) :
  uniqueIds (forest st) →
  m ∈ flattenForest (forest st) →
  td ∈ flattenForest (forest st) →
  id m ≠ [] → id td ≠ [] →
  id td ∉ nodeIds m →
  dialog_nodeId (deleteDialog st) = Some (id m) →
  reassignTargetId st = Some (id td) →
  let after := forest (confirmReassignChildren newId now st) in
  (∃ td' pre,
      td' ∈ flattenForest after ∧ id td' = id td ∧ name td' = name td ∧
      children td' = pre ++ children m ∧
      id <$> pre = filter (λ z, z ≠ id m) (id <$> children td)) ∧
  (∀ x, x ∈ forestIds after ↔ x ∈ forestIds (forest st) ∧ x ≠ id m) ∧
  (∀ k, k ∈ flattenForest (forest st) →
        id m ∉ nodeIds k → id td ∉ nodeIds k → k ∈ flattenForest after) ∧
  id <$> after = filter (λ z, z ≠ id m) (id <$> forest st) ∧
  uniqueIds after.
Proof.
  intros Hu Hm Htd Hmne Htne Hapart Hn Ht after. subst after.
  rewrite (forest_confirmReassignChildren newId now st m td) by done.
  assert (Hsame : ∀ k, k ∈ flattenForest (forest st) → id k = id m → k = m).
  { intros k Hk Hid. eapply NoDup_fmap_eq; [exact Hu|exact Hk|exact Hm|exact Hid]. }
  assert (Hcs : id m ∉ forestIds (children m)).
  { intros Hin. apply elem_of_forestIds in Hin as (k & Hk & Hid).
    rewrite (Hsame k (descendants_in_forest _ _ _ Hm Hk) Hid) in Hk.
    exact (not_own_descendant _ Hk). }
  destruct (grafted_target (id m) (children m) (forest st) td Htd) as (td' & Hin & Hid & Hnm & Hch).
  { intros k Hk Hidk. rewrite (Hsame k Hk Hidk). exact Hapart. }
  { exact Hcs. }
  split; [|split; [|split; [|split]]].
  - exists td', (prune (id m) (graft (id td) (children m) (children td))).
    rewrite prune_roots, graft_roots. done.
  - intros x. split.
    + intros Hx. split; [|intros ->; exact (prune_removes _ _ Hx)].
      apply prune_ids_subseteq, graft_ids in Hx as [Hx|Hx]; [done|].
      exact (descendant_ids_in_forest _ _ Hm _ Hx).
    + intros [Hx Hxn].
      destruct (prune_ids_or_below (id m) _ x (graft_keeps_ids (id td) (children m) _ _ Hx))
        as [Hl|(a & Ha & Hida & Hxa)]; [done|].
      assert (a = m) as ->.
      { eapply (occurs_once_same (id m)); [|exact Ha| |exact Hida|reflexivity].
        - rewrite occurrences_graft by done.
          apply occurrences_unique; [done|apply id_in_forestIds, Hm].
        - apply graft_keeps_subtree; done. }
      rewrite nodeIds_eq in Hxa. apply elem_of_cons in Hxa as [?|Hxa]; [done|].
      eapply descendant_ids_in_forest; [exact Hin|].
      rewrite Hch, forestIds_app, elem_of_app. right. exact Hxa.
  - intros k Hk Hkn Hkt.
    destruct (decide (k ∈ descendants m)) as [Hd|Hd].
    + eapply descendants_in_forest; [exact Hin|]. unfold descendants.
      rewrite Hch. apply elem_of_flatten_app. right. exact Hd.
    + apply untouched_subtree; [done..|].
      intros a Ha Hida. rewrite (Hsame a Ha Hida). exact Hd.
  - rewrite prune_roots, graft_roots. reflexivity.
  - apply reassign_keeps_uniqueIds; done.
Qed.

Lemma reassign_delete_moves_children_witness :
  let after := forest (confirmReassignChildren (js "u1") 7 reassignOntoD) in
  (∃ td' pre,
      td' ∈ flattenForest after ∧ id td' = js "D" ∧ name td' = js "D" ∧
      children td' = pre ++ [leaf "B"; leaf "C"] ∧
      id <$> pre = filter (λ z, z ≠ js "A") []) ∧
  (∀ x, x ∈ forestIds after ↔ x ∈ forestIds (forest reassignOntoD) ∧ x ≠ js "A") ∧
  (∀ k, k ∈ flattenForest (forest reassignOntoD) →
        js "A" ∉ nodeIds k → js "D" ∉ nodeIds k → k ∈ flattenForest after) ∧
  id <$> after = filter (λ z, z ≠ js "A") (id <$> forest reassignOntoD) ∧
  uniqueIds after.
Proof.
  apply (reassign_delete_moves_children (js "u1") 7 reassignOntoD
           (inner "A" [leaf "B"; leaf "C"]) (leaf "D")).
  - by_evaluation.
  - by_evaluation.
  - by_evaluation.
  - by_evaluation.
  - by_evaluation.
  - by_evaluation.
  - reflexivity.
  - reflexivity.
Defined.

(** ** Numbers

    Counting in binary64 is exact below 2^53. *)

Lemma iter_pos_nat {A} (f : A → A) p : ∀ x, SpecFloat.iter_pos f p x = Nat.iter (Pos.to_nat p) f x.
Proof.
  induction p as [p IH|p IH|]; intros x; cbn [SpecFloat.iter_pos].
  - rewrite !IH, Pos2Nat.inj_xI, !Nat.iter_swap, Nat.iter_succ, <- Nat.iter_add.
    f_equal. f_equal. lia.
  - rewrite !IH, Pos2Nat.inj_xO, <- Nat.iter_add. f_equal. lia.
  - reflexivity.
Qed.

Lemma shiftn_S q k : shiftn q (S k) = xO (shiftn q k).
Proof. reflexivity. Qed.

Lemma shiftn_add q a b : shiftn (shiftn q a) b = shiftn q (a + b).
Proof. unfold shiftn. rewrite <- Nat.iter_add. f_equal. lia. Qed.

Lemma pos_iter_shiftn q p : Pos.iter xO q p = shiftn q (Pos.to_nat p).
Proof. apply Pos2Nat.inj_iter. Qed.

Lemma digits_shiftn q k :
  Zpos (digits2_pos (shiftn q k)) = (Zpos (digits2_pos q) + Z.of_nat k)%Z.
Proof.
  induction k as [|k IH]; [cbn; lia|].
  rewrite shiftn_S. cbn [digits2_pos]. lia.
Qed.

Lemma Zpos_shiftn q k : Zpos (shiftn q k) = (Zpos q * 2 ^ Z.of_nat k)%Z.
Proof.
  induction k as [|k IH]; [cbn; lia|].
  rewrite shiftn_S, Nat2Z.inj_succ, Z.pow_succ_r by lia. lia.
Qed.

Lemma digits_bounds p :
  (2 ^ (Zpos (digits2_pos p) - 1) <= Zpos p < 2 ^ Zpos (digits2_pos p))%Z.
Proof.
  induction p as [p IH|p IH|]; cbn [digits2_pos].
  - rewrite Pos2Z.inj_succ. replace (Z.succ (Zpos (digits2_pos p)) - 1)%Z
      with (Z.succ (Zpos (digits2_pos p) - 1))%Z by lia.
    rewrite !Z.pow_succ_r by lia. lia.
  - rewrite Pos2Z.inj_succ. replace (Z.succ (Zpos (digits2_pos p)) - 1)%Z
      with (Z.succ (Zpos (digits2_pos p) - 1))%Z by lia.
    rewrite !Z.pow_succ_r by lia. lia.
  - cbn. lia.
Qed.

Lemma digits_le p k : (0 <= k)%Z → (Zpos p < 2 ^ k)%Z → (Zpos (digits2_pos p) <= k)%Z.
Proof.
  intros Hk Hp. destruct (digits_bounds p) as [Hlo _].
  destruct (Z_le_gt_dec (Zpos (digits2_pos p)) k) as [|Hgt]; [assumption|].
  assert (2 ^ k <= 2 ^ (Zpos (digits2_pos p) - 1))%Z by (apply Z.pow_le_mono_r; lia).
  lia.
Qed.

(** [shr] by [n] steps on a mantissa with at least [n] trailing zeros. *)
Lemma shr_1_exact q : shr_1 {| shr_m := Zpos (xO q); shr_r := false; shr_s := false |}
                      = {| shr_m := Zpos q; shr_r := false; shr_s := false |}.
Proof. reflexivity. Qed.

Lemma iter_shr_exact q k :
  Nat.iter k shr_1 {| shr_m := Zpos (shiftn q k); shr_r := false; shr_s := false |}
  = {| shr_m := Zpos q; shr_r := false; shr_s := false |}.
Proof.
  induction k as [|k IH]; [reflexivity|].
  rewrite Nat.iter_succ_r, shiftn_S, shr_1_exact. exact IH.
Qed.

Lemma shr_exact q (k j : nat) e :
  shr {| shr_m := Zpos (shiftn q (j + k)); shr_r := false; shr_s := false |} e (Z.of_nat k)
  = ({| shr_m := Zpos (shiftn q j); shr_r := false; shr_s := false |}, (e + Z.of_nat k)%Z).
Proof.
  destruct k as [|k].
  - change (Z.of_nat 0) with 0%Z. cbn [shr]. rewrite Nat.add_0_r, Z.add_0_r. reflexivity.
  - rewrite <- shiftn_add. change (Z.of_nat (S k)) with (Zpos (Pos.of_succ_nat k)).
    cbn [shr]. rewrite iter_pos_nat, SuccNat2Pos.id_succ.
    rewrite iter_shr_exact. reflexivity.
Qed.

(** Rounding a mantissa that fits in 53 bits is exact. *)
Lemma round_aux_exact s q (j : nat) e :
  let d := Zpos (digits2_pos q) in
  (d <= 53)%Z → (53 <= d + Z.of_nat j)%Z →
  (-1074 <= e + d + Z.of_nat j - 53 <= 971)%Z →
  binary_round_aux 53 1024 s (Zpos (shiftn q j)) e loc_Exact
  = S754_finite s (shiftn q (Z.to_nat (53 - d))) (e + d + Z.of_nat j - 53).
Proof.
  intros d Hd Hj He.
  set (n := Z.to_nat (d + Z.of_nat j - 53)).
  set (j' := Z.to_nat (53 - d)).
  assert (Hjn : j = (j' + n)%nat) by (subst j' n; lia).
  unfold binary_round_aux, shr_fexp. cbn [shr_record_of_loc Zdigits2].
  rewrite digits_shiftn. fold d.
  assert (Hfexp : (fexp 53 1024 (d + Z.of_nat j + e) - e = Z.of_nat n)%Z).
  { unfold fexp, emin. subst n. lia. }
  rewrite Hfexp, Hjn, shr_exact. cbn [shr_m loc_of_shr_record round_nearest_even Zdigits2].
  rewrite digits_shiftn. fold d.
  assert (Hfexp2 : (fexp 53 1024 (d + Z.of_nat j' + (e + Z.of_nat n)) - (e + Z.of_nat n) = 0)%Z).
  { unfold fexp, emin. subst n j'. lia. }
  rewrite Hfexp2. cbn [shr shr_m].
  replace (e + Z.of_nat n <=? 1024 - 53)%Z with true by (symmetry; apply Z.leb_le; subst n; lia).
  f_equal. subst n. lia.
Qed.

Lemma shl_align_left m e e' :
  (e' <= e)%Z → shl_align m e e' = (shiftn m (Z.to_nat (e - e')), e').
Proof.
  intros Hle. unfold shl_align. destruct (e' - e)%Z as [|p|p] eqn:Hsub; try lia.
  - assert (e' = e) by lia. subst e'. rewrite Z.sub_diag. reflexivity.
  - rewrite pos_iter_shiftn. do 2 f_equal. lia.
Qed.

Lemma shl_align_right m e e' : (e <= e')%Z → shl_align m e e' = (m, e).
Proof.
  intros Hle. unfold shl_align. destruct (e' - e)%Z as [|p|p] eqn:Hsub; try lia; reflexivity.
Qed.

Lemma round_exact s q (j : nat) e :
  let d := Zpos (digits2_pos q) in
  (d <= 53)%Z → (-1074 <= e + d + Z.of_nat j - 53 <= 971)%Z →
  binary_round 53 1024 s (shiftn q j) e
  = S754_finite s (shiftn q (Z.to_nat (53 - d))) (e + d + Z.of_nat j - 53).
Proof.
  intros d Hd He. unfold binary_round. rewrite digits_shiftn. fold d.
  assert (Hfexp : fexp 53 1024 (d + Z.of_nat j + e) = (e + d + Z.of_nat j - 53)%Z).
  { unfold fexp, emin. lia. }
  rewrite Hfexp.
  destruct (Z_le_gt_dec 53 (d + Z.of_nat j)) as [Hge|Hlt].
  - rewrite shl_align_right by lia. apply round_aux_exact; assumption.
  - rewrite shl_align_left by lia. rewrite shiftn_add.
    rewrite (round_aux_exact s q) by (fold d; lia). fold d. f_equal. lia.
Qed.

Lemma numOfNat_normal (p : positive) :
  (Zpos p < 2 ^ 53)%Z → numOfNat (Pos.to_nat p) = normalOf p.
Proof.
  intros Hp. pose proof (digits_le p 53 ltac:(lia) Hp) as Hd.
  unfold numOfNat. rewrite positive_nat_Z. cbn [binary_normalize].
  change p with (shiftn p 0) at 1. rewrite round_exact by (cbn [Z.of_nat]; lia).
  unfold normalOf. f_equal; cbn [Z.of_nat]; lia.
Qed.

Lemma numAdd_one (n : nat) :
  (Z.of_nat n + 1 < 2 ^ 53)%Z → numAdd (numOfNat n) (numOfNat 1) = numOfNat (S n).
Proof.
  intros Hn. destruct n as [|n]; [reflexivity|].
  rewrite <- (SuccNat2Pos.id_succ n) at 1. rewrite <- (SuccNat2Pos.id_succ (S n)).
  set (p := Pos.of_succ_nat n) in *.
  assert (Hp : Zpos p = Z.of_nat (S n)) by (subst p; lia).
  assert (Hp1 : Pos.of_succ_nat (S n) = (p + 1)%positive) by (subst p; lia).
  rewrite Hp1, !numOfNat_normal by lia.
  change (numOfNat 1) with (S754_finite false (shiftn 1 52) (-52)).
  pose proof (digits_le p 53 ltac:(lia) ltac:(lia)) as Hd.
  pose proof (digits_le (p + 1) 53 ltac:(lia) ltac:(lia)) as Hd1.
  assert (Hdpos : (1 <= Zpos (digits2_pos p))%Z) by lia.
  unfold normalOf, numAdd, SFadd.
  set (d := Zpos (digits2_pos p)) in *.
  rewrite Z.min_r by lia.
  rewrite shl_align_left by lia. rewrite shl_align_left by lia.
  cbn [fst cond_Zopp]. rewrite !shiftn_add.
  replace (Z.to_nat (53 - d) + Z.to_nat (d - 53 - -52))%nat with 52%nat by lia.
  replace (52 + Z.to_nat (-52 - -52))%nat with 52%nat by lia.
  assert (Hsum : (Zpos (shiftn p 52) + Zpos (shiftn 1 52))%Z = Zpos (shiftn (p + 1) 52)).
  { rewrite !Zpos_shiftn. lia. }
  rewrite Hsum. cbn [binary_normalize].
  rewrite round_exact by lia. f_equal. lia.
Qed.

Lemma Qred_inject_Z (z : Z) : Qred (inject_Z z) = inject_Z z.
Proof.
  unfold Qred, inject_Z.
  pose proof (Z.ggcd_gcd z 1) as Hg. pose proof (Z.ggcd_correct_divisors z 1) as Hd.
  destruct (Z.ggcd z 1) as [g [aa bb]]. cbn [fst snd] in *.
  rewrite Z.gcd_1_r in Hg. subst g. destruct Hd as [Ha Hb].
  rewrite Z.mul_1_l in Ha, Hb. subst aa bb. reflexivity.
Qed.

Lemma valueOf_numOfNat (n : nat) :
  (Z.of_nat n < 2 ^ 53)%Z → valueOf (numOfNat n) = Some (inject_Z (Z.of_nat n)).
Proof.
  intros Hn. destruct n as [|n]; [reflexivity|].
  rewrite <- (SuccNat2Pos.id_succ n) at 1.
  set (p := Pos.of_succ_nat n) in *.
  assert (Hp : Zpos p = Z.of_nat (S n)) by (subst p; lia).
  rewrite numOfNat_normal by lia. rewrite <- Hp.
  pose proof (digits_le p 53 ltac:(lia) ltac:(lia)) as Hd.
  unfold normalOf, valueOf. f_equal.
  rewrite <- (Qred_inject_Z (Zpos p)).
  apply Qred_complete.
  set (d := Zpos (digits2_pos p)) in *.
  destruct (d - 53)%Z as [|k|k] eqn:Hk; try lia.
  - replace (Z.to_nat (53 - d)) with 0%nat by lia. reflexivity.
  - replace (Z.to_nat (53 - d)) with (Pos.to_nat k) by lia.
    unfold Qeq, inject_Z. cbn [Qnum Qden]. rewrite Zpos_shiftn, positive_nat_Z.
    rewrite Pos2Z.inj_pow. lia.
Qed.

(** ** Layout *)

Lemma walk_eq n lvl st :
  walk n lvl st =
  match children n with
  | [] =>
      (leafY st, mkLayout (numAdd (leafY st) (numOfNat 1))
                   (<[id n := mkPos lvl (leafY st)]> (positions st)))
  | _ :: _ =>
      let '(childYs, st1) := walkAll (fun c => walk c (S lvl)) (children n) st in
      (meanY childYs, mkLayout (leafY st1) (<[id n := mkPos lvl (meanY childYs)]> (positions st1)))
  end.
Proof. destruct n as [i nm [|c cs]]; reflexivity. Qed.

Lemma leaves_cons c rest :
  leaves (c :: rest) =
  (if isLeaf c then [c] else []) ++ leaves (children c) ++ leaves rest.
Proof.
  unfold leaves. rewrite flattenForest_cons, filter_cons, filter_app.
  destruct (isLeaf c); [rewrite decide_True by done|rewrite decide_False by done]; reflexivity.
Qed.

Lemma leafCount_cons c rest :
  leafCount (c :: rest) =
  (if isLeaf c then 1 else 0) + leafCount (children c) + leafCount rest.
Proof.
  unfold leafCount. rewrite leaves_cons, !length_app. destruct (isLeaf c); cbn; lia.
Qed.

Lemma leafCount_single c :
  leafCount [c] = (if isLeaf c then 1 else 0) + leafCount (children c).
Proof. rewrite leafCount_cons. change (leafCount []) with 0. lia. Qed.

(** A layout only depends on the positions of the ids of the trees laid out. *)
Lemma laidOutAll_frame F :
  ∀ pos pos' lvl c ys,
    laidOutAll pos lvl c F ys →
    (∀ x, x ∈ forestIds F → pos' !! x = pos !! x) →
    laidOutAll pos' lvl c F ys.
Proof.
  induction F as [|n rest IHn IHr] using forest_ind; intros pos pos' lvl c ys Hl Hag.
  - inversion Hl; subst. constructor.
  - inversion Hl as [|? ? ? ? y0 ys0 Hn Hrest]; subst. constructor.
    + inversion Hn as [? ? ? Hch Hpos|? ? ? cys Hch Hkids Hpos]; subst.
      * constructor; [done|]. rewrite Hag; [done|]. apply elem_of_forestIds_cons. auto.
      * constructor; [done| |].
        -- eapply IHn; [exact Hkids|]. intros x Hx. apply Hag, elem_of_forestIds_cons. auto.
        -- rewrite Hag; [done|]. apply elem_of_forestIds_cons. auto.
    + eapply IHr; [exact Hrest|]. intros x Hx. apply Hag, elem_of_forestIds_cons. auto.
Qed.

(** [walk] lays the trees out, advances the leaf counter by the number of
    leaves and touches no position of another id; the counter is exact as
    long as it stays below 2^53. *)
Lemma walkAll_laidOut F :
  ∀ lvl st c,
    leafY st = numOfNat c → (Z.of_nat (c + leafCount F) < 2 ^ 53)%Z →
    leafY (walkAll (λ n, walk n lvl) F st).2 = numOfNat (c + leafCount F) ∧
    (∀ x, x ∉ forestIds F →
          positions (walkAll (λ n, walk n lvl) F st).2 !! x = positions st !! x) ∧
    (uniqueIds F →
     laidOutAll (positions (walkAll (λ n, walk n lvl) F st).2) lvl c F
       (walkAll (λ n, walk n lvl) F st).1).
Proof.
  induction F as [|n rest IHn IHr] using forest_ind; intros lvl st c Hc Hbound.
  - cbn [walkAll fst snd]. change (leafCount []) with 0. rewrite Nat.add_0_r.
    split; [exact Hc|]. split; [done|]. constructor.
  - cbn [walkAll].
    assert (Hsplit : leafCount (n :: rest) = leafCount [n] + leafCount rest).
    { rewrite leafCount_cons, leafCount_single. lia. }
    (* the walk over the first tree *)
    assert (Hwalk :
      leafY (walk n lvl st).2 = numOfNat (c + leafCount [n]) ∧
      (∀ x, x ∉ nodeIds n → positions (walk n lvl st).2 !! x = positions st !! x) ∧
      (uniqueIds [n] → laidOut (positions (walk n lvl st).2) lvl c n (walk n lvl st).1)).
    { rewrite walk_eq. rewrite leafCount_single in *. unfold isLeaf in *.
      destruct (children n) as [|k ks] eqn:Hkids.
      - cbn [fst snd leafY positions]. change (leafCount []) with 0 in *.
        split; [|split].
        + rewrite Hc, numAdd_one by lia. f_equal. lia.
        + intros x Hx. rewrite nodeIds_eq, not_elem_of_cons in Hx. destruct Hx as [Hne Hx].
          rewrite lookup_insert_ne by congruence. done.
        + intros _. rewrite Hc. constructor; [done|]. apply lookup_insert_eq.
      - rewrite <- Hkids in *. specialize (IHn (S lvl) st c Hc ltac:(lia)).
        destruct (walkAll (λ c, walk c (S lvl)) (children n) st) as [cys st1].
        cbn [fst snd] in *. destruct IHn as (Hcnt & Hfr & Hlay). cbn [leafY positions].
        split; [exact Hcnt|]. split.
        + intros x Hx. rewrite nodeIds_eq, not_elem_of_cons in Hx. destruct Hx as [Hne Hx].
          rewrite lookup_insert_ne by congruence. apply Hfr. done.
        + intros Hu. apply uniqueIds_cons in Hu as (Hself & _ & Hu & _).
          constructor; [rewrite Hkids; done| |apply lookup_insert_eq].
          eapply laidOutAll_frame; [exact (Hlay Hu)|].
          intros x Hx. apply lookup_insert_ne. intros <-. done. }
    destruct (walk n lvl st) as [yn st1]. cbn [fst snd] in Hwalk.
    destruct Hwalk as (Hcnt1 & Hfr1 & Hlay1).
    specialize (IHr lvl st1 (c + leafCount [n]) Hcnt1 ltac:(lia)).
    destruct (walkAll (λ n0, walk n0 lvl) rest st1) as [ys st2]. cbn [fst snd] in *.
    destruct IHr as (Hcnt2 & Hfr2 & Hlay2).
    split; [rewrite Hcnt2; f_equal; lia|]. split.
    + intros x Hx. rewrite elem_of_forestIds_cons in Hx.
      rewrite Hfr2 by tauto. apply Hfr1. rewrite nodeIds_eq, not_elem_of_cons. tauto.
    + intros Hu. pose proof Hu as Hu'.
      apply uniqueIds_cons in Hu' as (Hs1 & Hs2 & Huc & Hur & Hdis).
      constructor.
      * assert (Hun : uniqueIds [n]).
        { apply uniqueIds_cons. repeat split; try done.
          - intros H; inversion H.
          - constructor.
          - intros x _ H; inversion H. }
        specialize (Hlay1 Hun).
        assert (Hone : laidOutAll (positions st1) lvl c [n] [yn]).
        { constructor; [exact Hlay1|constructor]. }
        eapply laidOutAll_frame with (pos' := positions st2) in Hone.
        -- inversion Hone; subst; done.
        -- intros x Hx. apply Hfr2. rewrite forestIds_cons in Hx.
           change (forestIds []) with (@nil jsstring) in Hx. rewrite app_nil_r in Hx.
           apply elem_of_cons in Hx as [->|Hx]; [done|]. intros Hin. exact (Hdis x Hx Hin).
      * apply Hlay2. done.
Qed.

(** *** Consequences of a layout *)

Lemma laidOut_position pos lvl c n y0 :
  laidOut pos lvl c n y0 → pos !! id n = Some (mkPos lvl y0).
Proof. destruct 1; done. Qed.

Lemma laidOutAll_roots pos lvl c F ys :
  laidOutAll pos lvl c F ys →
  Forall2 (λ k yk, y <$> pos !! id k = Some yk) F ys.
Proof.
  revert c ys. induction F as [|n rest IH]; intros c ys Hl; inversion Hl; subst; constructor.
  - erewrite laidOut_position by eassumption. reflexivity.
  - eapply IH. eassumption.
Qed.

Lemma laidOutAll_levels F :
  ∀ pos lvl c ys d k,
    laidOutAll pos lvl c F ys → (d, k) ∈ withDepth lvl F →
    level <$> pos !! id k = Some d.
Proof.
  induction F as [|n rest IHn IHr] using forest_ind; intros pos lvl c ys d k Hl Hin.
  - inversion Hin.
  - inversion Hl as [|? ? ? ? y0 ys0 Hn Hrest]; subst.
    rewrite withDepth_cons, elem_of_cons, elem_of_app in Hin.
    destruct Hin as [[= -> ->]|[Hin|Hin]].
    + erewrite laidOut_position by eassumption. reflexivity.
    + inversion Hn as [? ? ? Hch Hpos|? ? ? cys Hch Hkids Hpos]; subst.
      * rewrite Hch in Hin. inversion Hin.
      * eapply IHn; eassumption.
    + eapply IHr; eassumption.
Qed.

Lemma isLeaf_true n : isLeaf n = true ↔ children n = [].
Proof. unfold isLeaf. destruct (children n); split; done. Qed.

Lemma laidOutAll_leaves F :
  ∀ pos lvl c ys,
    laidOutAll pos lvl c F ys →
    (λ k, y <$> pos !! id k) <$> leaves F
    = (λ i, Some (numOfNat i)) <$> seq c (leafCount F).
Proof.
  induction F as [|n rest IHn IHr] using forest_ind; intros pos lvl c ys Hl.
  - reflexivity.
  - inversion Hl as [|? ? ? ? y0 ys0 Hn Hrest]; subst.
    rewrite leaves_cons, leafCount_cons, !fmap_app, !seq_app, !fmap_app.
    rewrite leafCount_single in Hrest.
    rewrite (IHr _ _ _ _ Hrest).
    inversion Hn as [? ? ? Hch Hpos|? ? ? cys Hch Hkids Hpos]; subst.
    + rewrite (proj2 (isLeaf_true n) Hch) in *. rewrite Hch.
      change (leaves []) with (@nil TreeNode). change (leafCount []) with 0.
      cbn [fmap list_fmap seq]. rewrite Hpos. cbn [fmap option_fmap option_map y app].
      reflexivity.
    + destruct (isLeaf n) eqn:Hleaf; [apply isLeaf_true in Hleaf; done|].
      rewrite (IHn _ _ _ _ Hkids). cbn [fmap list_fmap seq app].
      rewrite Nat.add_0_r. reflexivity.
Qed.

Lemma laidOutAll_means F :
  ∀ pos lvl c ys k,
    laidOutAll pos lvl c F ys → k ∈ flattenForest F → children k ≠ [] →
    ∃ cys, Forall2 (λ ch yc, y <$> pos !! id ch = Some yc) (children k) cys ∧
           y <$> pos !! id k = Some (meanY cys).
Proof.
  induction F as [|n rest IHn IHr] using forest_ind; intros pos lvl c ys k Hl Hin Hk.
  - inversion Hin.
  - inversion Hl as [|? ? ? ? y0 ys0 Hn Hrest]; subst.
    apply elem_of_flatten_cons in Hin as [->|[Hin|Hin]].
    + inversion Hn as [? ? ? Hch Hpos|? ? ? cys Hch Hkids Hpos]; subst; [done|].
      exists cys. split; [eapply laidOutAll_roots; eassumption|]. rewrite Hpos. reflexivity.
    + inversion Hn as [? ? ? Hch Hpos|? ? ? cys Hch Hkids Hpos]; subst.
      * rewrite Hch in Hin. inversion Hin.
      * eapply IHn; eassumption.
    + eapply IHr; eassumption.
Qed.

(** *** Depths *)

Lemma withDepth_exists F : ∀ k lvl, k ∈ flattenForest F → ∃ d, (d, k) ∈ withDepth lvl F.
Proof.
  induction F as [|n rest IHn IHr] using forest_ind; intros k lvl Hk; [inversion Hk|].
  setoid_rewrite withDepth_cons. setoid_rewrite elem_of_cons. setoid_rewrite elem_of_app.
  apply elem_of_flatten_cons in Hk as [->|[Hk|Hk]].
  - exists lvl. auto.
  - destruct (IHn k (S lvl) Hk) as [d Hd]. exists d. auto.
  - destruct (IHr k lvl Hk) as [d Hd]. exists d. auto.
Qed.

Lemma withDepth_lower F : ∀ d k lvl, (d, k) ∈ withDepth lvl F → lvl ≤ d.
Proof.
  induction F as [|n rest IHn IHr] using forest_ind; intros d k lvl Hin; [inversion Hin|].
  rewrite withDepth_cons, elem_of_cons, elem_of_app in Hin.
  destruct Hin as [[= -> ->]|[Hin|Hin]]; [lia| |eauto].
  apply IHn in Hin. lia.
Qed.

Lemma withDepth_below F :
  ∀ d a lvl p, (d, a) ∈ withDepth lvl F → p ∈ withDepth (S d) (children a) →
               p ∈ withDepth lvl F.
Proof.
  induction F as [|n rest IHn IHr] using forest_ind; intros d a lvl p Hin Hp; [inversion Hin|].
  rewrite withDepth_cons, elem_of_cons, elem_of_app in Hin.
  rewrite withDepth_cons, elem_of_cons, elem_of_app.
  destruct Hin as [[= -> ->]|[Hin|Hin]]; [auto| |].
  - right; left. eapply IHn; eassumption.
  - right; right. eapply IHr; eassumption.
Qed.

(** *** The mean *)

Lemma meanY_roundedMean ys : ys ≠ [] → meanY ys = roundedMean ys.
Proof.
  intros Hne. unfold meanY, roundedMean.
  replace (Nat.max (length ys) 1) with (length ys) by (destruct ys; [done|cbn; lia]).
  f_equal. generalize (numOfNat 0). clear Hne.
  induction ys as [|y0 ys IH]; intros a; [reflexivity|]. apply IH.
Qed.

(** C4 as stated fails.  In [R[a, b, I[c, d, e]]] the children of [R] sit at
    0, 1 and 3, and the ordinate stored for [R] is the number
    6004799503160661 / 2^52 (printed 1.3333333333333333), which is not their
    arithmetic mean 4/3. *)
Lemma ordinate_is_not_the_exact_mean :
  let F := [inner "R" [leaf "a"; leaf "b"; inner "I" [leaf "c"; leaf "d"; leaf "e"]]] in
  let pos := layoutForest F in
  uniqueIds F ∧
  (λ i, pos !! js i ≫= λ p, valueOf (y p)) <$> ["a"; "b"; "I"]
  = [Some 0%Q; Some 1%Q; Some 3%Q] ∧
  (pos !! js "R" ≫= λ p, valueOf (y p))
  = Some (6004799503160661 # 4503599627370496)%Q ∧
  ¬ (6004799503160661 # 4503599627370496 == arithmeticMean [0; 1; 3])%Q.
Proof.
  split; [by_evaluation|]. split; [vm_compute; reflexivity|].
  split; [vm_compute; reflexivity|]. vm_compute. discriminate.
Qed.

(** C4, amended.  On a forest with unique ids and fewer than 2^53 leaves,
    [layoutForest] gives every node the level that is its depth below its
    root (roots at 0), hence a descendant a level strictly above that of its
    ancestor; the leaves, in traversal order, get the ordinates 0, 1, ...,
    k-1 for k leaves; and the ordinate of a node with children is the mean of
    the ordinates of its children as binary64 arithmetic computes it: their
    sum from the left, starting from 0, divided by their count, every
    addition and the division rounded. *)
Theorem layout_levels_leaves_means (F : Forest) :
  uniqueIds F → (Z.of_nat (leafCount F) < 2 ^ 53)%Z →
  let pos := layoutForest F in
  (∀ d k, (d, k) ∈ withDepth 0 F → level <$> pos !! id k = Some d) ∧
  (∀ a b, a ∈ flattenForest F → b ∈ descendants a →
     ∃ pa pb, pos !! id a = Some pa ∧ pos !! id b = Some pb ∧ level pa < level pb) ∧
  (λ k, pos !! id k ≫= λ p, valueOf (y p)) <$> leaves F
  = (λ i, Some (inject_Z (Z.of_nat i))) <$> seq 0 (length (leaves F)) ∧
  (∀ k, k ∈ flattenForest F → children k ≠ [] →
     ∃ cys,
       Forall2 (λ ch yc, y <$> pos !! id ch = Some yc) (children k) cys ∧
       y <$> pos !! id k = Some (roundedMean cys)).
Proof.
  intros Hu Hfew pos.
  destruct (walkAll_laidOut F 0 (mkLayout (numOfNat 0) ∅) 0 eq_refl Hfew) as (_ & _ & Hlay).
  specialize (Hlay Hu). fold (layoutForest F) in Hlay. fold pos in Hlay.
  assert (Hlev : ∀ d k, (d, k) ∈ withDepth 0 F → level <$> pos !! id k = Some d).
  { intros d k. eapply laidOutAll_levels. exact Hlay. }
  split; [exact Hlev|]. split; [|split].
  - intros a b Ha Hb.
    destruct (withDepth_exists F a 0 Ha) as [da Hda].
    destruct (withDepth_exists (children a) b (S da) Hb) as [db Hdb].
    pose proof (withDepth_lower _ _ _ _ Hdb) as Hlt.
    pose proof (withDepth_below _ _ _ _ _ Hda Hdb) as Hdb'.
    apply Hlev in Hda, Hdb'.
    destruct (pos !! id a) as [pa|]; [|discriminate].
    destruct (pos !! id b) as [pb|]; [|discriminate].
    injection Hda as Hda. injection Hdb' as Hdb'. exists pa, pb. repeat split; lia.
  - pose proof (laidOutAll_leaves _ _ _ _ _ Hlay) as Hleaves.
    apply (f_equal (fmap (λ o : option number, o ≫= valueOf))) in Hleaves.
    rewrite <- !list_fmap_compose in Hleaves.
    etransitivity; [etransitivity; [|exact Hleaves]|].
    + apply list_fmap_ext. intros i k Hk. cbn. destruct (pos !! id k); reflexivity.
    + apply list_fmap_ext. intros i j Hj. cbn.
      apply valueOf_numOfNat.
      apply lookup_seq in Hj as [-> Hlt]. fold (leafCount F) in Hlt. lia.
  - intros k Hk Hkids.
    destruct (laidOutAll_means _ _ _ _ _ _ Hlay Hk Hkids) as (cys & Hall & Hy).
    exists cys. split; [done|]. rewrite Hy. f_equal.
    apply meanY_roundedMean. intros ->. apply Forall2_nil_inv_r in Hall. done.
Qed.

Lemma layout_levels_leaves_means_witness :
  (λ k, layoutForest sampleForest !! id k ≫= λ p, valueOf (y p)) <$> leaves sampleForest
  = (λ i, Some (inject_Z (Z.of_nat i))) <$> seq 0 (length (leaves sampleForest)).
Proof.
  apply (layout_levels_leaves_means sampleForest).
  - by_evaluation.
  - by_evaluation.
Defined.

(** ** References to a deleted node *)

(** C6 does not hold of the code.  Deleting the selected and hovered node [A]
    with reassignment of its children leaves the selection and the overlay on
    [A], which is no longer in the forest, whereas the cascade handler run
    from the same state clears both; and the cascade handler itself keeps a
    selection and an edit on [B] when [B] goes away with its parent [A]. *)
Theorem deletion_leaves_dangling_references :
  let reassigned := confirmReassignChildren (js "u1") 7 deletingSelectedA in
  let cascaded := confirmDeleteWithChildren (js "u1") 7 deletingSelectedA in
  let orphaned := confirmDeleteWithChildren (js "u1") 7 deletingParentOfSelected in
  (forest reassigned = [inner "D" [leaf "B"; leaf "C"]] ∧
   selectedId reassigned = Some (js "A") ∧
   overlay_nodeId <$> overlay reassigned = Some (js "A") ∧
   js "A" ∉ forestIds (forest reassigned)) ∧
  (forest cascaded = [leaf "D"] ∧
   selectedId cascaded = None ∧ overlay cascaded = None) ∧
  (forest orphaned = [leaf "D"] ∧
   selectedId orphaned = Some (js "B") ∧
   editingNodeId orphaned = Some (js "B") ∧
   js "B" ∉ forestIds (forest orphaned)).
Proof.
  repeat split; try reflexivity; by_evaluation.
Qed.

(** ** The scenarios, by evaluation *)

(** The sanity test of the source: moving the root [D] under [A] succeeds. *)
Example sanity_move :
  moveNodeAsChild sampleForest (js "D") (js "A")
  = ([inner "A" [leaf "B"; leaf "C"; leaf "D"]], true).
Proof. reflexivity. Qed.

(** One run of [finishDrag] with [C] dropped on [B] in [A[B, C]] gives
    [A[B[C]]] and appends one ledger entry. *)
Example scenario_drag_onto_sibling :
  let after := finishDrag (js "u1") 7 (Some (js "B")) (js "C") sampleState in
  forest after = [inner "A" [inner "B" [leaf "C"]]; leaf "D"] ∧
  selectedId after = Some (js "C") ∧
  length (changeLog after) = 1.
Proof. repeat split. Qed.

(** [finishDrag] with [A] dropped on its child [B] is refused. *)
Example scenario_drag_onto_child :
  finishDrag (js "u1") 7 (Some (js "B")) (js "A") sampleState = sampleState.
Proof. reflexivity. Qed.

(** Deleting [A] with its children handed to the root [D]. *)
Example scenario_reassign :
  forest (confirmReassignChildren (js "u1") 7 reassignOntoD)
  = [inner "D" [leaf "B"; leaf "C"]].
Proof. reflexivity. Qed.

(** The layout of the sample forest: levels and the values of the ordinates. *)
Example scenario_layout :
  (λ i, level <$> layoutForest sampleForest !! js i) <$> ["A"; "B"; "C"; "D"]
  = [Some 0; Some 1; Some 1; Some 0] ∧
  (λ i, layoutForest sampleForest !! js i ≫= λ p, valueOf (y p)) <$> ["A"; "B"; "C"; "D"]
  = [Some (1 # 2)%Q; Some 0%Q; Some 1%Q; Some 2%Q].
Proof. split; vm_compute; reflexivity. Qed.

(** The escaping checked by the source's own sanity test. *)
Example sanity_escape :
  isMatch asciiUpper (js "a+b") (js "A+B") = true ∧
  compilePattern (escapeRegExp (js "(a)[b]\c?^$")) = Some (js "(a)[b]\c?^$").
Proof. repeat split. Qed.

(* ===================================================================== *)
(** * Further properties *)
(* ===================================================================== *)

(** ** [uniqueName] *)

Lemma js_inj (s1 s2 : string) : js s1 = js s2 → s1 = s2.
Proof.
  unfold js. intros Heq.
  apply (f_equal (fmap Ascii.ascii_of_N)) in Heq.
  rewrite <- !list_fmap_compose in Heq.
  rewrite !(list_fmap_ext (Ascii.ascii_of_N ∘ Ascii.N_of_ascii) Datatypes.id) in Heq
    by (intros ? a ?; apply Ascii.ascii_N_embedding).
  rewrite !list_fmap_id in Heq.
  rewrite <- (String.string_of_list_ascii_of_string s1),
          <- (String.string_of_list_ascii_of_string s2).
  congruence.
Qed.

Lemma numbered_inj (base : jsstring) (i j : nat) :
  numbered base i = numbered base j → i = j.
Proof.
  unfold numbered. intros Heq. do 2 apply app_inv_head in Heq.
  apply js_inj in Heq. exact (pretty_nat_inj _ _ Heq).
Qed.

(** The loop ends, on the first number not taken, as soon as it may run for
    more tests than there are taken names left to meet. *)
Lemma uniqueNameLoop_ends (base : jsstring) (taken : gset jsstring) (fuel : nat) :
  ∀ (i : nat) (left : gset jsstring),
    (∀ j, i ≤ j → numbered base j ∈ taken → numbered base j ∈ left) →
    size left < fuel →
    ∃ k, i ≤ k ∧ uniqueNameLoop fuel base taken i = Some (numbered base k) ∧
         (numbered base k ∉ taken) ∧
         ∀ j, i ≤ j < k → numbered base j ∈ taken.
Proof.
  induction fuel as [|fuel IH]; intros i left Hleft Hsize; [lia|].
  cbn [uniqueNameLoop]. destruct (decide (numbered base i ∈ taken)) as [Hin|Hout].
  - destruct (IH (S i) (left ∖ {[numbered base i]})) as (k & Hk & Hloop & Hfresh & Hbelow).
    + intros j Hj Hjt. apply elem_of_difference. split; [apply Hleft; [lia|done]|].
      rewrite elem_of_singleton. intros Heq. apply numbered_inj in Heq. lia.
    + assert (Hi : numbered base i ∈ left) by (apply Hleft; [lia|done]).
      rewrite size_difference by (apply singleton_subseteq_l, Hi).
      rewrite size_singleton.
      assert (size left ≠ 0); [|lia].
      intros Hz. apply size_empty_inv in Hz. apply (Hz (numbered base i)) in Hi.
      apply elem_of_empty in Hi. done.
    + exists k. split; [lia|]. split; [done|]. split; [done|].
      intros j Hj. destruct (decide (j = i)) as [->|]; [done|]. apply Hbelow. lia.
  - exists i. split; [lia|]. split; [done|]. split; [done|]. intros j Hj. lia.
Qed.

Lemma uniqueName_not_taken (base : jsstring) (taken : gset jsstring) :
  uniqueName base taken ∉ taken.
Proof.
  unfold uniqueName. destruct (decide (base ∈ taken)) as [Hin|Hout]; [|done].
  destruct (uniqueNameLoop_ends base taken (S (size taken)) 2 taken)
    as (k & Hk & Hloop & Hfresh & Hbelow); [auto|lia|].
  rewrite Hloop. done.
Qed.

Lemma uniqueName_free (base : jsstring) (taken : gset jsstring) :
  base ∉ taken → uniqueName base taken = base.
Proof. intros Hout. unfold uniqueName. rewrite decide_False by done. reflexivity. Qed.

(** X1.  [uniqueName] always answers with a name that is not taken: the base
    itself when it is free, and otherwise the base followed by the least
    number, from 2 on, that makes a free name. *)
Theorem uniqueName_fresh (base : jsstring) (taken : gset jsstring) :
  (uniqueName base taken ∉ taken) ∧
  (base ∉ taken → uniqueName base taken = base) ∧
  (base ∈ taken →
   ∃ k, 2 ≤ k ∧ uniqueName base taken = numbered base k ∧
        ∀ j, 2 ≤ j < k → numbered base j ∈ taken).
Proof.
  unfold uniqueName. destruct (decide (base ∈ taken)) as [Hin|Hout].
  - destruct (uniqueNameLoop_ends base taken (S (size taken)) 2 taken)
      as (k & Hk & Hloop & Hfresh & Hbelow); [auto|lia|].
    rewrite Hloop. split; [done|]. split; [done|]. intros _. exists k. done.
  - split; [done|]. split; [done|]. done.
Qed.

(** ** The traversal of the [forEach] loops *)

Lemma visitBelow_eq {A} (visit : TreeNode → A → A) n acc :
  visitBelow visit n acc = visitForest visit (children n) acc.
Proof. destruct n; reflexivity. Qed.

(** The loop visits the nodes in the order of [flattenForest]. *)
Lemma visitForest_foldl {A} (visit : TreeNode → A → A) F :
  ∀ acc, visitForest visit F acc = foldl (λ a n, visit n a) acc (flattenForest F).
Proof.
  induction F as [|c rest IHc IHr] using forest_ind; intros acc; [reflexivity|].
  rewrite flattenForest_cons. cbn [foldl]. rewrite foldl_app, <- IHc, <- IHr.
  unfold visitForest at 1. cbn [visitLoop]. rewrite visitBelow_eq. reflexivity.
Qed.

(** ** [maxLevel] *)

Lemma maxLevelBelow_eq lvl n m :
  maxLevelBelow lvl n m =
  match children n with
  | [] => m
  | _ :: _ => maxLevelLoop (maxLevelBelow (S lvl)) (children n) (Nat.max m (S lvl))
  end.
Proof. destruct n as [? ? [|? ?]]; reflexivity. Qed.

Lemma maxLevelLoop_spec F :
  ∀ lvl m,
    lvl ≤ m →
    let r := maxLevelLoop (maxLevelBelow lvl) F m in
    m ≤ r ∧
    (∀ d k, (d, k) ∈ withDepth lvl F → d ≤ r) ∧
    (r = m ∨ ∃ k, (r, k) ∈ withDepth lvl F).
Proof.
  induction F as [|c rest IHc IHr] using forest_ind; intros lvl m Hlvl r; subst r.
  - cbn. split; [lia|]. split; [intros d k H; inversion H|auto].
  - cbn [maxLevelLoop].
    assert (Hbelow :
      m ≤ maxLevelBelow lvl c m ∧
      (∀ d k, (d, k) ∈ withDepth (S lvl) (children c) → d ≤ maxLevelBelow lvl c m) ∧
      (maxLevelBelow lvl c m = m ∨
       ∃ k, (maxLevelBelow lvl c m, k) ∈ withDepth (S lvl) (children c))).
    { rewrite maxLevelBelow_eq. destruct (children c) as [|k0 ks] eqn:Hkids.
      - split; [lia|]. split; [intros d k H; inversion H|auto].
      - rewrite <- Hkids in *.
        destruct (IHc (S lvl) (Nat.max m (S lvl))) as (Hle & Hall & Hatt); [lia|].
        split; [lia|]. split; [exact Hall|].
        destruct Hatt as [Heq|Hatt]; [|auto]. rewrite Heq.
        destruct (Nat.max_spec m (S lvl)) as [[_ ->]|[_ ->]]; [|auto].
        right. exists k0. rewrite Hkids, withDepth_cons. left. }
    destruct Hbelow as (Hle1 & Hall1 & Hatt1).
    destruct (IHr lvl (maxLevelBelow lvl c m)) as (Hle2 & Hall2 & Hatt2); [lia|].
    split; [lia|]. split.
    + intros d k. rewrite withDepth_cons, elem_of_cons, elem_of_app.
      intros [[= -> ->]|[Hin|Hin]]; [lia| |exact (Hall2 _ _ Hin)].
      specialize (Hall1 _ _ Hin). lia.
    + setoid_rewrite withDepth_cons. setoid_rewrite elem_of_cons.
      setoid_rewrite elem_of_app.
      destruct Hatt2 as [Heq|(k & Hk)]; [|eauto]. rewrite Heq.
      destruct Hatt1 as [->|(k & Hk)]; eauto.
Qed.

Lemma maxLevel_upper F d k : (d, k) ∈ withDepth 0 F → d ≤ maxLevel F.
Proof.
  destruct (maxLevelLoop_spec F 0 0) as (_ & Hall & _); [lia|]. apply Hall.
Qed.

Lemma maxLevel_attained F : F ≠ [] → ∃ k, (maxLevel F, k) ∈ withDepth 0 F.
Proof.
  destruct (maxLevelLoop_spec F 0 0) as (_ & _ & Hatt); [lia|].
  change (maxLevelLoop (maxLevelBelow 0) F 0) with (maxLevel F) in Hatt.
  intros Hne. destruct Hatt as [->|Hatt]; [|exact Hatt].
  destruct F as [|c rest]; [done|]. exists c. rewrite withDepth_cons. left.
Qed.

(** X2.  [maxLevel] is the greatest depth of a node of the forest, roots
    being at depth 0, and 0 for the empty forest. *)
Theorem maxLevel_greatest_depth (F : Forest) :
  (∀ d k, (d, k) ∈ withDepth 0 F → d ≤ maxLevel F) ∧
  (F ≠ [] → ∃ k, (maxLevel F, k) ∈ withDepth 0 F) ∧
  maxLevel [] = 0.
Proof.
  destruct (maxLevelLoop_spec F 0 0) as (_ & Hall & Hatt); [lia|].
  change (maxLevelLoop (maxLevelBelow 0) F 0) with (maxLevel F) in Hall, Hatt.
  split; [exact Hall|]. split; [|reflexivity].
  intros Hne. destruct Hatt as [->|Hatt]; [|exact Hatt].
  destruct F as [|c rest]; [done|]. exists c. rewrite withDepth_cons. left.
Qed.

(** ** [findNodeAndParent] *)

Lemma firstWith_cons {A} (P : A → Prop) `{∀ x, Decision (P x)} a (l : list A) :
  firstWith P (a :: l) = if decide (P a) then Some a else firstWith P l.
Proof.
  unfold firstWith. cbn. destruct (decide (P a)); [reflexivity|].
  destruct (list_find P l) as [[i x]|]; reflexivity.
Qed.

Lemma firstWith_app {A} (P : A → Prop) `{∀ x, Decision (P x)} (l1 l2 : list A) :
  firstWith P (l1 ++ l2) =
  match firstWith P l1 with Some a => Some a | None => firstWith P l2 end.
Proof.
  induction l1 as [|a l1 IH]; [reflexivity|].
  rewrite <- app_comm_cons, !firstWith_cons, IH. destruct (decide (P a)); reflexivity.
Qed.

Lemma deref_below c rest r :
  r ≠ [] → deref (c :: rest) (0 :: r) = deref (children c) r.
Proof. intros Hr. destruct r; [done|reflexivity]. Qed.

Lemma findNode_eq F x : findNode F x = findRef F x ≫= deref F.
Proof. unfold findNode, findNodeAndParent. destruct (findRef F x); reflexivity. Qed.

(** The node found is the first one in traversal order that carries the id. *)
Lemma findNode_first F x :
  findNode F x = firstWith (λ n, id n = x) (flattenForest F).
Proof.
  rewrite findNode_eq. induction F as [|c rest IHc IHr] using forest_ind; [reflexivity|].
  rewrite findRef_cons, flattenForest_cons, firstWith_cons.
  destruct (decide (id c = x)); [reflexivity|].
  rewrite firstWith_app, <- IHc, <- IHr.
  destruct (findRef (children c) x) as [r|] eqn:Hr.
  - cbn [mbind option_bind]. rewrite deref_below by (eapply findRef_nonempty; eauto).
    destruct (findRef_deref _ _ _ Hr) as [m Hm]. rewrite Hm. reflexivity.
  - cbn [mbind option_bind]. destruct (findRef rest x) as [r|]; [|reflexivity].
    cbn. apply deref_nextSibling.
Qed.

Lemma parentRef_nextSibling r :
  r ≠ [] → parentRef (nextSibling r) = nextSibling <$> parentRef r.
Proof. destruct r as [|i [|j r]]; [done|reflexivity|reflexivity]. Qed.

Lemma parentRef_below r :
  r ≠ [] → parentRef (0 :: r) = Some (0 :: default [] (parentRef r)).
Proof. destruct r as [|i [|j r]]; [done|reflexivity|reflexivity]. Qed.

(** The enclosing object of the node found holds it among its children. *)
Lemma findRef_parent F x :
  ∀ r, findRef F x = Some r →
    ∃ m, deref F r = Some m ∧
      match parentRef r with
      | None => m ∈ F
      | Some p => ∃ par, deref F p = Some par ∧ par ∈ flattenForest F ∧ m ∈ children par
      end.
Proof.
  induction F as [|c rest IHc IHr] using forest_ind; intros r; [discriminate|].
  rewrite findRef_cons. destruct (decide (id c = x)).
  { intros [= <-]. exists c. split; [reflexivity|]. left. }
  destruct (findRef (children c) x) as [r'|] eqn:Hr'.
  - intros [= <-]. pose proof (findRef_nonempty _ _ _ Hr') as Hne.
    destruct (IHc r' eq_refl) as (m & Hm & Hpar). exists m.
    rewrite deref_below, parentRef_below by done. split; [exact Hm|].
    destruct (parentRef r') as [p|] eqn:Hp; cbn [from_option Datatypes.id].
    + assert (p ≠ []).
      { destruct r' as [|i [|j r']]; try done. injection Hp as <-. done. }
      destruct Hpar as (par & Hd & Hin & Hmem). exists par.
      rewrite deref_below by done. rewrite elem_of_flatten_cons. auto.
    + exists c. rewrite elem_of_flatten_cons. auto.
  - destruct (findRef rest x) as [r'|] eqn:Hr''; [|discriminate].
    intros [= <-]. pose proof (findRef_nonempty _ _ _ Hr'') as Hne.
    destruct (IHr r' eq_refl) as (m & Hm & Hpar). exists m.
    rewrite deref_nextSibling, parentRef_nextSibling by done. split; [exact Hm|].
    destruct (parentRef r') as [p|]; cbn [fmap option_fmap option_map].
    + destruct Hpar as (par & Hd & Hin & Hmem). exists par.
      rewrite deref_nextSibling, elem_of_flatten_cons. auto.
    + right. exact Hpar.
Qed.

(** X3.  [findNodeAndParent] returns the first node, in traversal order, that
    carries the id, and nothing when no node carries it; the parent it
    returns has that node among its children, and it returns no parent
    exactly when that node is a root. *)
Theorem findNodeAndParent_first_and_parent (F : Forest) (x : jsstring) :
  findNode F x = firstWith (λ n, id n = x) (flattenForest F) ∧
  (x ∉ forestIds F → findNodeAndParent F x = mkFound None None) ∧
  (∀ m, findNode F x = Some m →
     match findParentNode F x with
     | Some par => par ∈ flattenForest F ∧ m ∈ children par
     | None => m ∈ F
     end).
Proof.
  split; [apply findNode_first|]. split.
  - intros Hx. unfold findNodeAndParent. rewrite findRef_None by done. reflexivity.
  - intros m. rewrite findNode_eq. unfold findParentNode, findNodeAndParent.
    destruct (findRef F x) as [r|] eqn:Hr; [|discriminate]. cbn [mbind option_bind parent].
    intros Hm. destruct (findRef_parent F x r Hr) as (m' & Hm' & Hpar).
    assert (m' = m) as -> by congruence.
    destruct (parentRef r) as [p|]; cbn [mbind option_bind].
    + destruct Hpar as (par & -> & Hin & Hmem). done.
    + exact Hpar.
Qed.

(** ** [isDescendant] *)

Lemma isDescendant_true F a b :
  uniqueIds F → isDescendant F a b = true →
  ∃ ma, ma ∈ flattenForest F ∧ id ma = a ∧ b ∈ forestIds (children ma).
Proof.
  intros Hu. unfold isDescendant. rewrite findNode_eq.
  destruct (findRef F a) as [r|] eqn:Hr; [|discriminate].
  assert (Hin : a ∈ forestIds F).
  { destruct (decide (a ∈ forestIds F)); [done|]. rewrite findRef_None in Hr; done. }
  destruct (findRef_Some _ _ Hin) as (r' & m & Hr' & Hd & Hid & Hm).
  assert (r' = r) as -> by congruence. cbn [mbind option_bind]. rewrite Hd.
  intros Hc. apply carries_spec in Hc. eauto.
Qed.

Lemma descendant_smaller k m :
  k ∈ descendants m → length (flattenNode k) < length (flattenNode m).
Proof.
  intros Hk. apply subtree_size in Hk. rewrite (flattenNode_eq m). cbn [length].
  unfold descendants. lia.
Qed.

(** X4.  On a forest with unique ids [isDescendant] is a strict order on the
    ids of the forest: no id is its own descendant, two ids are never each
    other's descendants, a descendant of a descendant is a descendant, and
    only ids of the forest are related. *)
Theorem isDescendant_strict_order (F : Forest) (a b c : jsstring) :
  uniqueIds F →
  isDescendant F a a = false ∧
  (isDescendant F a b = true → isDescendant F b a = false) ∧
  (isDescendant F a b = true → isDescendant F b c = true → isDescendant F a c = true) ∧
  (isDescendant F a b = true → a ∈ forestIds F ∧ b ∈ forestIds F).
Proof.
  intros Hu.
  assert (Hnode : ∀ m k x, m ∈ flattenForest F → k ∈ flattenForest F →
            x ∈ forestIds (children m) → id k = x → k ∈ descendants m).
  { intros m k x Hm Hk Hx Hid. apply elem_of_forestIds in Hx as (k' & Hk' & Hid').
    assert (k' = k) as <-; [|exact Hk'].
    eapply NoDup_fmap_eq; [exact Hu| |exact Hk|congruence].
    exact (descendants_in_forest _ _ _ Hm Hk'). }
  assert (Hasym : ∀ x z, isDescendant F x z = true → isDescendant F z x = false).
  { intros x z Hxz. apply not_true_is_false. intros Hzx.
    apply (isDescendant_true _ _ _ Hu) in Hxz as (mx & Hmx & Hidx & Hz).
    apply (isDescendant_true _ _ _ Hu) in Hzx as (mz & Hmz & Hidz & Hx).
    pose proof (Hnode mx mz z Hmx Hmz Hz Hidz) as H1.
    pose proof (Hnode mz mx x Hmz Hmx Hx Hidx) as H2.
    apply descendant_smaller in H1, H2. lia. }
  split; [|split; [|split]].
  - destruct (isDescendant F a a) eqn:Haa; [|reflexivity].
    rewrite (Hasym a a Haa) in Haa. discriminate.
  - apply Hasym.
  - intros Hab Hbc.
    apply (isDescendant_true _ _ _ Hu) in Hab as (ma & Hma & Hida & Hb).
    apply (isDescendant_true _ _ _ Hu) in Hbc as (mb & Hmb & Hidb & Hc).
    rewrite <- Hida. apply (isDescendant_spec _ _ _ Hu Hma).
    pose proof (Hnode ma mb b Hma Hmb Hb Hidb) as Hmb'.
    exact (descendant_ids_in_forest _ _ Hmb' _ Hc).
  - intros Hab. apply (isDescendant_true _ _ _ Hu) in Hab as (ma & Hma & Hida & Hb).
    split; [rewrite <- Hida; apply id_in_forestIds, Hma|].
    exact (descendant_ids_in_forest _ _ Hma _ Hb).
Qed.

Lemma isDescendant_strict_order_witness :
  isDescendant sampleForest (js "A") (js "A") = false.
Proof.
  refine (proj1 (isDescendant_strict_order sampleForest (js "A") (js "B") (js "C") _)).
  by_evaluation.
Defined.

(** ** [getPathToNode] *)

Lemma pathBelow_eq t n path :
  pathBelow t n path = pathLoop t (pathBelow t) (children n) path.
Proof. destruct n; reflexivity. Qed.

Lemma pathLoop_cons t c rest path :
  pathLoop t (pathBelow t) (c :: rest) path =
  if decide (id c = t) then (true, path ++ [c])
  else
    let '(found, path1) := pathLoop t (pathBelow t) (children c) (path ++ [c]) in
    if found then (true, path1)
    else pathLoop t (pathBelow t) rest (removelast path1).
Proof. cbn [pathLoop]. rewrite pathBelow_eq. reflexivity. Qed.

Lemma withDepth_in_flatten F : ∀ d k lvl, (d, k) ∈ withDepth lvl F → k ∈ flattenForest F.
Proof.
  induction F as [|c rest IHc IHr] using forest_ind; intros d k lvl Hin; [inversion Hin|].
  rewrite withDepth_cons, elem_of_cons, elem_of_app in Hin.
  rewrite elem_of_flatten_cons.
  destruct Hin as [[= -> ->]|[Hin|Hin]]; eauto.
Qed.

Lemma chainFrom_weaken c rest chain : chainFrom rest chain → chainFrom (c :: rest) chain.
Proof. destruct 1; constructor; try done; by right. Qed.

(** Without the id in the forest the stack comes back as it was; with it, the
    stack has grown by the chain from a root to the first node that carries
    the id. *)
Lemma pathLoop_spec t F :
  ∀ path lvl,
    (t ∉ forestIds F → pathLoop t (pathBelow t) F path = (false, path)) ∧
    (t ∈ forestIds F →
     ∃ chain m,
       pathLoop t (pathBelow t) F path = (true, path ++ chain) ∧
       chainFrom F chain ∧ last chain = Some m ∧ id m = t ∧
       (lvl + length chain, m) ∈ withDepth (S lvl) F).
Proof.
  induction F as [|c rest IHc IHr] using forest_ind; intros path lvl.
  { split; [reflexivity|]. intros H; inversion H. }
  rewrite pathLoop_cons, elem_of_forestIds_cons.
  setoid_rewrite withDepth_cons. setoid_rewrite elem_of_cons.
  setoid_rewrite elem_of_app.
  destruct (decide (id c = t)) as [Heq|Hne].
  { split; [intros Hn; exfalso; apply Hn; auto|]. intros _.
    exists [c], c. split; [done|]. split; [constructor; left|]. split; [done|].
    split; [done|]. left. f_equal. cbn. lia. }
  destruct (IHc (path ++ [c]) (S lvl)) as [Hnc Hyc].
  destruct (IHr path lvl) as [Hnr Hyr].
  destruct (decide (t ∈ forestIds (children c))) as [Hc|Hc].
  - destruct (Hyc Hc) as (chain & m & Hloop & Hchain & Hlast & Hid & Hdep).
    rewrite Hloop. split; [intros Hn; exfalso; apply Hn; auto|]. intros _.
    exists (c :: chain), m. rewrite <- app_assoc. split; [done|].
    split; [apply chainFrom_step; [left|done]|]. split.
    + destruct chain; [inversion Hchain|exact Hlast].
    + split; [done|]. right; left. cbn [length].
      replace (lvl + S (length chain)) with (S lvl + length chain) by lia. exact Hdep.
  - rewrite (Hnc Hc), removelast_last. split.
    + intros Hn. apply Hnr. tauto.
    + intros [?|[?|Hr]]; [congruence|done|].
      destruct (Hyr Hr) as (chain & m & Hloop & Hchain & Hlast & Hid & Hdep).
      exists chain, m. split; [done|]. split; [apply chainFrom_weaken, Hchain|]. auto.
Qed.

(** X5.  For an id that no node carries [getPathToNode] returns the empty
    path.  On a forest with unique ids the path to a node of the forest
    starts at a root, goes from each node to one of its children, ends at the
    node, and has one node more than the node's depth. *)
Theorem getPathToNode_chain (F : Forest) (m : TreeNode) (x : jsstring) :
  uniqueIds F → m ∈ flattenForest F →
  (x ∉ forestIds F → getPathToNode F x = []) ∧
  chainFrom F (getPathToNode F (id m)) ∧
  last (getPathToNode F (id m)) = Some m ∧
  (length (getPathToNode F (id m)) - 1, m) ∈ withDepth 0 F.
Proof.
  intros Hu Hm. unfold getPathToNode. split.
  - intros Hx. rewrite (proj1 (pathLoop_spec x F [] 0) Hx). reflexivity.
  - destruct (proj2 (pathLoop_spec (id m) F [] 0) (id_in_forestIds _ _ Hm))
      as (chain & m' & Hloop & Hchain & Hlast & Hid & Hdep).
    rewrite Hloop. cbn [snd app].
    assert (m' = m) as ->.
    { eapply NoDup_fmap_eq; [exact Hu| |exact Hm|exact Hid].
      eapply withDepth_in_flatten, Hdep. }
    split; [done|]. split; [done|].
    clear -Hdep Hchain. destruct chain as [|k chain]; [inversion Hchain|].
    cbn [length] in *. replace (S (length chain) - 1) with (length chain) by lia.
    revert Hdep. generalize (length chain). clear. intros n.
    (* depths counted from 1 are depths counted from 0, plus one *)
    assert (Hshift : ∀ G d k lvl, (S d, k) ∈ withDepth (S lvl) G → (d, k) ∈ withDepth lvl G).
    { clear. induction G as [|c rest IHc IHr] using forest_ind; intros d k lvl Hin;
        [inversion Hin|].
      rewrite withDepth_cons, elem_of_cons, elem_of_app in *.
      destruct Hin as [[= -> ->]|[Hin|Hin]]; eauto. }
    intros Hdep. apply Hshift. exact Hdep.
Qed.

Lemma getPathToNode_chain_witness :
  (js "zz" ∉ forestIds sampleForest → getPathToNode sampleForest (js "zz") = []) ∧
  chainFrom sampleForest (getPathToNode sampleForest (js "C")) ∧
  last (getPathToNode sampleForest (js "C")) = Some (leaf "C") ∧
  (length (getPathToNode sampleForest (js "C")) - 1, leaf "C") ∈ withDepth 0 sampleForest.
Proof.
  apply (getPathToNode_chain sampleForest (leaf "C") (js "zz")).
  - by_evaluation.
  - by_evaluation.
Defined.

(** ** [detachNode] *)

Lemma detachInChildren_eq x n :
  detachInChildren x n = detachLoop x (detachInChildren x) (children n).
Proof. destruct n; reflexivity. Qed.

Lemma detachLoop_cons x c rest :
  detachLoop x (detachInChildren x) (c :: rest) =
  if decide (id c = x) then Some (rest, c)
  else match detachLoop x (detachInChildren x) (children c) with
       | Some (cs, d) => Some (setChildren c cs :: rest, d)
       | None =>
           match detachLoop x (detachInChildren x) rest with
           | Some (rest', d) => Some (c :: rest', d)
           | None => None
           end
       end.
Proof. cbn [detachLoop]. rewrite detachInChildren_eq. reflexivity. Qed.

Lemma detach_absent x F :
  x ∉ forestIds F → detachLoop x (detachInChildren x) F = None.
Proof.
  induction F as [|c rest IHc IHr] using forest_ind; [reflexivity|].
  rewrite elem_of_forestIds_cons, detachLoop_cons. intros Hn.
  rewrite decide_False by (intros Heq; apply Hn; auto).
  rewrite IHc, IHr by tauto. reflexivity.
Qed.

Lemma detach_once x F :
  occurrences x F = 1 →
  ∃ m, detachLoop x (detachInChildren x) F = Some (prune x F, m) ∧
       m ∈ flattenForest F ∧ id m = x.
Proof.
  induction F as [|c rest IHc IHr] using forest_ind; [discriminate|].
  rewrite occurrences_cons, detachLoop_cons, prune_cons. intros Hocc.
  setoid_rewrite elem_of_flatten_cons.
  destruct (decide (id c = x)) as [Heq|Hne].
  - exists c. rewrite prune_absent by (apply occurrences_zero; lia). auto.
  - destruct (decide (occurrences x (children c) = 0)) as [Hz|Hnz].
    + rewrite detach_absent, (prune_absent _ (children c)), setChildren_same
        by (apply occurrences_zero; lia).
      destruct IHr as (m & -> & Hm & Hid); [lia|]. exists m. auto.
    + destruct IHc as (m & -> & Hm & Hid); [lia|]. exists m.
      rewrite (prune_absent _ rest) by (apply occurrences_zero; lia). auto.
Qed.

Lemma own_id_not_below F m :
  uniqueIds F → m ∈ flattenForest F → id m ∉ forestIds (children m).
Proof.
  intros Hu Hm Hin. apply elem_of_forestIds in Hin as (k & Hk & Hid).
  assert (k = m) as ->; [|exact (not_own_descendant _ Hk)].
  eapply NoDup_fmap_eq; [exact Hu| |exact Hm|exact Hid].
  exact (descendants_in_forest _ _ _ Hm Hk).
Qed.

Lemma occurrences_single z m :
  occurrences z [m] = (if decide (id m = z) then 1 else 0) + occurrences z (children m).
Proof. rewrite occurrences_cons. change (occurrences z []) with 0. lia. Qed.

(** What is left and what was taken make up the forest. *)
Lemma occurrences_detached F m z :
  uniqueIds F → m ∈ flattenForest F →
  occurrences z F = occurrences z (prune (id m) F) + occurrences z [m].
Proof.
  intros Hu Hm. rewrite occurrences_single.
  pose proof (occurrences_unique _ _ Hu (id_in_forestIds _ _ Hm)) as Hone.
  destruct (decide (id m = z)) as [<-|Hne].
  - rewrite occurrences_prune_self, Hone.
    pose proof (own_id_not_below _ _ Hu Hm) as H0. apply occurrences_zero in H0. lia.
  - rewrite (occurrences_prune_once z (id m) F m) by done. lia.
Qed.

(** On unique ids [detachNode] prunes the forest and hands out the node. *)
Lemma detachNode_found (F : Forest) (m : TreeNode) :
  uniqueIds F → m ∈ flattenForest F →
  detachNode F (id m) = (prune (id m) F, Some m).
Proof.
  intros Hu Hm.
  destruct (detach_once (id m) F) as (m' & Hd & Hm' & Hid).
  { apply occurrences_unique; [done|apply id_in_forestIds, Hm]. }
  assert (m' = m) as -> by (eapply NoDup_fmap_eq; [exact Hu|exact Hm'|exact Hm|exact Hid]).
  unfold detachNode. rewrite Hd. reflexivity.
Qed.

(** X6.  [detachNode] leaves the forest alone and detaches nothing when no
    node carries the id.  On a forest with unique ids it detaches the node
    that carries the id, with its subtree; what is left holds, in traversal
    order, the ids and names of the forest without those of the subtree, and
    every id of the forest is either left or in the detached subtree, once. *)
Theorem detachNode_splits (F : Forest) (m : TreeNode) (x : jsstring) :
  uniqueIds F → m ∈ flattenForest F →
  (x ∉ forestIds F → detachNode F x = (F, None)) ∧
  (detachNode F (id m)).2 = Some m ∧
  labels (detachNode F (id m)).1 = filter (λ p, p.1 ∉ nodeIds m) (labels F) ∧
  uniqueIds (detachNode F (id m)).1 ∧
  (∀ z, occurrences z F
        = occurrences z (detachNode F (id m)).1 + occurrences z [m]).
Proof.
  intros Hu Hm. split.
  { intros Hx. unfold detachNode. rewrite detach_absent by done. reflexivity. }
  rewrite (detachNode_found F m Hu Hm). cbn [fst snd].
  split; [done|]. split; [apply prune_labels; done|].
  split; [apply prune_keeps_uniqueIds, Hu|].
  intros z. apply occurrences_detached; done.
Qed.

Lemma detachNode_splits_witness :
  (detachNode sampleForest (js "A")).2 = Some (inner "A" [leaf "B"; leaf "C"]).
Proof.
  apply (detachNode_splits sampleForest (inner "A" [leaf "B"; leaf "C"]) (js "zz")).
  - by_evaluation.
  - by_evaluation.
Defined.

(** ** [moveNodeAsChild] *)

Lemma move_result F m td :
  uniqueIds F → m ∈ flattenForest F → td ∈ flattenForest F →
  id td ∉ nodeIds m →
  moveNodeAsChild F (id m) (id td)
  = (graft (id td) [m] (prune (id m) F), true).
Proof.
  intros Hu Hm Htd Hapart. pose proof Hapart as Hapart'.
  rewrite nodeIds_eq, not_elem_of_cons in Hapart'. destruct Hapart' as [Hne Hnd].
  unfold moveNodeAsChild. rewrite decide_False by congruence.
  assert (Hdesc : isDescendant F (id m) (id td) = false).
  { apply not_true_is_false. rewrite isDescendant_spec by done. exact Hnd. }
  rewrite Hdesc.
  destruct (detach_once (id m) F) as (m' & Hd & Hm' & Hid).
  { apply occurrences_unique; [done|apply id_in_forestIds, Hm]. }
  assert (m' = m) as -> by (eapply NoDup_fmap_eq; [exact Hu|exact Hm'|exact Hm|exact Hid]).
  unfold detachNode. rewrite Hd.
  destruct (graft_once (id td) [m] (prune (id m) F)) as (r & Hr & Hup).
  { pose proof (occurrences_prune_once (id td) (id m) F m
                  (occurrences_unique _ _ Hu (id_in_forestIds _ _ Hm)) Hm eq_refl Hne) as Hp.
    rewrite (occurrences_unique _ _ Hu (id_in_forestIds _ _ Htd)) in Hp.
    apply occurrences_zero in Hnd. lia. }
  unfold findNodeAndParent. rewrite Hr. cbn [node]. rewrite Hup. reflexivity.
Qed.

(** A node that no pruned node holds is still there after the pruning, with
    its own children pruned. *)
Lemma pruned_node n F td :
  td ∈ flattenForest F →
  (∀ k, k ∈ flattenForest F → id k = n → id td ∉ nodeIds k) →
  ∃ tp, tp ∈ flattenForest (prune n F) ∧ id tp = id td ∧ name tp = name td ∧
        children tp = prune n (children td).
Proof.
  induction F as [|c rest IHc IHr] using forest_ind; intros Htd Hhold; [inversion Htd|].
  rewrite prune_cons.
  assert (Hhc : ∀ k, k ∈ flattenForest (children c) → id k = n → id td ∉ nodeIds k).
  { intros k Hk. apply Hhold, elem_of_flatten_cons. auto. }
  assert (Hhr : ∀ k, k ∈ flattenForest rest → id k = n → id td ∉ nodeIds k).
  { intros k Hk. apply Hhold, elem_of_flatten_cons. auto. }
  apply elem_of_flatten_cons in Htd as [->|[Htd|Htd]].
  - assert (Hne : id c ≠ n).
    { intros Heq. apply (Hhold c); [apply elem_of_flatten_cons; auto|done|apply id_in_nodeIds]. }
    rewrite decide_False by done.
    eexists. split; [apply elem_of_flatten_cons; left; reflexivity|]. done.
  - assert (Hne : id c ≠ n).
    { intros Heq. apply (Hhold c); [apply elem_of_flatten_cons; auto|done|].
      rewrite nodeIds_eq. right. apply id_in_forestIds, Htd. }
    rewrite decide_False by done.
    destruct (IHc Htd Hhc) as (tp & Hin & Hrest). exists tp. split; [|exact Hrest].
    apply elem_of_flatten_cons. right; left. exact Hin.
  - destruct (IHr Htd Hhr) as (tp & Hin & Hrest). exists tp. split; [|exact Hrest].
    destruct (decide (id c = n)); [exact Hin|].
    apply elem_of_flatten_cons. right; right. exact Hin.
Qed.

(** A node that carries the id grafted onto gets the graft at the end of its
    children. *)
Lemma grafted_node cs F tp :
  tp ∈ flattenForest F →
  ∃ td', td' ∈ flattenForest (graft (id tp) cs F) ∧ id td' = id tp ∧
         name td' = name tp ∧
         children td' = graft (id tp) cs (children tp) ++ cs.
Proof.
  induction F as [|c rest IHc IHr] using forest_ind; intros Htp; [inversion Htp|].
  rewrite graft_cons. setoid_rewrite elem_of_flatten_cons.
  cbn [children setChildren].
  apply elem_of_flatten_cons in Htp as [->|[Htp|Htp]].
  - eexists. split; [left; reflexivity|]. cbn [id name children setChildren].
    rewrite decide_True by done. done.
  - destruct (IHc Htp) as (td' & Hin & Hrest). exists td'. split; [|exact Hrest].
    right; left. apply elem_of_flatten_app. left. exact Hin.
  - destruct (IHr Htp) as (td' & Hin & Hrest). exists td'. split; [|exact Hrest]. auto.
Qed.

(** X7.  On a forest with unique ids, moving node [m] under a node [td] that
    is neither [m] nor below [m] succeeds: [td] keeps its children (without
    [m], should [m] have been one of them) and gets [m], with its subtree as
    it was, as its last child; every id occurs as often as before, so the ids
    stay unique; and the roots are the former roots without [m]. *)
Theorem move_appends_under_target (F : Forest) (m td : TreeNode) :
  uniqueIds F → m ∈ flattenForest F → td ∈ flattenForest F →
  id td ∉ nodeIds m →
  let res := moveNodeAsChild F (id m) (id td) in
  res.2 = true ∧
  (∃ td' pre,
      td' ∈ flattenForest res.1 ∧ id td' = id td ∧ name td' = name td ∧
      children td' = pre ++ [m] ∧
      id <$> pre = filter (λ z, z ≠ id m) (id <$> children td)) ∧
  (∀ z, occurrences z res.1 = occurrences z F) ∧
  uniqueIds res.1 ∧
  id <$> res.1 = filter (λ z, z ≠ id m) (id <$> F).
Proof.
  intros Hu Hm Htd Hapart res. subst res. rewrite move_result by done. cbn [fst snd].
  split; [reflexivity|].
  assert (Hsame : ∀ k, k ∈ flattenForest F → id k = id m → k = m).
  { intros k Hk Hid. eapply NoDup_fmap_eq; [exact Hu|exact Hk|exact Hm|exact Hid]. }
  assert (Hcount : ∀ z, occurrences z (graft (id td) [m] (prune (id m) F)) = occurrences z F).
  { assert (Htarget : occurrences (id td) (prune (id m) F) = 1).
    { pose proof (occurrences_detached F m (id td) Hu Hm) as Hp.
      rewrite (occurrences_unique _ _ Hu (id_in_forestIds _ _ Htd)) in Hp.
      assert (occurrences (id td) [m] = 0); [|lia].
      apply occurrences_zero. intros Hin. apply Hapart.
      unfold forestIds in Hin. rewrite flattenForest_cons in Hin.
      change (flattenForest []) with (@nil TreeNode) in Hin. rewrite app_nil_r in Hin.
      rewrite nodeIds_eq. exact Hin. }
    intros z. rewrite (occurrences_graft_once z _ _ _ Htarget).
    rewrite (occurrences_detached F m z Hu Hm). reflexivity. }
  split; [|split; [exact Hcount|split]].
  - destruct (pruned_node (id m) F td Htd) as (tp & Hin & Hid & Hnm & Hch).
    { intros k Hk Hidk. rewrite (Hsame k Hk Hidk). exact Hapart. }
    destruct (grafted_node [m] _ tp Hin) as (td' & Hin' & Hid' & Hnm' & Hch').
    rewrite Hid in *. exists td', (graft (id td) [m] (children tp)).
    split; [done|]. split; [congruence|]. split; [congruence|]. split; [done|].
    rewrite graft_roots, Hch, prune_roots. reflexivity.
  - apply uniqueIds_of_occurrences. intros z. rewrite Hcount.
    apply occurrences_le_one, Hu.
  - rewrite graft_roots, prune_roots. reflexivity.
Qed.

Lemma move_appends_under_target_witness :
  (moveNodeAsChild sampleForest (js "C") (js "B")).2 = true.
Proof.
  apply (move_appends_under_target sampleForest (leaf "C") (leaf "B")).
  - by_evaluation.
  - by_evaluation.
  - by_evaluation.
  - by_evaluation.
Defined.

(** X8.  On a forest with unique ids [moveNodeAsChild] moves exactly when both
    ids are in the forest, they differ, and the target is not a descendant of
    the node; whenever it does not move, the forest it returns is the forest
    it was given. *)
Theorem move_exactly_when_valid (F : Forest) (d t : jsstring) :
  uniqueIds F →
  ((moveNodeAsChild F d t).2 = true ↔
   d ∈ forestIds F ∧ t ∈ forestIds F ∧ d ≠ t ∧ isDescendant F d t = false) ∧
  ((moveNodeAsChild F d t).2 = false → (moveNodeAsChild F d t).1 = F).
Proof.
  intros Hu. split.
  - split.
    + unfold moveNodeAsChild. destruct (decide (d = t)); [discriminate|].
      destruct (isDescendant F d t) eqn:Hdesc; [discriminate|].
      destruct (decide (d ∈ forestIds F)) as [Hd|Hd].
      2:{ unfold detachNode. rewrite detach_absent by done. discriminate. }
      apply elem_of_forestIds in Hd as (m & Hm & <-).
      rewrite (detachNode_found F m Hu Hm).
      pose proof (prune_labels m F Hu Hm) as Hlab.
      destruct (findRef (prune (id m) F) t) as [r|] eqn:Hr.
      2:{ unfold findNodeAndParent. rewrite Hr. discriminate. }
      intros _. split; [apply id_in_forestIds, Hm|]. split; [|done].
      destruct (decide (t ∈ forestIds (prune (id m) F))) as [Hin|Hout].
      * rewrite <- labels_ids, Hlab in Hin. rewrite <- labels_ids.
        apply list_elem_of_fmap in Hin as (p & -> & Hp).
        apply list_elem_of_filter in Hp as [_ Hp]. apply list_elem_of_fmap. eauto.
      * rewrite findRef_None in Hr by done. discriminate.
    + intros (Hd & Ht & Hne & Hdesc).
      apply elem_of_forestIds in Hd as (m & Hm & <-).
      apply elem_of_forestIds in Ht as (td & Htd & <-).
      rewrite move_result; [done..|].
      rewrite nodeIds_eq, not_elem_of_cons. split; [congruence|].
      intros Hin. apply (isDescendant_spec _ _ _ Hu Hm) in Hin. congruence.
  - unfold moveNodeAsChild. destruct (decide (d = t)); [done|].
    destruct (isDescendant F d t); [done|].
    destruct (detachNode F d) as [without [det|]]; [|done].
    destruct (node (findNodeAndParent without t)); [discriminate|done].
Qed.

Lemma move_exactly_when_valid_witness :
  (moveNodeAsChild sampleForest (js "A") (js "zz")).2 = true ↔
  js "A" ∈ forestIds sampleForest ∧ js "zz" ∈ forestIds sampleForest ∧
  js "A" ≠ js "zz" ∧ isDescendant sampleForest (js "A") (js "zz") = false.
Proof.
  apply (move_exactly_when_valid sampleForest (js "A") (js "zz")).
  by_evaluation.
Defined.

(** ** The visible forest *)

Lemma shown_cons C c rest n :
  shown C (c :: rest) n ↔
  n = c ∨ ((id c ∉ C) ∧ shown C (children c) n) ∨ shown C rest n.
Proof.
  split.
  - intros Hs. inversion Hs as [? ? Hin|p ? ? Hp Hc Hbelow]; subst.
    + apply elem_of_cons in Hin as [->|Hin]; [auto|]. right; right. by constructor.
    + apply elem_of_cons in Hp as [->|Hp]; [auto|]. right; right.
      eapply shown_child; eassumption.
  - intros [->|[[Hc Hs]|Hs]].
    + constructor. left.
    + eapply shown_child; [left|done..].
    + inversion Hs as [? ? Hin|p ? ? Hp Hc Hbelow]; subst.
      * constructor. by right.
      * eapply shown_child; [right; exact Hp|done..].
Qed.

Lemma visible_labels C F i nm :
  (i, nm) ∈ labels (buildVisibleForest F C) ↔ ∃ n, shown C F n ∧ id n = i ∧ name n = nm.
Proof.
  induction F as [|c rest IHc IHr] using forest_ind.
  - split; [intros Hin; inversion Hin|]. intros (n & Hs & _). inversion Hs as [? ? Hin|? ? ? Hin];
      inversion Hin.
  - rewrite buildVisible_cons, labels_cons, elem_of_cons, elem_of_app.
    setoid_rewrite shown_cons. rewrite IHr.
    destruct (decide (id c ∈ C)) as [Hc|Hc]; cbn [id name children setChildren].
    + change (labels []) with (@nil (jsstring * jsstring)). split.
      * intros [[= -> ->]|[Hin|(n & Hs & Hid)]]; [eauto|inversion Hin|eauto 6].
      * intros (n & [->|[[Hc' _]|Hs]] & <- & <-); [auto|done|eauto 6].
    + rewrite IHc. split.
      * intros [[= -> ->]|[(n & Hs & Hid)|(n & Hs & Hid)]]; eauto 8.
      * intros (n & [->|[[_ Hs]|Hs]] & <- & <-); eauto 8.
Qed.

Lemma visible_sublist C F : labels (buildVisibleForest F C) `sublist_of` labels F.
Proof.
  induction F as [|c rest IHc IHr] using forest_ind; [reflexivity|].
  rewrite buildVisible_cons, !labels_cons.
  destruct (decide (id c ∈ C)); cbn [id name children setChildren];
    constructor; apply sublist_app; [apply sublist_nil_l|done|done|done].
Qed.

Lemma visible_collapsed_childless C F v :
  v ∈ flattenForest (buildVisibleForest F C) → id v ∈ C → children v = [].
Proof.
  induction F as [|c rest IHc IHr] using forest_ind; [intros Hin; inversion Hin|].
  rewrite buildVisible_cons, elem_of_flatten_cons.
  destruct (decide (id c ∈ C)) as [Hc|Hc]; cbn [id name children setChildren].
  - intros [->|[Hin|Hin]]; [done|inversion Hin|auto].
  - intros [->|[Hin|Hin]]; [done|auto..].
Qed.

Lemma visible_all F : buildVisibleForest F ∅ = F.
Proof.
  induction F as [|c rest IHc IHr] using forest_ind; [reflexivity|].
  rewrite buildVisible_cons, decide_False by set_solver.
  rewrite IHc, IHr, setChildren_same. reflexivity.
Qed.

Lemma visible_idempotent C F :
  buildVisibleForest (buildVisibleForest F C) C = buildVisibleForest F C.
Proof.
  induction F as [|c rest IHc IHr] using forest_ind; [reflexivity|].
  rewrite buildVisible_cons.
  destruct (decide (id c ∈ C)) as [Hc|Hc]; rewrite buildVisible_cons;
    cbn [id name children setChildren].
  - rewrite decide_True by done. rewrite IHr. reflexivity.
  - rewrite decide_False by done. rewrite IHc, IHr. reflexivity.
Qed.

(** X9.  The visible forest holds, in the order of the forest, the nodes none
    of whose ancestors is collapsed, with the ids and names they have in the
    forest; a collapsed node is shown without children; with nothing collapsed
    the visible forest is the forest; projecting a second time changes
    nothing; unique ids stay unique. *)
Theorem visible_forest_shows (F : Forest) (C : gset jsstring) :
  (∀ i nm, (i, nm) ∈ labels (buildVisibleForest F C)
           ↔ ∃ n, shown C F n ∧ id n = i ∧ name n = nm) ∧
  labels (buildVisibleForest F C) `sublist_of` labels F ∧
  (∀ v, v ∈ flattenForest (buildVisibleForest F C) → id v ∈ C → children v = []) ∧
  buildVisibleForest F ∅ = F ∧
  buildVisibleForest (buildVisibleForest F C) C = buildVisibleForest F C ∧
  (uniqueIds F → uniqueIds (buildVisibleForest F C)).
Proof.
  split; [intros i nm; apply visible_labels|].
  split; [apply visible_sublist|].
  split; [apply visible_collapsed_childless|].
  split; [apply visible_all|].
  split; [apply visible_idempotent|].
  unfold uniqueIds. rewrite <- !labels_ids. intros Hu.
  apply (sublist_NoDup _ (labels F).*1); [exact Hu|apply fmap_sublist, visible_sublist].
Qed.

(** ** Edges *)

Lemma edgesOf_bind F :
  edgesOf F = flattenForest F ≫= (λ n, (λ c, (id n, id c)) <$> children n).
Proof.
  unfold edgesOf. rewrite visitForest_foldl.
  assert (Hgen : ∀ l acc,
    foldl (λ a n, a ++ ((λ c, (id n, id c)) <$> children n)) acc l
    = acc ++ (l ≫= (λ n, (λ c, (id n, id c)) <$> children n))).
  { induction l as [|n l IH]; intros acc; cbn [foldl]; [by rewrite app_nil_r|].
    rewrite IH, bind_cons, app_assoc. reflexivity. }
  apply Hgen.
Qed.

Lemma edge_count F : length (edgesOf F) + length F = length (flattenForest F).
Proof.
  rewrite edgesOf_bind.
  induction F as [|c rest IHc IHr] using forest_ind; [reflexivity|].
  rewrite flattenForest_cons, bind_cons, bind_app, !length_app, length_fmap.
  cbn [length]. rewrite length_app. lia.
Qed.

(** X10.  The edges drawn are exactly the pairs of a node and one of its
    children, parents in traversal order and the children of one parent in
    their order; there is one edge for every node that is not a root. *)
Theorem edges_join_parent_and_child (F : Forest) :
  edgesOf F = flattenForest F ≫= (λ n, (λ c, (id n, id c)) <$> children n) ∧
  (∀ a b, (a, b) ∈ edgesOf F
          ↔ ∃ p c, p ∈ flattenForest F ∧ c ∈ children p ∧ a = id p ∧ b = id c) ∧
  length (edgesOf F) + length F = length (flattenForest F).
Proof.
  split; [apply edgesOf_bind|]. split; [|apply edge_count].
  intros a b. rewrite edgesOf_bind, list_elem_of_bind. split.
  - intros (p & Hin & Hp). apply list_elem_of_fmap in Hin as (c & [= -> ->] & Hc).
    exists p, c. done.
  - intros (p & c & Hp & Hc & -> & ->). exists p. split; [|done].
    apply list_elem_of_fmap. exists c. done.
Qed.

(** ** Where the layout puts the nodes *)

Lemma walkAll_cons_state (f : TreeNode → LayoutState → number * LayoutState) n rest st :
  (walkAll f (n :: rest) st).2 = (walkAll f rest (f n st).2).2.
Proof.
  cbn [walkAll]. destruct (f n st) as [yn st1]. cbn [snd].
  destruct (walkAll f rest st1) as [ys st2]. reflexivity.
Qed.

Lemma walk_positions n lvl st :
  ∃ y0, positions (walk n lvl st).2
        = <[id n := mkPos lvl y0]>
            (positions (walkAll (λ c, walk c (S lvl)) (children n) st).2).
Proof.
  rewrite walk_eq. destruct (children n) as [|k ks].
  - eexists. reflexivity.
  - destruct (walkAll (λ c, walk c (S lvl)) (k :: ks) st) as [cys st1].
    eexists. reflexivity.
Qed.

Lemma idSet_cons c rest : idSet (c :: rest) = {[id c]} ∪ idSet (children c) ∪ idSet rest.
Proof.
  unfold idSet. rewrite forestIds_cons, list_to_set_cons, list_to_set_app_L.
  apply (assoc_L (∪)).
Qed.

Lemma walkAll_dom F :
  ∀ lvl st,
    dom (positions (walkAll (λ n, walk n lvl) F st).2) = dom (positions st) ∪ idSet F.
Proof.
  induction F as [|n rest IHn IHr] using forest_ind; intros lvl st.
  - cbn [walkAll snd]. apply set_eq. intros x.
    rewrite elem_of_union, elem_of_idSet. change (forestIds []) with (@nil jsstring).
    rewrite elem_of_nil. tauto.
  - rewrite walkAll_cons_state, IHr, idSet_cons.
    destruct (walk_positions n lvl st) as [y0 ->].
    rewrite dom_insert_L, IHn. apply set_eq. intros x. rewrite !elem_of_union. tauto.
Qed.

Lemma walkAll_entries F :
  ∀ lvl st x p,
    positions (walkAll (λ n, walk n lvl) F st).2 !! x = Some p →
    positions st !! x = Some p ∨
    ∃ d k, (d, k) ∈ withDepth lvl F ∧ id k = x ∧ level p = d.
Proof.
  induction F as [|n rest IHn IHr] using forest_ind; intros lvl st x p.
  - cbn. auto.
  - rewrite walkAll_cons_state. intros Hx.
    setoid_rewrite withDepth_cons. setoid_rewrite elem_of_cons. setoid_rewrite elem_of_app.
    apply IHr in Hx as [Hx|(d & k & Hin & Hid & Hl)]; [|right; exists d, k; auto].
    destruct (walk_positions n lvl st) as [y0 Hpos]. rewrite Hpos in Hx.
    destruct (decide (id n = x)) as [Heq|Hne].
    + rewrite Heq, lookup_insert_eq in Hx. injection Hx as <-.
      right. exists lvl, n. auto.
    + rewrite lookup_insert_ne in Hx by done.
      apply IHn in Hx as [Hx|(d & k & Hin & Hid & Hl)]; [auto|right; exists d, k; auto].
Qed.

(** The walk touches no position of an id outside the trees it lays out. *)
Lemma walkAll_frame F :
  ∀ lvl st x, x ∉ forestIds F →
    positions (walkAll (λ n, walk n lvl) F st).2 !! x = positions st !! x.
Proof.
  induction F as [|n rest IHn IHr] using forest_ind; intros lvl st x Hx; [reflexivity|].
  rewrite elem_of_forestIds_cons in Hx.
  rewrite walkAll_cons_state, IHr by tauto.
  destruct (walk_positions n lvl st) as [y0 ->].
  rewrite lookup_insert_ne by (intros Heq; apply Hx; auto). apply IHn. tauto.
Qed.

(** On unique ids the level stored for a node is its depth. *)
Lemma walkAll_levels F :
  ∀ lvl st d k,
    uniqueIds F → (d, k) ∈ withDepth lvl F →
    level <$> positions (walkAll (λ n, walk n lvl) F st).2 !! id k = Some d.
Proof.
  induction F as [|n rest IHn IHr] using forest_ind; intros lvl st d k Hu Hin;
    [inversion Hin|].
  apply uniqueIds_cons in Hu as (Hs1 & Hs2 & Huc & Hur & Hdis).
  rewrite withDepth_cons, elem_of_cons, elem_of_app in Hin.
  rewrite walkAll_cons_state.
  destruct Hin as [[= -> ->]|[Hin|Hin]].
  - rewrite walkAll_frame by done.
    destruct (walk_positions n lvl st) as [y0 ->]. rewrite lookup_insert_eq. reflexivity.
  - pose proof (id_in_forestIds _ _ (withDepth_in_flatten _ _ _ _ Hin)) as Hk.
    rewrite walkAll_frame by (intros Hr; exact (Hdis _ Hk Hr)).
    destruct (walk_positions n lvl st) as [y0 ->].
    rewrite lookup_insert_ne by (intros Heq; apply Hs1; rewrite Heq; exact Hk).
    apply IHn; done.
  - apply IHr; done.
Qed.

(** X11.  [layoutForest] positions the ids of the forest and no other; the
    level of a position is the depth of some node with that id, so no level
    exceeds [maxLevel]; and on unique ids it is the depth of the node. *)
Theorem layout_positions_forest_ids (F : Forest) :
  dom (layoutForest F) = idSet F ∧
  (∀ x p, layoutForest F !! x = Some p →
          (∃ k, (level p, k) ∈ withDepth 0 F ∧ id k = x) ∧ level p ≤ maxLevel F) ∧
  (uniqueIds F →
   ∀ d k, (d, k) ∈ withDepth 0 F → level <$> layoutForest F !! id k = Some d).
Proof.
  unfold layoutForest. split; [|split].
  - rewrite walkAll_dom. cbn [positions]. rewrite dom_empty_L. apply (left_id_L ∅ (∪)).
  - intros x p Hx. apply walkAll_entries in Hx as [Hx|(d & k & Hin & Hid & <-)].
    + cbn in Hx. rewrite lookup_empty in Hx. discriminate.
    + split; [eauto|]. eapply maxLevel_upper, Hin.
  - intros Hu d k Hin. apply walkAll_levels; done.
Qed.

(** ** Collapsing and expanding *)

Lemma setCollapsed_same st : setCollapsed (collapsed st) st = st.
Proof. destruct st; reflexivity. Qed.

Lemma setCollapsed_twice C C' st : setCollapsed C (setCollapsed C' st) = setCollapsed C st.
Proof. reflexivity. Qed.

Lemma collected_ids (P : TreeNode → Prop) `{∀ n, Decision (P n)} (l : list TreeNode) :
  ∀ (acc : gset jsstring) x,
    x ∈ foldl (λ ids n, if decide (P n) then ids ∪ {[id n]} else ids) acc l
    ↔ x ∈ acc ∨ ∃ n, n ∈ l ∧ P n ∧ id n = x.
Proof.
  induction l as [|n l IH]; intros acc x; cbn [foldl].
  - split; [auto|]. intros [Hx|(n & Hn & _)]; [done|inversion Hn].
  - rewrite IH. setoid_rewrite elem_of_cons. destruct (decide (P n)) as [Hp|Hp].
    + rewrite elem_of_union, elem_of_singleton. split.
      * intros [[Hx| ->]|(m & Hm & Hpm & Hid)]; [auto|right; exists n; auto|].
        right. exists m. auto.
      * intros [Hx|(m & [->|Hm] & Hpm & Hid)]; [auto|auto|]. right. exists m. auto.
    + split.
      * intros [Hx|(m & Hm & Hpm & Hid)]; [auto|]. right. exists m. auto.
      * intros [Hx|(m & [->|Hm] & Hpm & Hid)]; [auto|done|]. right. exists m. auto.
Qed.

Lemma dropped_ids (P : TreeNode → Prop) `{∀ n, Decision (P n)} (l : list TreeNode) :
  ∀ (acc : gset jsstring) x,
    x ∈ foldl (λ next n, if decide (P n) then next ∖ {[id n]} else next) acc l
    ↔ x ∈ acc ∧ ∀ n, n ∈ l → P n → id n ≠ x.
Proof.
  induction l as [|n l IH]; intros acc x; cbn [foldl].
  - split; [|tauto]. intros Hx. split; [done|]. intros n Hn. inversion Hn.
  - rewrite IH. setoid_rewrite elem_of_cons. destruct (decide (P n)) as [Hp|Hp].
    + rewrite elem_of_difference, elem_of_singleton. split.
      * intros [[Hx Hne] Hall]. split; [done|]. intros m [->|Hm] Hpm; [congruence|auto].
      * intros [Hx Hall]. split; [split; [done|]|].
        -- intros ->. exact (Hall n (or_introl eq_refl) Hp eq_refl).
        -- intros m Hm. apply Hall. auto.
    + split.
      * intros [Hx Hall]. split; [done|]. intros m [->|Hm] Hpm; [done|auto].
      * intros [Hx Hall]. split; [done|]. intros m Hm. apply Hall. auto.
Qed.

Lemma fullLevel_by_id st n n' : id n = id n' → fullLevel st n = fullLevel st n'.
Proof. unfold fullLevel. intros ->. reflexivity. Qed.

Lemma fullLevel_depth st d n :
  uniqueIds (forest st) → (d, n) ∈ withDepth 0 (forest st) → fullLevel st n = d.
Proof.
  intros Hu Hin.
  pose proof (walkAll_levels (forest st) 0 (mkLayout (numOfNat 0) ∅) d n Hu Hin) as Hlv.
  unfold fullLevel, posFull, layoutForest.
  destruct (positions _ !! id n) as [p|]; [|discriminate]. cbn in Hlv. congruence.
Qed.

Lemma collapsed_collapseToLevel k st x :
  x ∈ collapsed (collapseToLevel k st)
  ↔ ∃ n, n ∈ flattenForest (forest st) ∧ k ≤ fullLevel st n ∧ id n = x.
Proof.
  unfold collapseToLevel. cbn [collapsed setCollapsed].
  rewrite visitForest_foldl, (collected_ids (λ n, k ≤ fullLevel st n)).
  rewrite elem_of_empty. tauto.
Qed.

Lemma collapsed_expandFromLevel k st x :
  x ∈ collapsed (expandFromLevel k st)
  ↔ x ∈ collapsed st ∧ ∀ n, n ∈ flattenForest (forest st) → k ≤ fullLevel st n → id n ≠ x.
Proof.
  unfold expandFromLevel. cbn [collapsed setCollapsed].
  rewrite visitForest_foldl, (dropped_ids (λ n, k ≤ fullLevel st n)). reflexivity.
Qed.

(** The depths, ids and names of a forest in traversal order. *)
Lemma cut_depths k :
  ∀ F lvl,
    outline lvl (cutBelow k F)
    = (λ p, (p.1, id p.2, name p.2)) <$> filter (λ p, p.1 ≤ lvl + k) (withDepth lvl F).
Proof.
  unfold outline. induction k as [|k IHk]; intros F lvl; induction F as [|c rest IHr]; try reflexivity.
  - cbn [cutBelow fmap list_fmap] in *. rewrite !withDepth_cons.
    cbn [children setChildren]. change (withDepth (S lvl) []) with (@nil (nat * TreeNode)).
    rewrite filter_cons_True by (cbn; lia). rewrite filter_app.
    rewrite (filter_drop_all _ (withDepth (S lvl) (children c))).
    2:{ intros p Hp. destruct p as [d n]. apply withDepth_lower in Hp. cbn. lia. }
    cbn [app fmap list_fmap]. f_equal. exact IHr.
  - cbn [cutBelow fmap list_fmap] in *. rewrite !withDepth_cons.
    cbn [children setChildren].
    rewrite filter_cons_True by (cbn; lia). rewrite filter_app, !fmap_cons, !fmap_app.
    cbn [fst snd id name]. f_equal. f_equal; [|exact IHr].
    rewrite IHk. replace (S lvl + k) with (lvl + S k) by lia. reflexivity.
Qed.

Lemma visible_cut F :
  ∀ lvl k (C : gset jsstring),
    lvl ≤ k →
    (∀ d n, (d, n) ∈ withDepth lvl F → (id n ∈ C ↔ k ≤ d)) →
    buildVisibleForest F C = cutBelow (k - lvl) F.
Proof.
  induction F as [|c rest IHc IHr] using forest_ind; intros lvl k C Hle Hc.
  - destruct (k - lvl); reflexivity.
  - rewrite buildVisible_cons.
    assert (Hhead : id c ∈ C ↔ k ≤ lvl) by (apply Hc; rewrite withDepth_cons; left).
    rewrite (IHr lvl k) by (try done; intros d n Hin; apply Hc; rewrite withDepth_cons;
                            right; apply elem_of_app; auto).
    destruct (decide (id c ∈ C)) as [Hin|Hout].
    + replace (k - lvl) with 0 by (apply Hhead in Hin; lia). reflexivity.
    + assert (Hlt : lvl < k) by (destruct (decide (k ≤ lvl)); [tauto|lia]).
      rewrite (IHc (S lvl) k) by (try lia; intros d n Hin; apply Hc; rewrite withDepth_cons;
                                  right; apply elem_of_app; auto).
      replace (k - lvl) with (S (k - S lvl)) by lia. reflexivity.
Qed.

(** X12.  On a forest with unique ids, after [collapseToLevel k] the view
    shows the forest cut off below depth [k]: in traversal order exactly the
    nodes at depth [k] or less, each at its depth and with its id and name;
    so the view is at most [k] deep. *)
Theorem collapseToLevel_cuts_view (k : nat) (st : AppState) :
  uniqueIds (forest st) →
  visibleForest (collapseToLevel k st) = cutBelow k (forest st) ∧
  outline 0 (visibleForest (collapseToLevel k st))
  = (λ p, (p.1, id p.2, name p.2)) <$> filter (λ p, p.1 ≤ k) (withDepth 0 (forest st)) ∧
  visibleDepth (collapseToLevel k st) ≤ k.
Proof.
  intros Hu.
  assert (Hview : visibleForest (collapseToLevel k st) = cutBelow k (forest st)).
  { unfold visibleForest. change (forest (collapseToLevel k st)) with (forest st).
    rewrite (visible_cut (forest st) 0 k); [| lia |].
    2:{ intros d n Hin. rewrite collapsed_collapseToLevel.
        pose proof (fullLevel_depth st d n Hu Hin) as Hd. split.
        - intros (n' & Hn' & Hk & Hid). rewrite (fullLevel_by_id st n' n Hid) in Hk. lia.
        - intros Hk. exists n. split; [eapply withDepth_in_flatten, Hin|]. split; [lia|done]. }
    rewrite Nat.sub_0_r. reflexivity. }
  split; [exact Hview|]. split.
  - rewrite Hview. apply (cut_depths k (forest st) 0).
  - unfold visibleDepth. rewrite Hview.
    destruct (decide (cutBelow k (forest st) = [])) as [->|Hne]; [cbn; lia|].
    destruct (maxLevel_attained _ Hne) as [n Hn].
    assert (Hin : (maxLevel (cutBelow k (forest st)), id n, name n)
                  ∈ outline 0 (cutBelow k (forest st))).
    { apply list_elem_of_fmap. exists (maxLevel (cutBelow k (forest st)), n). done. }
    rewrite cut_depths in Hin. apply list_elem_of_fmap in Hin as (p & Heq & Hp).
    apply list_elem_of_filter in Hp as [Hle _]. injection Heq as -> _ _. exact Hle.
Qed.

Lemma collapseToLevel_cuts_view_witness :
  visibleDepth (collapseToLevel 0 sampleState) ≤ 0.
Proof.
  apply (collapseToLevel_cuts_view 0 sampleState).
  by_evaluation.
Defined.

(** X13.  [expandFromLevel] only ever expands; [expandFromLevel 0] and
    [expandFromLevel k] after [collapseToLevel k] bring the whole forest back
    into view; and on a forest with unique ids a node stays collapsed exactly
    when it was collapsed and lies above level [k]. *)
Theorem expandFromLevel_expands (k : nat) (st : AppState) :
  collapsed (expandFromLevel k st) ⊆ collapsed st ∧
  visibleForest (expandFromLevel 0 st) = forest st ∧
  visibleForest (expandFromLevel k (collapseToLevel k st)) = forest st ∧
  (uniqueIds (forest st) →
   ∀ d n, (d, n) ∈ withDepth 0 (forest st) →
          (id n ∈ collapsed (expandFromLevel k st) ↔ id n ∈ collapsed st ∧ d < k)).
Proof.
  split; [intros x Hx; apply collapsed_expandFromLevel in Hx; tauto|].
  split; [|split].
  - unfold visibleForest. change (forest (expandFromLevel 0 st)) with (forest st).
    rewrite <- (visible_all (forest st)) at 2. apply buildVisible_agree.
    intros x Hx. rewrite collapsed_expandFromLevel, elem_of_empty.
    split; [|done]. intros [_ Hall].
    apply elem_of_forestIds in Hx as (n & Hn & Hid). apply (Hall n Hn); [lia|done].
  - unfold visibleForest.
    change (forest (expandFromLevel k (collapseToLevel k st))) with (forest st).
    rewrite <- (visible_all (forest st)) at 2. apply buildVisible_agree.
    intros x _. rewrite collapsed_expandFromLevel, collapsed_collapseToLevel, elem_of_empty.
    split; [|done]. intros [(n & Hn & Hk & Hid) Hall].
    change (forest (collapseToLevel k st)) with (forest st) in Hall.
    apply (Hall n Hn); [|done]. exact Hk.
  - intros Hu d n Hin. rewrite collapsed_expandFromLevel.
    pose proof (fullLevel_depth st d n Hu Hin) as Hd. split.
    + intros [Hc Hall]. split; [done|]. destruct (decide (d < k)) as [|Hge]; [done|].
      exfalso. apply (Hall n); [eapply withDepth_in_flatten, Hin|lia|done].
    + intros [Hc Hlt]. split; [done|]. intros n' Hn' Hk Hid.
      rewrite (fullLevel_by_id st n' n Hid) in Hk. lia.
Qed.

(** X14.  [toggleCollapsed] flips the state of one id and of no other, so
    toggling twice gives the state back; toggling an id that is not in the
    forest does not change the view; [expandNode] leaves the id expanded and
    touches no other. *)
Theorem toggleCollapsed_flips_one (x : jsstring) (st : AppState) :
  (∀ z, z ∈ collapsed (toggleCollapsed x st) ↔ (if decide (z = x) then z ∉ collapsed st
                                                 else z ∈ collapsed st)) ∧
  toggleCollapsed x (toggleCollapsed x st) = st ∧
  (x ∉ forestIds (forest st) → visibleForest (toggleCollapsed x st) = visibleForest st) ∧
  collapsed (expandNode x st) = collapsed st ∖ {[x]}.
Proof.
  assert (Hflip : ∀ st' z, z ∈ collapsed (toggleCollapsed x st')
                       ↔ (if decide (z = x) then z ∉ collapsed st' else z ∈ collapsed st')).
  { intros st' z. unfold toggleCollapsed. cbn [collapsed setCollapsed].
    destruct (decide (x ∈ collapsed st')) as [Hx|Hx];
      [rewrite elem_of_difference|rewrite elem_of_union]; rewrite elem_of_singleton;
      destruct (decide (z = x)) as [->|Hne]; tauto. }
  split; [apply Hflip|]. split; [|split].
  - assert (Hsame : collapsed (toggleCollapsed x (toggleCollapsed x st)) = collapsed st).
    { apply set_eq. intros z. rewrite Hflip. destruct (decide (z = x)) as [->|Hne].
      - rewrite Hflip, decide_True by done. destruct (decide (x ∈ collapsed st)); tauto.
      - rewrite Hflip, decide_False by done. tauto. }
    transitivity (setCollapsed (collapsed (toggleCollapsed x (toggleCollapsed x st))) st);
      [reflexivity|].
    rewrite Hsame. apply setCollapsed_same.
  - intros Hx. apply buildVisible_agree. intros z Hz.
    change (forest (toggleCollapsed x st)) with (forest st) in Hz.
    rewrite Hflip, decide_False by congruence. reflexivity.
  - unfold expandNode. destruct (decide (x ∈ collapsed st)) as [Hx|Hx]; [reflexivity|].
    apply set_eq. intros z. rewrite elem_of_difference, elem_of_singleton.
    split; [|tauto]. intros Hz. split; [done|congruence].
Qed.

(** ** Adding nodes *)

Lemma last_sliceLast {A} (k : nat) (l : list A) (e : A) :
  0 < k → last (sliceLast k (l ++ [e])) = Some e.
Proof.
  intros Hk. unfold sliceLast. rewrite length_app. cbn [length].
  rewrite drop_app_le by lia. apply last_snoc.
Qed.

Lemma last_addChange newId now text st :
  last (changeLog (addChange newId now text st)) = Some (mkItem newId now text).
Proof. rewrite changeLog_addChange. apply last_sliceLast. lia. Qed.

(** X15.  [addRegion] appends one childless root, named by a name that no
    root carries (the stock name when it is free), selects it, opens its name
    for editing with that name as the draft, and logs the addition; the ids
    stay unique when the new id is fresh. *)
Theorem addRegion_appends_fresh_root (rootId entryId : jsstring) (now : Z) (st : AppState) :
  ∃ nm,
    forest (addRegion rootId entryId now st) = forest st ++ [mkNode rootId nm []] ∧
    (nm ∉ name <$> forest st) ∧
    (newRegionName ∉ name <$> forest st → nm = newRegionName) ∧
    selectedId (addRegion rootId entryId now st) = Some rootId ∧
    editingNodeId (addRegion rootId entryId now st) = Some rootId ∧
    nodeDraft (addRegion rootId entryId now st) = nm ∧
    last (changeLog (addRegion rootId entryId now st))
    = Some (mkItem entryId now (regionAddedSummary nm)) ∧
    (uniqueIds (forest st) → rootId ∉ forestIds (forest st) →
     uniqueIds (forest (addRegion rootId entryId now st))).
Proof.
  exists (uniqueName newRegionName (list_to_set (name <$> forest st))).
  split; [reflexivity|]. split.
  { intros Hin. apply (uniqueName_not_taken newRegionName (list_to_set (name <$> forest st))).
    apply elem_of_list_to_set. exact Hin. }
  split.
  { intros Hfree. apply uniqueName_free. rewrite elem_of_list_to_set. exact Hfree. }
  split; [reflexivity|]. split; [reflexivity|]. split; [reflexivity|].
  split; [apply last_addChange|].
  intros Hu Hfresh. change (forest (addRegion rootId entryId now st))
    with (forest st ++ [mkNode rootId (uniqueName newRegionName
                                        (list_to_set (name <$> forest st))) []]).
  unfold uniqueIds. rewrite forestIds_app. apply NoDup_app. split; [exact Hu|].
  split; [|change (NoDup [rootId]); apply NoDup_singleton].
  intros z Hz Hin. change (z ∈ [rootId]) in Hin.
  apply list_elem_of_singleton in Hin. subst z. exact (Hfresh Hz).
Qed.

Lemma forest_expandNode x st : forest (expandNode x st) = forest st.
Proof. unfold expandNode. destruct (decide _); reflexivity. Qed.

Lemma collapsed_expandNode x st : collapsed (expandNode x st) = collapsed st ∖ {[x]}.
Proof.
  unfold expandNode. destruct (decide (x ∈ collapsed st)) as [Hx|Hx]; [reflexivity|].
  apply set_eq. intros z. rewrite elem_of_difference, elem_of_singleton.
  split; [|tauto]. intros Hz. split; [done|congruence].
Qed.

Lemma changeLog_expandNode x st : changeLog (expandNode x st) = changeLog st.
Proof. unfold expandNode. destruct (decide _); reflexivity. Qed.

(** The state [addChildRight] leaves when the parent is found. *)
Lemma addChildRight_found childId entryId now st par :
  uniqueIds (forest st) → par ∈ flattenForest (forest st) →
  let nm := uniqueName newElementName (list_to_set (name <$> children par)) in
  addChildRight childId entryId now (id par) st
  = addChange entryId now (childAddedSummary nm (name par))
      (setNodeDraft nm
         (setEditingNodeId (Some childId)
            (setPanelOpen true
               (setSelectedId (Some childId)
                  (expandNode (id par)
                     (setForest (graft (id par) [mkNode childId nm []] (forest st)) st)))))).
Proof.
  intros Hu Hpar nm.
  pose proof (findNode_unique _ _ Hu Hpar) as Hfind.
  destruct (graft_once (id par) [mkNode childId nm []] (forest st)) as (r & Hr & Hup).
  { apply occurrences_unique; [done|apply id_in_forestIds, Hpar]. }
  unfold addChildRight, nameOf. rewrite Hfind.
  unfold findNode in Hfind. unfold findNodeAndParent in *. rewrite Hr in *.
  cbn [node] in *. rewrite Hfind. fold nm. rewrite Hup. reflexivity.
Qed.

(** X16.  [addChildRight] does nothing when no node carries the parent's id.
    On a forest with unique ids it appends to the parent's children one
    childless node, named by a name that none of the parent's children
    carries, leaves the parent expanded, selects the child, opens its name for
    editing and logs the addition; the ids stay unique when the new id is
    fresh. *)
Theorem addChildRight_appends_fresh_child
    (childId entryId : jsstring) (now : Z) (st : AppState) (par : TreeNode) :
  uniqueIds (forest st) → par ∈ flattenForest (forest st) →
  (∀ x, x ∉ forestIds (forest st) → addChildRight childId entryId now x st = st) ∧
  ∃ nm,
    forest (addChildRight childId entryId now (id par) st)
    = graft (id par) [mkNode childId nm []] (forest st) ∧
    (nm ∉ name <$> children par) ∧
    (∃ par', par' ∈ flattenForest (forest (addChildRight childId entryId now (id par) st)) ∧
             id par' = id par ∧ name par' = name par ∧
             children par' = children par ++ [mkNode childId nm []]) ∧
    collapsed (addChildRight childId entryId now (id par) st) = collapsed st ∖ {[id par]} ∧
    selectedId (addChildRight childId entryId now (id par) st) = Some childId ∧
    editingNodeId (addChildRight childId entryId now (id par) st) = Some childId ∧
    nodeDraft (addChildRight childId entryId now (id par) st) = nm ∧
    last (changeLog (addChildRight childId entryId now (id par) st))
    = Some (mkItem entryId now (childAddedSummary nm (name par))) ∧
    (childId ∉ forestIds (forest st) →
     uniqueIds (forest (addChildRight childId entryId now (id par) st))).
Proof.
  intros Hu Hpar. split.
  { intros x Hx. unfold addChildRight, findNodeAndParent.
    rewrite findRef_None by done. reflexivity. }
  rewrite addChildRight_found by done.
  set (nm := uniqueName newElementName (list_to_set (name <$> children par))).
  exists nm.
  change (forest (addChange _ _ _ (setNodeDraft _ (setEditingNodeId _ (setPanelOpen _
            (setSelectedId _ ?s)))))) with (forest s).
  rewrite forest_expandNode. cbn [forest setForest].
  split; [reflexivity|]. split.
  { intros Hin. apply (uniqueName_not_taken newElementName (list_to_set (name <$> children par))).
    apply elem_of_list_to_set. exact Hin. }
  split.
  { destruct (grafted_node [mkNode childId nm []] _ par Hpar) as (par' & Hin & Hid & Hnm & Hch).
    exists par'. repeat (split; [done|]).
    rewrite Hch, graft_absent by (apply own_id_not_below with (F := forest st); done).
    reflexivity. }
  split.
  { change (collapsed (addChange _ _ _ (setNodeDraft _ (setEditingNodeId _ (setPanelOpen _
              (setSelectedId _ ?s)))))) with (collapsed s).
    rewrite collapsed_expandNode. reflexivity. }
  split; [reflexivity|]. split; [reflexivity|]. split; [reflexivity|].
  split; [apply last_addChange|].
  intros Hfresh. apply uniqueIds_of_occurrences. intros z.
  rewrite occurrences_graft_once
    by (apply occurrences_unique; [done|apply id_in_forestIds, Hpar]).
  rewrite occurrences_single. cbn [id children].
  change (occurrences z []) with 0. pose proof (occurrences_le_one z _ Hu) as Hle.
  destruct (decide (childId = z)) as [<-|Hne]; [|lia].
  apply occurrences_zero in Hfresh. lia.
Qed.

Lemma addChildRight_appends_fresh_child_witness :
  ∃ nm, forest (addChildRight (js "n1") (js "u1") 7 (js "D") sampleState)
        = graft (js "D") [mkNode (js "n1") nm []] sampleForest.
Proof.
  destruct (addChildRight_appends_fresh_child (js "n1") (js "u1") 7 sampleState (leaf "D"))
    as (_ & nm & Hforest & _).
  - by_evaluation.
  - by_evaluation.
  - exists nm. exact Hforest.
Defined.

(** ** Renaming a node *)

Lemma outline_cons lvl c rest :
  outline lvl (c :: rest)
  = (lvl, id c, name c) :: outline (S lvl) (children c) ++ outline lvl rest.
Proof. unfold outline. rewrite withDepth_cons, fmap_cons, fmap_app. reflexivity. Qed.

Lemma relabel_other x nm d i n0 : i ≠ x → relabel x nm (d, i, n0) = (d, i, n0).
Proof. intros Hne. unfold relabel. cbn [fst snd]. destruct (decide (i = x)); done. Qed.

Lemma relabel_same x nm d n0 : relabel x nm (d, x, n0) = (d, x, nm).
Proof. unfold relabel. cbn [fst snd]. destruct (decide (x = x)); done. Qed.

Lemma relabel_absent x nm F :
  ∀ lvl, x ∉ forestIds F → relabel x nm <$> outline lvl F = outline lvl F.
Proof.
  induction F as [|c rest IHc IHr] using forest_ind; intros lvl Hx; [reflexivity|].
  rewrite elem_of_forestIds_cons in Hx.
  rewrite outline_cons, fmap_cons, fmap_app, IHc, IHr by tauto.
  rewrite relabel_other by (intros Heq; apply Hx; auto). reflexivity.
Qed.

Lemma rename_once x nm F :
  occurrences x F = 1 →
  ∃ r, findRef F x = Some r ∧
       ∀ lvl, outline lvl (updateAt (λ n, setName n nm) r F)
              = relabel x nm <$> outline lvl F.
Proof.
  induction F as [|c rest IHc IHr] using forest_ind; [discriminate|].
  rewrite occurrences_cons, findRef_cons. intros Hocc.
  destruct (decide (id c = x)) as [Heq|Hne].
  - assert (Hc : x ∉ forestIds (children c)) by (apply occurrences_zero; lia).
    assert (Hr : x ∉ forestIds rest) by (apply occurrences_zero; lia).
    exists [0]. split; [done|]. intros lvl.
    rewrite updateAt_head, !outline_cons, fmap_cons, fmap_app.
    cbn [id name children setName].
    rewrite (relabel_absent _ _ (children c)) by exact Hc.
    rewrite (relabel_absent _ _ rest) by exact Hr.
    rewrite Heq, relabel_same. reflexivity.
  - destruct (decide (occurrences x (children c) = 0)) as [Hz|Hnz].
    + assert (Hc : x ∉ forestIds (children c)) by (apply occurrences_zero; lia).
      rewrite (findRef_None _ _ Hc).
      destruct IHr as (r & Hr & Hup); [lia|]. rewrite Hr. exists (nextSibling r).
      split; [done|]. intros lvl.
      rewrite updateAt_nextSibling, !outline_cons, fmap_cons, fmap_app, Hup.
      rewrite (relabel_absent _ _ (children c)) by done.
      rewrite relabel_other by done. reflexivity.
    + assert (Hr : x ∉ forestIds rest) by (apply occurrences_zero; lia).
      destruct IHc as (r & Hrc & Hup); [lia|]. rewrite Hrc. exists (0 :: r).
      split; [done|]. intros lvl.
      rewrite updateAt_below by (eapply findRef_nonempty; eauto).
      rewrite !outline_cons, fmap_cons, fmap_app. cbn [id name children setChildren].
      rewrite Hup, (relabel_absent _ _ rest) by done.
      rewrite relabel_other by done. reflexivity.
Qed.

(** X17.  [commitRenameNode] does nothing when the node being edited is no
    longer in the forest.  On a forest with unique ids, with a draft that is
    not blank, it gives the edited node the trimmed draft as its name and
    changes nothing else of the forest: every node keeps its place, its depth
    and its id, and every other node its name; the editor is closed and the
    rename is logged with the former name. *)
Theorem commitRenameNode_renames_one
    (newId : jsstring) (now : Z) (st : AppState) (m : TreeNode) :
  uniqueIds (forest st) → m ∈ flattenForest (forest st) →
  editingNodeId st = Some (id m) → id m ≠ [] → trim (nodeDraft st) ≠ [] →
  outline 0 (forest (commitRenameNode newId now st))
  = relabel (id m) (trim (nodeDraft st)) <$> outline 0 (forest st) ∧
  editingNodeId (commitRenameNode newId now st) = None ∧
  nodeDraft (commitRenameNode newId now st) = [] ∧
  last (changeLog (commitRenameNode newId now st))
  = Some (mkItem newId now (renamedSummary (name m) (trim (nodeDraft st)))).
Proof.
  intros Hu Hm Hed Hid Hdraft.
  destruct (rename_once (id m) (trim (nodeDraft st)) (forest st)) as (r & Hr & Hup).
  { apply occurrences_unique; [done|apply id_in_forestIds, Hm]. }
  assert (Hf1 : falsy (trim (nodeDraft st)) = false)
    by (destruct (trim (nodeDraft st)); done).
  assert (Hf2 : falsy (id m) = false) by (destruct (id m); done).
  unfold commitRenameNode. rewrite Hed. cbn [falsyOpt from_option Datatypes.id].
  rewrite Hf1, Hf2. cbn [orb].
  unfold nameOf. rewrite (findNode_unique _ _ Hu Hm).
  unfold findNodeAndParent. rewrite Hr. cbn [node].
  split; [apply Hup|]. split; [reflexivity|]. split; [reflexivity|]. apply last_addChange.
Qed.

Lemma commitRenameNode_renames_one_witness :
  editingNodeId (commitRenameNode (js "u1") 7
                   (setNodeDraft (js " Z ") (setEditingNodeId (Some (js "B")) sampleState)))
  = None.
Proof.
  apply (commitRenameNode_renames_one (js "u1") 7
           (setNodeDraft (js " Z ") (setEditingNodeId (Some (js "B")) sampleState))
           (leaf "B")).
  - by_evaluation.
  - by_evaluation.
  - reflexivity.
  - by_evaluation.
  - by_evaluation.
Defined.

(** X18.  A rename of a node that is no longer in the forest (its id was
    left behind by a deletion) is dropped without a trace: the state stays as
    it is, with the editor still open on the missing node. *)
Theorem commitRenameNode_missing_node
    (newId : jsstring) (now : Z) (st : AppState) (x : jsstring) :
  editingNodeId st = Some x → x ∉ forestIds (forest st) →
  commitRenameNode newId now st = st.
Proof.
  intros Hed Hx. unfold commitRenameNode. rewrite Hed.
  cbn [falsyOpt from_option Datatypes.id].
  destruct (falsy (trim (nodeDraft st)) || falsy x); [reflexivity|].
  unfold findNodeAndParent. rewrite findRef_None by done. reflexivity.
Qed.

Lemma commitRenameNode_missing_node_witness :
  commitRenameNode (js "u1") 7
    (setNodeDraft (js "Z") (setEditingNodeId (Some (js "gone")) sampleState))
  = setNodeDraft (js "Z") (setEditingNodeId (Some (js "gone")) sampleState).
Proof.
  apply (commitRenameNode_missing_node (js "u1") 7 _ (js "gone")).
  - reflexivity.
  - by_evaluation.
Defined.

(** ** Adding dimension labels *)

Lemma spliceIn_lookup (i : nat) (nm : jsstring) (l : list jsstring) :
  i ≤ length l →
  spliceIn i nm l !! i = Some nm ∧ delete i (spliceIn i nm l) = l ∧
  length (spliceIn i nm l) = S (length l) ∧
  (∀ j, j < i → spliceIn i nm l !! j = l !! j) ∧
  (∀ j, i ≤ j → spliceIn i nm l !! S j = l !! j).
Proof.
  intros Hi. unfold spliceIn.
  assert (Hlen : length (take i l) = i) by (rewrite length_take; lia).
  split; [|split; [|split; [|split]]].
  - rewrite lookup_app_r by lia. rewrite Hlen, Nat.sub_diag. reflexivity.
  - rewrite <- Hlen at 1. rewrite delete_middle. apply take_drop.
  - rewrite length_app. cbn [length]. rewrite Hlen, length_drop. lia.
  - intros j Hj. rewrite lookup_app_l by lia. apply lookup_take_lt. lia.
  - intros j Hj. rewrite lookup_app_r by lia. rewrite Hlen.
    replace (S j - i) with (S (j - i)) by lia.
    change ((nm :: drop i l) !! S (j - i)) with (drop i l !! (j - i)).
    rewrite lookup_drop. f_equal. lia.
Qed.

(** X19.  [addDimLeft] and [addDimRight], called on a dimension label that
    exists, insert one new label, different from every label there is, just
    before respectively just after that label, open it for editing with the
    new name as the draft, and keep the other labels in their order: taking
    the new label out gives the former labels back. *)
Theorem addDim_inserts_fresh_label
    (entryId : jsstring) (now : Z) (index : nat) (st : AppState) :
  index < length (dims st) →
  let left := addDimLeft entryId now index st in
  let right := addDimRight entryId now index st in
  ∃ nm,
    (nm ∉ dims st) ∧
    editingDimIndex left = Some index ∧ dims left !! index = Some nm ∧
    dims left !! S index = dims st !! index ∧
    delete index (dims left) = dims st ∧ dimDraft left = nm ∧
    editingDimIndex right = Some (S index) ∧ dims right !! S index = Some nm ∧
    dims right !! index = dims st !! index ∧
    delete (S index) (dims right) = dims st ∧ dimDraft right = nm.
Proof.
  intros Hi left right. subst left right.
  set (nm := uniqueName newLevelName (list_to_set (dims st))). exists nm.
  destruct (spliceIn_lookup index nm (dims st)) as (Hl1 & Hl2 & _ & _ & Hl3); [lia|].
  destruct (spliceIn_lookup (S index) nm (dims st)) as (Hr1 & Hr2 & _ & Hr3 & _); [lia|].
  split.
  { intros Hin. apply (uniqueName_not_taken newLevelName (list_to_set (dims st))).
    apply elem_of_list_to_set. exact Hin. }
  split; [reflexivity|]. split; [exact Hl1|]. split; [apply Hl3; lia|].
  split; [exact Hl2|]. split; [reflexivity|]. split; [reflexivity|].
  split; [exact Hr1|]. split; [apply Hr3; lia|]. split; [exact Hr2|reflexivity].
Qed.

Lemma addDim_inserts_fresh_label_witness :
  ∃ nm, (nm ∉ dims sampleState) ∧
        dims (addDimRight (js "u1") 7 0 sampleState) = [js "Region"; nm; js "City"].
Proof.
  destruct (addDim_inserts_fresh_label (js "u1") 7 0 sampleState) as (nm & Hfresh & Hrest).
  - cbn. lia.
  - exists nm. split; [exact Hfresh|].
    destruct Hrest as (_ & _ & _ & _ & _ & _ & _ & _ & _ & Hright).
    rewrite <- Hright. reflexivity.
Defined.

(** ** The targets offered by the delete dialog *)

Lemma listNodeOptions_eq forest dimLabels pos excludeId :
  listNodeOptions forest dimLabels pos excludeId
  = nodeOption forest dimLabels pos
      <$> filter (λ n, id n ≠ excludeId) (flattenForest forest).
Proof.
  unfold listNodeOptions. rewrite visitForest_foldl.
  assert (Hgen : ∀ l acc,
    foldl (λ out n, if decide (id n ≠ excludeId)
                    then out ++ [nodeOption forest dimLabels pos n] else out) acc l
    = acc ++ (nodeOption forest dimLabels pos <$> filter (λ n, id n ≠ excludeId) l)).
  { induction l as [|n l IH]; intros acc; cbn [foldl]; [by rewrite app_nil_r|].
    rewrite IH, filter_cons. destruct (decide (id n ≠ excludeId)); [|reflexivity].
    rewrite fmap_cons, <- app_assoc. reflexivity. }
  apply Hgen.
Qed.

Lemma offered_ids (F : Forest) (dimLabels : list jsstring) (pos : gmap jsstring Pos)
    (x : jsstring) (l : list TreeNode) :
  option_id <$> filter (λ o, isDescendant F x (option_id o) = false)
                  (nodeOption F dimLabels pos <$> filter (λ n, id n ≠ x) l)
  = filter (λ z, z ≠ x ∧ isDescendant F x z = false) (id <$> l).
Proof.
  induction l as [|n l IH]; [reflexivity|].
  rewrite fmap_cons, (filter_cons _ (id n)), (filter_cons _ n).
  destruct (decide (id n ≠ x)) as [Hne|Heq].
  - rewrite fmap_cons, filter_cons. cbn [option_id nodeOption].
    destruct (decide (isDescendant F x (id n) = false)) as [Hd|Hd].
    + rewrite decide_True by done. rewrite fmap_cons, IH. reflexivity.
    + rewrite decide_False by tauto. exact IH.
  - rewrite decide_False by tauto. exact IH.
Qed.

Lemma reassignOptions_ids st m :
  uniqueIds (forest st) → m ∈ flattenForest (forest st) →
  dialog_nodeId (deleteDialog st) = Some (id m) → id m ≠ [] →
  option_id <$> reassignOptions st
  = filter (λ z, z ∉ nodeIds m) (forestIds (forest st)).
Proof.
  intros Hu Hm Hdlg Hid. unfold reassignOptions. rewrite Hdlg.
  cbn [falsyOpt from_option Datatypes.id].
  replace (falsy (id m)) with false by (destruct (id m); done).
  rewrite listNodeOptions_eq, offered_ids. apply list_filter_iff. intros z.
  rewrite nodeIds_eq, not_elem_of_cons, <- (isDescendant_spec _ _ z Hu Hm).
  destruct (isDescendant (forest st) (id m) z); split; intros [? ?]; split; congruence.
Qed.

(** X20.  On a forest with unique ids, with the delete dialog on node [m],
    the dialog offers as new parents the nodes of the forest other than [m]
    and its descendants, in traversal order; and the offered nodes are the
    ones [confirmReassignChildren] accepts: with an offered node as the target
    the children of [m] go to it and [m] goes, with any other node of the
    forest as the target the state stays as it is. *)
Theorem reassignOptions_are_the_accepted_targets
    (newId : jsstring) (now : Z) (st : AppState) (m td : TreeNode) :
  uniqueIds (forest st) → m ∈ flattenForest (forest st) →
  dialog_nodeId (deleteDialog st) = Some (id m) → id m ≠ [] →
  td ∈ flattenForest (forest st) → id td ≠ [] →
  option_id <$> reassignOptions st
  = filter (λ z, z ∉ nodeIds m) (forestIds (forest st)) ∧
  (id td ∈ option_id <$> reassignOptions st →
   forest (confirmReassignChildren newId now (setReassignTargetId (Some (id td)) st))
   = prune (id m) (graft (id td) (children m) (forest st))) ∧
  (id td ∉ option_id <$> reassignOptions st →
   confirmReassignChildren newId now (setReassignTargetId (Some (id td)) st)
   = setReassignTargetId (Some (id td)) st).
Proof.
  intros Hu Hm Hdlg Hid Htd Hidt.
  rewrite (reassignOptions_ids st m Hu Hm Hdlg Hid).
  split; [reflexivity|]. split.
  - intros Hin. apply list_elem_of_filter in Hin as [Hapart _].
    exact (forest_confirmReassignChildren newId now (setReassignTargetId (Some (id td)) st)
             m td Hu Hm Htd Hid Hidt Hapart Hdlg eq_refl).
  - intros Hout.
    assert (Hin : id td ∈ nodeIds m).
    { destruct (decide (id td ∈ nodeIds m)) as [|Hn]; [done|]. exfalso. apply Hout.
      apply list_elem_of_filter. split; [done|apply id_in_forestIds, Htd]. }
    unfold confirmReassignChildren.
    change (dialog_nodeId (deleteDialog (setReassignTargetId (Some (id td)) st)))
      with (dialog_nodeId (deleteDialog st)).
    change (reassignTargetId (setReassignTargetId (Some (id td)) st)) with (Some (id td)).
    change (forest (setReassignTargetId (Some (id td)) st)) with (forest st).
    rewrite Hdlg. cbn [falsyOpt from_option Datatypes.id].
    replace (falsy (id m)) with false by (destruct (id m); done).
    replace (falsy (id td)) with false by (destruct (id td); done).
    cbn [orb]. rewrite nodeIds_eq, elem_of_cons in Hin. destruct Hin as [Heq|Hbelow].
    + rewrite bool_decide_eq_true_2 by done. reflexivity.
    + apply (isDescendant_spec _ _ _ Hu Hm) in Hbelow. rewrite Hbelow, orb_true_r.
      reflexivity.
Qed.

Lemma reassignOptions_are_the_accepted_targets_witness :
  option_id <$> reassignOptions dialogOnA = [js "D"].
Proof.
  refine (proj1 (reassignOptions_are_the_accepted_targets (js "u1") 7 dialogOnA
                   (inner "A" [leaf "B"; leaf "C"]) (leaf "D") _ _ _ _ _ _)).
  - by_evaluation.
  - by_evaluation.
  - reflexivity.
  - by_evaluation.
  - by_evaluation.
  - by_evaluation.
Defined.

(** ** The escaper and the sanity tests *)

Lemma matchesHere_self canonicalize (i : bool) (q s : list N) :
  matchesHere canonicalize i q (q ++ s) = true.
Proof.
  induction q as [|c q IH]; [reflexivity|]. cbn [app matchesHere]. rewrite IH, andb_true_r.
  unfold sameChar. destruct i; apply bool_decide_eq_true_2; reflexivity.
Qed.

Lemma matchesSomewhere_inside canonicalize (i : bool) (q before after : list N) :
  matchesSomewhere canonicalize i q (before ++ q ++ after) = true.
Proof.
  induction before as [|c before IH].
  - cbn [app]. destruct (q ++ after) eqn:Heq; cbn [matchesSomewhere];
      rewrite <- Heq, matchesHere_self; reflexivity.
  - cbn [app matchesSomewhere]. rewrite IH. apply orb_true_r.
Qed.

(** X21.  Whatever the text and the flag, the escaped text is a pattern the
    constructor accepts, its literal is the text itself, and it matches every
    string that holds the text. *)
Theorem escaped_text_matches_itself
    (canonicalize : N → N) (i : bool) (q before after : jsstring) :
  ∃ re, newRegExp (escapeRegExp q) i = Some re ∧ literal re = q ∧ ignoreCase re = i ∧
        test canonicalize re (before ++ q ++ after) = true.
Proof.
  unfold newRegExp. rewrite compile_escape. eexists. split; [reflexivity|].
  split; [reflexivity|]. split; [reflexivity|].
  unfold test. cbn [literal ignoreCase]. apply matchesSomewhere_inside.
Qed.

Lemma sanity_move_any_ids idR idC idR2 :
  (moveNodeAsChild
     [mkNode idR (js "R") [mkNode idC (js "C") []]; mkNode idR2 (js "R2") []] idR2 idR).2
  = bool_decide (idR2 ≠ idR).
Proof.
  unfold moveNodeAsChild. destruct (decide (idR2 = idR)) as [Heq|Hne].
  { rewrite bool_decide_eq_false_2 by tauto. reflexivity. }
  rewrite bool_decide_eq_true_2 by done.
  unfold isDescendant, findNode, findNodeAndParent, detachNode, findRef. cbn.
  repeat (case_decide; cbn; try congruence); reflexivity.
Qed.

(** X22.  With a case folding that identifies [a] with [A] and [b] with [B],
    the sanity tests of the source pass exactly when [uid()] has given the
    roots [R] and [R2] different ids. *)
Theorem runSanityTests_pass_on_distinct_roots
    (canonicalize : N → N) (idR idC idR2 : jsstring) :
  canonicalize 97%N = canonicalize 65%N → canonicalize 98%N = canonicalize 66%N →
  (runSanityTests canonicalize idR idC idR2 = true ↔ idR2 ≠ idR).
Proof.
  intros Ha Hb. unfold runSanityTests, newRegExp. rewrite !compile_escape.
  cbn [fmap option_fmap option_map].
  assert (Hfirst : test canonicalize (mkRegExp (js "a+b") true) (js "A+B") = true).
  { unfold test. cbn [literal ignoreCase]. apply matchesSomewhere_spec.
    exists [], (js "A+B"), []. split; [reflexivity|].
    change (js "A+B") with [65; 43; 66]%N. change (js "a+b") with [97; 43; 98]%N.
    cbn [fmap list_fmap]. rewrite Ha, Hb. reflexivity. }
  assert (Hsecond : test canonicalize (mkRegExp (js "(a)[b]\c?^$") false) (js "(a)[b]\c?^$") = true).
  { unfold test. cbn [literal ignoreCase].
    rewrite <- (app_nil_r (js "(a)[b]\c?^$")) at 2.
    apply (matchesSomewhere_inside canonicalize false _ [] []). }
  rewrite Hfirst, Hsecond, sanity_move_any_ids. cbn [andb].
  rewrite bool_decide_eq_true. reflexivity.
Qed.

Lemma runSanityTests_pass_on_distinct_roots_witness :
  runSanityTests asciiUpper (js "r1") (js "c1") (js "r2") = true ↔ js "r2" ≠ js "r1".
Proof.
  apply (runSanityTests_pass_on_distinct_roots asciiUpper (js "r1") (js "c1") (js "r2")).
  - reflexivity.
  - reflexivity.
Defined.
